(** * Experience replay buffers of [yw.ddpg_main.replay_buffer]

    A shallow embedding of [replay_buffer.py]: the buffer base class, the
    ring transition buffer, the episode buffer and its two samplers
    (uniform and hindsight), and of the method of [ddpg.py] that creates
    the buffers, followed by the properties of the storage policies, of
    the archive round trip and of hindsight relabelling.

    Modelling conventions.
    - A numpy array is the list of its entries along the leading axis.  The
      entries of an array of the ring buffer are rows ([list elem], one
      transition, its axes flattened); those of the episode buffer are
      lists of rows (one episode, indexed by time step).  [elem] stands for
      the stored [float32] scalars and is kept abstract.
    - A Python [dict] is an association list in insertion order.
    - A method is a computation in a state-and-exception monad: an exception
      leaves the state as the statements before it have made it.
    - [np.random] is a generator state; [randint] and [uniform] read it and
      advance it.  A double is the rational it stands for, and an operation
      on doubles is the exact operation followed by the rounding to the
      nearest double.
    - An assignment into an array of a buffer broadcasts the value to the
      shape of the slot, raises [ValueError] where it cannot, and casts it
      to [float32], the element type of the buffers.
    - An archive is the arrays [dump_to_file] hands to
      [np.savez_compressed] and [np.load] gives back, each with the number
      of its dimensions; file names are left out. *)

From Stdlib Require Import QArith.
From stdpp Require Import base list strings.

Local Open Scope string_scope.
Local Open Scope list_scope.
Local Open Scope nat_scope.

(** ** Python values and exceptions *)

Inductive exn : Type :=
  | AssertionError
  | KeyError
  | IndexError
  | ValueError
  | ZeroDivisionError
  | OverflowError.

Inductive result (A : Type) : Type :=
  | Ok (a : A)
  | Raise (e : exn).
Arguments Ok {A} a.
Arguments Raise {A} e.

(** A computation over a state [S]: the state survives an exception. *)
Definition M (S A : Type) : Type := S -> result A * S.

Definition ret {S A} (a : A) : M S A := fun s => (Ok a, s).
Definition raise {S A} (e : exn) : M S A := fun s => (Raise e, s).
Definition bind {S A B} (m : M S A) (f : A -> M S B) : M S B :=
  fun s => match m s with
           | (Ok a, s') => f a s'
           | (Raise e, s') => (Raise e, s')
           end.
Definition get {S} : M S S := fun s => (Ok s, s).
Definition modify {S} (f : S -> S) : M S unit := fun s => (Ok tt, f s).
Definition assert {S} (b : bool) : M S unit :=
  if b then ret tt else raise AssertionError.
Definition lift {S A} (r : result A) : M S A := fun s => (r, s).
Definition from_option {S A} (e : exn) (o : option A) : M S A :=
  match o with Some a => ret a | None => raise e end.

#[global] Instance M_ret {S} : MRet (M S) := fun A a => ret a.
#[global] Instance M_bind {S} : MBind (M S) := fun A B f m => bind m f.

(** Computations that touch no state. *)
#[global] Instance result_ret : MRet result := fun A a => Ok a.
#[global] Instance result_bind : MBind result :=
  fun A B f m => match m with Ok a => f a | Raise e => Raise e end.
Definition option_or {A} (e : exn) (o : option A) : result A :=
  match o with Some a => Ok a | None => Raise e end.

(** [for x in xs: body x] *)
Fixpoint for_each {S A} (xs : list A) (body : A -> M S unit) : M S unit :=
  match xs with
  | [] => ret tt
  | x :: xs' => body x ;; for_each xs' body
  end.

(** ** Dictionaries, in insertion order *)

Definition dict (V : Type) : Type := list (string * V).

Fixpoint dict_get {V} (k : string) (d : dict V) : option V :=
  match d with
  | [] => None
  | (k', v) :: d' => if String.eqb k k' then Some v else dict_get k d'
  end.

(** [d[k] = v]: an existing key keeps its position, a new one goes last. *)
Fixpoint dict_set {V} (k : string) (v : V) (d : dict V) : dict V :=
  match d with
  | [] => [(k, v)]
  | (k', v') :: d' =>
      if String.eqb k k' then (k', v) :: d' else (k', v') :: dict_set k v d'
  end.

Definition dict_keys {V} (d : dict V) : list string := map fst d.
Definition dict_mem {V} (k : string) (d : dict V) : bool :=
  match dict_get k d with Some _ => true | None => false end.

(** [l[i]] for a Python integer [i]: a negative index counts from the end. *)
Definition py_index {A} (l : list A) (i : Z) : option A :=
  if (0 <=? i)%Z then l !! Z.to_nat i
  else if (0 <=? Z.of_nat (length l) + i)%Z
       then l !! Z.to_nat (Z.of_nat (length l) + i)
       else None.

(** [s.startswith(p)] *)
Fixpoint startswith (p s : string) : bool :=
  match p, s with
  | EmptyString, _ => true
  | String a p', String b s' => if Ascii.eqb a b then startswith p' s' else false
  | String _ _, EmptyString => false
  end.

(** [s.replace(p, empty)] for a non-empty [p]: every occurrence of [p], found
    from the left and without overlap, is dropped.  [skip] counts the
    characters of a match that are still to be dropped. *)
Fixpoint remove_all_from (p : string) (skip : nat) (s : string) : string :=
  match s with
  | EmptyString => EmptyString
  | String c s' =>
      match skip with
      | S n => remove_all_from p n s'
      | O => if startswith p s
             then remove_all_from p (String.length p - 1) s'
             else String c (remove_all_from p 0 s')
      end
  end.
Definition str_remove (p s : string) : string := remove_all_from p 0 s.

(** ** Array indexing *)

(** The value [_get_storage_idx] returns: an index array, or the bare index
    [idx[0]] when a single slot is asked for. *)
Inductive index : Type :=
  | IScalar (i : nat)
  | IArray (l : list nat).

(** The slots an index names. *)
Definition index_slots (ix : index) : list nat :=
  match ix with
  | IScalar i => [i]
  | IArray l => l
  end.

(** [np.broadcast_to] along one axis: an axis of length 1 is stretched to
    the length asked for, any other length has to be that length. *)
Definition broadcast_axis {A} (n : nat) (l : list A) : result (list A) :=
  if length l =? n then Ok l
  else match l with
       | [x] => Ok (replicate n x)
       | _ => Raise ValueError
       end.

Section Arrays.
Context {item : Type}.
(** [assign old new]: the entry a slot holds after [new] is assigned to
    it, where the slot held [old]: [new] in the shape of [old] and in the
    element type of the array; [ValueError] where [new] cannot be
    broadcast to that shape. *)
Context (assign : item -> item -> result item).

(** [a[l] = v] for an index array [l]: entry by entry, a repeated index
    keeps the last value. *)
Fixpoint scatter (a : list item) (l : list nat) (v : list item) : list item :=
  match l, v with
  | i :: l', x :: v' => scatter (<[i := x]> a) l' v'
  | _, _ => a
  end.

(** The entries [a[l] = v] stores: [v[j]] as it is assigned to the slot
    [l[j]]. *)
Fixpoint assign_all (a : list item) (l : list nat) (v : list item)
  : result (list item) :=
  match l, v with
  | i :: l', x :: v' =>
      match a !! i with
      | None => Raise IndexError
      | Some old =>
          match assign old x with
          | Raise e => Raise e
          | Ok x' =>
              match assign_all a l' v' with
              | Raise e => Raise e
              | Ok xs => Ok (x' :: xs)
              end
          end
      end
  | _, _ => Ok []
  end.

(** [a[ix] = v] as [store_episode] uses it: [v] has one entry per index
    ([v] of leading dimension 1 is written to the slot of a bare index).
    An index outside the array is an [IndexError]; a wrong number of
    entries, or an entry that cannot be broadcast to the shape of its slot,
    a [ValueError]; in these cases nothing is written. *)
Definition setitem (a : list item) (ix : index) (v : list item)
  : result (list item) :=
  if forallb (fun i => i <? length a) (index_slots ix) then
    if length (index_slots ix) =? length v then
      match assign_all a (index_slots ix) v with
      | Raise e => Raise e
      | Ok v' => Ok (scatter a (index_slots ix) v')
      end
    else Raise ValueError
  else Raise IndexError.

(** [a[l]] for an index array [l] (a copy). *)
Fixpoint gather (a : list item) (l : list nat) : result (list item) :=
  match l with
  | [] => Ok []
  | i :: l' =>
      match a !! i, gather a l' with
      | Some x, Ok xs => Ok (x :: xs)
      | None, _ => Raise IndexError
      | _, Raise e => Raise e
      end
  end.
End Arrays.

(** ** The generator [np.random] *)

(** The generator yields the raw values [stream pos], [stream (pos+1)], ... *)
Record np_random : Type := mkRandom { stream : nat -> N; pos : nat }.

Definition raw_draws (g : np_random) (n : nat) : list N :=
  map (fun i => stream g (pos g + i)) (seq 0 n).
Definition advance (n : nat) (g : np_random) : np_random :=
  {| stream := stream g; pos := pos g + n |}.

(** [np.random.randint(low, high, n)]: [n] integers of [[low, high)]. *)
Definition randint_values (low high n : nat) (g : np_random) : list nat :=
  map (fun r => low + N.to_nat (r mod N.of_nat (high - low))%N) (raw_draws g n).
Definition randint (low high n : nat) : M np_random (list nat) :=
  if low <? high then fun g => (Ok (randint_values low high n g), advance n g)
  else raise ValueError.

(** [np.random.uniform(size=n)]: [n] doubles [m / 2^53] with [m < 2^53]. *)
Definition two53 : positive := 9007199254740992.
Definition unit_interval (r : N) : Q :=
  Qmake (Z.of_N r mod Zpos two53) two53.
Definition uniform_values (n : nat) (g : np_random) : list Q :=
  map unit_interval (raw_draws g n).
Definition uniform (n : nat) : M np_random (list Q) :=
  fun g => (Ok (uniform_values n g), advance n g).

(** [x.astype(int)]: truncation towards zero. *)
Definition astype_int (q : Q) : Z := Z.quot (Qnum q) (Zpos (Qden q)).

(** ** Doubles and the scalars of the arrays *)

(** The integer nearest to [num / den], for [0 <= num] and [0 < den]; a tie
    goes to the even one. *)
Definition round_half_even (num den : Z) : Z :=
  let q := (num / den)%Z in
  let r := (num mod den)%Z in
  if (2 * r <? den)%Z then q
  else if (den <? 2 * r)%Z then (q + 1)%Z
  else if Z.even q then q else (q + 1)%Z.

(** The scaling of [a / d] to a significand of 53 bits: two powers of two
    [(up, dn)] with [2^52 <= (a * up) / (d * dn) < 2^53]. *)
Definition scaling (a d : Z) : Z * Z :=
  let k := (52 - (Z.log2 a - Z.log2 d))%Z in
  let up := (2 ^ Z.max 0 k)%Z in
  let dn := (2 ^ Z.max 0 (- k))%Z in
  (if (a * up <? 2 ^ 52 * (d * dn))%Z then (2 * up)%Z else up, dn).

(** The double nearest to the rational [x], a tie going to the even
    significand: what IEEE 754 arithmetic returns for an operation whose
    exact result is [x], and what the conversion of an integer [x] to a
    double gives.  [x] is scaled by a power of two to a significand of 53
    bits, which is rounded to an integer.  Overflow and the subnormal
    range are left out. *)
Definition round_double (x : Q) : Q :=
  let a := Z.abs (Qnum x) in
  let d := Zpos (Qden x) in
  if (a =? 0)%Z then 0%Q
  else
    let '(up, dn) := scaling a d in
    Qmake (Z.sgn (Qnum x) * (round_half_even (a * up) (d * dn) * dn))
          (Z.to_pos up).

(** The scalars of the arrays.  [float32 x] is [x] cast to [np.float32],
    the element type of the arrays of a buffer. *)
Class Scalar (elem : Type) : Type := float32 : elem -> elem.

(** The cast of an integer: it keeps 24 significant bits, a tie going to
    the even significand.  Overflow is left out. *)
Definition float32_Z (z : Z) : Z :=
  let a := Z.abs z in
  if (a <? 2 ^ 24)%Z then z
  else
    let e := (Z.log2 a - 23)%Z in
    (Z.sgn z * (round_half_even a (2 ^ e) * 2 ^ e))%Z.
#[global] Instance Z_scalar : Scalar Z := float32_Z.

(** [slot[...] = new] for a row of a [float32] array. *)
Definition assign_row {elem} `{!Scalar elem} (old new : list elem)
  : result (list elem) :=
  match broadcast_axis (length old) new with
  | Raise e => Raise e
  | Ok r => Ok (map float32 r)
  end.

(** The same for an episode, row by row once the time axis agrees. *)
Fixpoint assign_steps {elem} `{!Scalar elem} (old new : list (list elem))
  : result (list (list elem)) :=
  match old, new with
  | o :: old', r :: new' =>
      match assign_row o r with
      | Raise e => Raise e
      | Ok r' =>
          match assign_steps old' new' with
          | Raise e => Raise e
          | Ok rs => Ok (r' :: rs)
          end
      end
  | _, _ => Ok []
  end.
Definition assign_episode {elem} `{!Scalar elem} (old new : list (list elem))
  : result (list (list elem)) :=
  match broadcast_axis (length old) new with
  | Raise e => Raise e
  | Ok steps => assign_steps old steps
  end.

(** An archive as [np.load] reads it: the arrays by name, the leading axis
    as a list and the trailing axes flattened, and the number of dimensions
    of each array. *)
Record npz (item : Type) : Type := mk_npz {
  arrays :> list (string * list item);
  ndim : string -> nat
}.
Arguments mk_npz {item} arrays ndim.
Arguments arrays {item} n.
Arguments ndim {item} n key.

(** ** The process: an object and the generator *)

Record world (B : Type) : Type := mkWorld { self : B; np : np_random }.
Arguments mkWorld {B} self np.
Arguments self {B} w.
Arguments np {B} w.

Definition on_self {B} (f : B -> B) : M (world B) unit :=
  modify (fun w => mkWorld (f (self w)) (np w)).
Definition with_random {B A} (m : M np_random A) : M (world B) A :=
  fun w => let (r, g) := m (np w) in (r, mkWorld (self w) g).

(** ** class ReplayBufferBase *)

Module ReplayBufferBase.
Section Base.
Context {item : Type}.

Record t : Type := mk {
  buffer_shapes : dict (list nat);
  size : nat;
  current_size : nat;
  buffers : dict (list item)
}.

Definition set_current_size (n : nat) (b : t) : t :=
  mk (buffer_shapes b) (size b) n (buffers b).
Definition set_buffers (d : dict (list item)) (b : t) : t :=
  mk (buffer_shapes b) (size b) (current_size b) d.
(** [self.buffers[key] = a] *)
Definition set_buffer (key : string) (a : list item) (b : t) : t :=
  set_buffers (dict_set key a (buffers b)) b.

Definition batch_sizes (episode_batch : dict (list item)) : list nat :=
  map (fun kv => length kv.2) episode_batch.

(** A subclass: its state holds the base fields, and it supplies the
    index-allocation policy and the arrays, [np.empty(..., dtype=np.float32)]
    of entries of type [item]: [assign old new] is the entry a slot of
    them holds after [new] is assigned to it, where it held [old]. *)
Class Subclass (B : Type) : Type := {
  base : B -> t;
  with_base : t -> B -> B;
  _get_storage_idx : nat -> M (world B) index;
  assign : item -> item -> result item
}.

Definition __init__ (buffer_shapes : dict (list nat)) (size : nat)
    (buffers : dict (list item)) : t :=
  mk buffer_shapes size 0 buffers.

(** What [dump_to_file] hands to [np.savez_compressed]: the valid prefix
    of every array; nothing is written for an empty buffer. *)
Definition dump_to_file (b : t) : option (dict (list item)) :=
  if current_size b =? 0 then None
  else Some (map (fun kv => (kv.1, take (current_size b) kv.2)) (buffers b)).

Definition store_episode {B} `{Subclass B} (episode_batch : dict (list item))
  : M (world B) unit :=
  let batch_sizes := batch_sizes episode_batch in
  batch_size ← from_option IndexError (head batch_sizes);
  assert (forallb (fun n => n =? batch_size) batch_sizes);;
  idxs ← _get_storage_idx batch_size;
  w ← get;
  for_each (dict_keys (buffers (base (self w)))) (fun key =>
    v ← from_option KeyError (dict_get key episode_batch);
    w ← get;
    a ← from_option KeyError (dict_get key (buffers (base (self w))));
    a' ← lift (setitem assign a idxs v);
    on_self (fun s => with_base (set_buffer key a' (base s)) s));;
  on_self (fun s =>
    with_base (set_current_size
                 (Nat.min (size (base s)) (current_size (base s) + batch_size))
                 (base s)) s).

Definition full (b : t) : bool := current_size b =? size b.
Definition get_current_size (b : t) : nat := current_size b.
End Base.
Arguments t item : clear implicits.
Arguments Subclass item B : clear implicits.
End ReplayBufferBase.

Import ReplayBufferBase (buffer_shapes, size, current_size, buffers,
  set_buffers, set_buffer, set_current_size, batch_sizes,
  base, with_base, _get_storage_idx, assign, store_episode, dump_to_file).

(** The archive [np.savez_compressed] writes for the arrays [dump_to_file]
    hands to it and [np.load] reads back: every array has the dimensions
    it was allocated with, one more than its shape in the schema. *)
Definition np_savez {item} (buffer_shapes : dict (list nat))
    (arrays : dict (list item)) : npz item :=
  mk_npz arrays
    (fun key => match dict_get key buffer_shapes with
                | Some shape => S (length shape)
                | None => 0
                end).

(** [np.empty((size,) + shape)] for every field: the entries have the shape
    of the schema, [entry shape key i] for slot [i] of field [key], and
    hold whatever happens to be there. *)
Definition np_empty {item} (entry : list nat -> string -> nat -> item)
    (size : nat) (buffer_shapes : dict (list nat)) : dict (list item) :=
  map (fun ks => (ks.1, map (entry ks.2 ks.1) (seq 0 size))) buffer_shapes.

(** The number of scalars of an array of shape [shape]. *)
Definition np_prod (shape : list nat) : nat := foldr Nat.mul 1 shape.

(** An entry of shape [shape] as a row, its axes flattened; [uninit j] is
    the scalar at position [j]. *)
Definition empty_row {elem} (shape : list nat) (uninit : nat -> elem)
  : list elem :=
  map uninit (seq 0 (np_prod shape)).

(** An entry of shape [shape] as an episode: its first axis is the time
    step, the others are flattened. *)
Definition empty_episode {elem} (shape : list nat) (uninit : nat -> nat -> elem)
  : list (list elem) :=
  match shape with
  | [] => []
  | steps :: shape' => map (fun t => empty_row shape' (uninit t)) (seq 0 steps)
  end.

(** [{key: f(value) for key, value in d.items()}] for an [f] that can raise *)
Fixpoint dict_traverse {V W} (f : V -> result W) (d : dict V) : result (dict W) :=
  match d with
  | [] => Ok []
  | (k, v) :: d' =>
      match f v with
      | Raise e => Raise e
      | Ok w =>
          match dict_traverse f d' with
          | Ok r => Ok ((k, w) :: r)
          | Raise e => Raise e
          end
      end
  end.

(** [a.reshape(batch_size, *a.shape[1:])] on an array that already has its
    batch axis first: the array itself, if the sizes agree. *)
Definition reshape_batch {A} (batch_size : nat) (a : list A) : result (list A) :=
  if length a =? batch_size then Ok a else Raise ValueError.

(** ** class RingReplayBuffer *)

Module RingReplayBuffer.
Section Ring.
Context {elem : Type} `{!Scalar elem}.
(** One transition of one field, the trailing axes flattened. *)
Abbreviation row := (list elem).
(** [x != 0] on the stored scalars, as [np.nonzero] tests it. *)
Context (is_nonzero : elem -> bool).

Record t : Type := mk { ring_base : ReplayBufferBase.t row; pointer : nat }.

(** [uninit key i j] is what the fresh array of field [key] holds in slot
    [i] at position [j]. *)
Definition __init__ (uninit : string -> nat -> nat -> elem)
    (buffer_shapes : dict (list nat)) (size_in_transitions : nat) : t :=
  mk (ReplayBufferBase.__init__ buffer_shapes size_in_transitions
        (np_empty (fun shape key i => empty_row shape (uninit key i))
           size_in_transitions buffer_shapes))
     0.

Definition set_pointer (p : nat) (b : t) : t := mk (ring_base b) p.

Definition _get_storage_idx (inc : nat) : M (world t) index :=
  w ← get;
  let size := size (ring_base (self w)) in
  let pointer := pointer (self w) in
  assert (inc <=? size);;
  assert (0 <? inc);;
  idx ← (if pointer + inc <=? size then
           on_self (set_pointer (pointer + inc));;
           mret (seq pointer inc)
         else
           let overflow := pointer + inc - size in
           let idx_a := seq pointer (size - pointer) in
           let idx_b := seq 0 overflow in
           on_self (set_pointer overflow);;
           mret (idx_a ++ idx_b));
  if inc =? 1 then i ← from_option IndexError (head idx); mret (IScalar i)
  else mret (IArray idx).

#[global] Instance subclass : ReplayBufferBase.Subclass row t := {
  ReplayBufferBase.base := ring_base;
  ReplayBufferBase.with_base := fun b r => mk b (pointer r);
  ReplayBufferBase._get_storage_idx := _get_storage_idx;
  ReplayBufferBase.assign := assign_row
}.

(** [np.nonzero(done)[0]]: the row index of every nonzero entry, in
    row-major order. *)
Fixpoint nonzero_rows (i : nat) (done : list row) : list nat :=
  match done with
  | [] => []
  | r :: done' =>
      replicate (length (filter (fun x => is_nonzero x = true) r)) i
        ++ nonzero_rows (S i) done'
  end.

(** [data_file] is the archive [np.load] reads.  The loop asserts that
    every array has two dimensions and cuts it; an assertion that fails
    leaves the buffer as it was, so the assertions are made first here. *)
Definition load_from_file (data_file : npz row) (num_demo : option Z)
  : M (world t) (dict (list row)) :=
  let episode_batch := arrays data_file in
  assert (dict_mem "done" episode_batch);;
  done ← from_option KeyError (dict_get "done" episode_batch);
  let dones := nonzero_rows 0 done in
  assert (match num_demo with
          | None => true
          | Some n => (n <=? Z.of_nat (length dones))%Z
          end);;
  last_idx ← from_option IndexError
    (py_index dones (match num_demo with
                     | Some n => (n - 1)%Z
                     | None => (-1)%Z
                     end));
  assert (forallb (fun key => ndim data_file key =? 2) (dict_keys episode_batch));;
  let episode_batch :=
    map (fun kv => (kv.1, take (last_idx + 1) kv.2)) episode_batch in
  store_episode episode_batch;;
  mret episode_batch.

(** [sample_all]: a copy of the valid prefix of every array.  The closing
    assertion compares every leading dimension with that of [u]; on a buffer
    without fields the list it tests is empty and [u] is not looked up. *)
Definition sample_all (self : t) : result (dict (list row)) :=
  if 0 <? current_size (ring_base self) then
    let transitions :=
      map (fun kv => (kv.1, take (current_size (ring_base self)) kv.2))
          (buffers (ring_base self)) in
    match transitions with
    | [] => Ok transitions
    | _ :: _ =>
        match dict_get "u" transitions with
        | None => Raise KeyError
        | Some u =>
            if forallb (fun kv => length kv.2 =? length u) transitions
            then Ok transitions
            else Raise AssertionError
        end
    end
  else Raise AssertionError.

(** [sample]: [batch_size] slots drawn among the valid ones, the same slots
    for every field. *)
Definition sample (self : t) (batch_size : nat)
  : M np_random (dict (list row)) :=
  idxs ← randint 0 (current_size (ring_base self)) batch_size;
  transitions ← lift (dict_traverse (fun a => gather a idxs)
                        (buffers (ring_base self)));
  transitions ← lift (dict_traverse (reshape_batch batch_size) transitions);
  assert (forallb (fun kv => length kv.2 =? batch_size) transitions);;
  mret transitions.

Definition _clear_buffer : M (world t) unit := on_self (set_pointer 0).
Definition clear_buffer : M (world t) unit :=
  on_self (fun s => mk (ReplayBufferBase.set_current_size 0 (ring_base s))
                       (pointer s));;
  _clear_buffer.
End Ring.
End RingReplayBuffer.

(** ** class ReplayBuffer (the episode buffer) *)

(** [a[:n]] for a Python integer or [None]. *)
Definition py_slice_to {A} (l : list A) (n : option Z) : list A :=
  match n with
  | None => l
  | Some n => if (0 <=? n)%Z then take (Z.to_nat n) l
              else take (Z.to_nat (Z.of_nat (length l) + n)) l
  end.

(** [a[es, ts]] for an array of episodes: entry [i] is step [ts[i]] of
    episode [es[i]]; the two index arrays have the same length. *)
Fixpoint gather2 {A} (a : list (list A)) (es : list nat) (ts : list Z)
  : result (list A) :=
  match es, ts with
  | e :: es', t :: ts' =>
      match a !! e with
      | None => Raise IndexError
      | Some ep =>
          match py_index ep t with
          | None => Raise IndexError
          | Some x =>
              match gather2 a es' ts' with
              | Ok xs => Ok (x :: xs)
              | Raise err => Raise err
              end
          end
      end
  | _, _ => Ok []
  end.

Module ReplayBuffer.
Section Episode.
Context {elem : Type} `{!Scalar elem}.
Abbreviation row := (list elem).
(** One episode of one field: its rows by time step. *)
Abbreviation episode := (list (list elem)).

Record t : Type := mk { ep_base : ReplayBufferBase.t episode; T : nat }.

(** [uninit key i t j] is what the fresh array of field [key] holds in
    slot [i] at step [t] and position [j]. *)
Definition __init__ (uninit : string -> nat -> nat -> nat -> elem)
    (buffer_shapes : dict (list nat)) (size_in_transitions T : nat)
  : result t :=
  if T =? 0 then Raise ZeroDivisionError
  else
    let size := size_in_transitions / T in
    Ok (mk (ReplayBufferBase.__init__ buffer_shapes size
              (np_empty (fun shape key i => empty_episode shape (uninit key i))
                 size buffer_shapes)) T).

Definition _get_storage_idx (inc : nat) : M (world t) index :=
  w ← get;
  let size := size (ep_base (self w)) in
  let current_size := current_size (ep_base (self w)) in
  assert (inc <=? size);;
  assert (0 <? inc);;
  idx ← (if current_size + inc <=? size then
           mret (seq current_size inc)
         else if current_size <? size then
           let overflow := current_size + inc - size in
           let idx_a := seq current_size (size - current_size) in
           idx_b ← with_random (randint 0 current_size overflow);
           mret (idx_a ++ idx_b)
         else
           with_random (randint 0 size inc));
  if inc =? 1 then i ← from_option IndexError (head idx); mret (IScalar i)
  else mret (IArray idx).

#[global] Instance subclass : ReplayBufferBase.Subclass episode t := {
  ReplayBufferBase.base := ep_base;
  ReplayBufferBase.with_base := fun b r => mk b (T r);
  ReplayBufferBase._get_storage_idx := _get_storage_idx;
  ReplayBufferBase.assign := assign_episode
}.

(** The loop asserts, array by array, three dimensions and [num_demo]
    episodes, and cuts the array; an assertion that fails leaves the
    buffer as it was. *)
Definition load_from_file (data_file : npz episode)
    (num_demo : option Z) : M (world t) (dict (list episode)) :=
  let episode_batch := arrays data_file in
  assert (forallb (fun kv => (ndim data_file kv.1 =? 3)
                             && match num_demo with
                                | None => true
                                | Some n => (n <=? Z.of_nat (length kv.2))%Z
                                end) episode_batch);;
  let episode_batch :=
    map (fun kv => (kv.1, py_slice_to kv.2 num_demo)) episode_batch in
  store_episode episode_batch;;
  mret episode_batch.

(** [sample_all]: the valid prefix of every array, observations and
    achieved goals split into the step and the step after it, and then the
    episode axis and the time axis merged into one axis of transitions. *)
Definition sample_all (self : t) : result (dict (list row)) :=
  if 0 <? current_size (ep_base self) then
    let buffers :=
      map (fun kv => (kv.1, take (current_size (ep_base self)) kv.2))
          (buffers (ep_base self)) in
    o ← option_or KeyError (dict_get "o" buffers);
    let buffers := dict_set "o_2" (map (drop 1) o) buffers in
    let buffers :=
      dict_set "o" (map (fun ep => py_slice_to ep (Some (-1)%Z)) o) buffers in
    let buffers :=
      match dict_get "ag" buffers with
      | Some ag =>
          dict_set "ag" (map (fun ep => py_slice_to ep (Some (-1)%Z)) ag)
            (dict_set "ag_2" (map (drop 1) ag) buffers)
      | None => buffers
      end in
    let buffers :=
      match dict_get "g" buffers with
      | Some g => dict_set "g_2" g buffers
      | None => buffers
      end in
    let transitions := map (fun kv => (kv.1, concat kv.2)) buffers in
    u ← option_or KeyError (dict_get "u" transitions);
    if forallb (fun kv => length kv.2 =? length u) transitions
    then Ok transitions
    else Raise AssertionError
  else Raise AssertionError.

(** The buffers [sample] hands to [sample_transitions]: the valid prefix
    of every array, and the derived next-step arrays. *)
Definition derived_buffers (self : t) : result (dict (list episode)) :=
  let buffers :=
    map (fun kv => (kv.1, take (current_size (ep_base self)) kv.2))
        (buffers (ep_base self)) in
  match dict_get "o" buffers with
  | None => Raise KeyError
  | Some o =>
      let buffers := dict_set "o_2" (map (drop 1) o) buffers in
      let buffers :=
        match dict_get "ag" buffers with
        | Some ag => dict_set "ag_2" (map (drop 1) ag) buffers
        | None => buffers
        end in
      let buffers :=
        match dict_get "g" buffers with
        | Some g => dict_set "g_2" g buffers
        | None => buffers
        end in
      Ok buffers
  end.

(** [sample], for the [sample_transitions] of the subclass. *)
Definition sample
    (sample_transitions :
       dict (list episode) -> nat -> M np_random (dict (list row)))
    (self : t) (batch_size : nat) : M np_random (dict (list row)) :=
  assert (0 <? current_size (ep_base self));;
  buffers ← lift (derived_buffers self);
  transitions ← sample_transitions buffers batch_size;
  assert (forallb (fun key => dict_mem key transitions)
                  (dict_keys (ReplayBufferBase.buffers (ep_base self))));;
  mret transitions.

Definition get_current_size_episode (self : t) : nat :=
  current_size (ep_base self).
Definition get_current_size_transiton (self : t) : nat :=
  current_size (ep_base self) * T self.

(** [clear_buffer] of the base class; the episode buffer does not override
    [_clear_buffer], which does nothing. *)
Definition _clear_buffer : M (world t) unit := mret tt.
Definition clear_buffer : M (world t) unit :=
  on_self (fun s => mk (ReplayBufferBase.set_current_size 0 (ep_base s)) (T s));;
  _clear_buffer.
End Episode.
End ReplayBuffer.

(** ** class UniformReplayBuffer *)

Module UniformReplayBuffer.
Section Uniform.
Context {elem : Type}.
Abbreviation row := (list elem).
Abbreviation episode := (list (list elem)).

Definition sample_transitions (self : @ReplayBuffer.t elem)
    (buffers : dict (list episode)) (batch_size : nat)
  : M np_random (dict (list row)) :=
  u ← from_option KeyError (dict_get "u" buffers);
  episode_idxs ← randint 0 (length u) batch_size;
  t_samples ← randint 0 (ReplayBuffer.T self) batch_size;
  transitions ← lift (dict_traverse
    (fun a => gather2 a episode_idxs (map Z.of_nat t_samples)) buffers);
  transitions ← lift (dict_traverse (reshape_batch batch_size) transitions);
  u' ← from_option KeyError (dict_get "u" transitions);
  assert (length u' =? batch_size);;
  mret transitions.

Definition sample (self : @ReplayBuffer.t elem) (batch_size : nat)
  : M np_random (dict (list row)) :=
  ReplayBuffer.sample (sample_transitions self) self batch_size.
End Uniform.
End UniformReplayBuffer.

(** ** class HERReplayBuffer *)

Definition Qltb (x y : Q) : bool :=
  (Qnum x * Zpos (Qden y) <? Qnum y * Zpos (Qden x))%Z.

(** [np.where(mask)[0]]: the positions that hold [True]. *)
Fixpoint where_from (i : nat) (mask : list bool) : list nat :=
  match mask with
  | [] => []
  | b :: mask' => if b then i :: where_from (S i) mask' else where_from (S i) mask'
  end.
Definition np_where (mask : list bool) : list nat := where_from 0 mask.

(** The length of the last axis of the array [buffers[key]], read off its
    first row; an array that has no row does not show it. *)
Definition last_axis {A} (key : string) (buffers : dict (list (list (list A))))
  : option nat :=
  a ← dict_get key buffers; ep ← head a; r ← head ep; Some (length r).

(** Whether rows of length [from] can be broadcast to rows of length [to];
    lengths that do not show are taken to agree. *)
Definition broadcastable (from to : option nat) : bool :=
  match from, to with
  | Some v, Some a => (v =? a) || (v =? 1)
  | _, _ => true
  end.

Module HERReplayBuffer.
Section HER.
Context {elem : Type}.
Abbreviation row := (list elem).
Abbreviation episode := (list (list elem)).
(** The scalar [-100.0]. *)
Context (minus_100 : elem).

(** [reward_fun(ag_2=..., g_2=..., info=...)], its result flattened. *)
Definition reward_function : Type :=
  list row -> list row -> dict (list row) -> list elem.

Record t : Type := mk {
  replay : @ReplayBuffer.t elem;
  future_p : Q;
  reward_fun : reward_function
}.

(** [1 - (1.0 / (1 + k))] in doubles: the integer [1 + k] is converted,
    the quotient and the difference are rounded. *)
Definition future_p_of (k : Z) : Q :=
  round_double (1 - round_double (1 / round_double (inject_Z (1 + k)))).

(** The integers that convert to a double are those below
    [2^1024 - 2^970] in absolute value: from there on the nearest double
    would be [2^1024]. *)
Definition converts_to_double (n : Z) : bool :=
  (Z.abs n <? 2 ^ 1024 - 2 ^ 970)%Z.

Definition __init__ (uninit : string -> nat -> nat -> nat -> elem)
    (buffer_shapes : dict (list nat)) (size_in_transitions T : nat)
    (k : Z) (reward_fun : reward_function) : result t :=
  match ReplayBuffer.__init__ uninit buffer_shapes size_in_transitions T with
  | Raise e => Raise e
  | Ok b =>
      if negb (converts_to_double (1 + k)) then Raise OverflowError
      else if (1 + k =? 0)%Z then Raise ZeroDivisionError
      else Ok (mk b (future_p_of k) reward_fun)
  end.

(** The records chosen for relabelling. *)
Definition her_indexes_of (future_p : Q) (coins : list Q) : list nat :=
  np_where (map (fun c => Qltb c future_p) coins).

(** [(uniform * (T - t_samples)).astype(int)]: the integers [T - t] are
    converted to doubles, the products are rounded to doubles and then
    truncated. *)
Definition future_offset_of (T : nat) (us : list Q) (t_samples : list nat)
  : list Z :=
  zip_with (fun u t =>
              astype_int
                (round_double
                   (u * round_double (inject_Z (Z.of_nat T - Z.of_nat t)))))
           us t_samples.

(** [t_samples + 1 + future_offset] *)
Definition future_t_of (t_samples : list nat) (future_offset : list Z)
  : list Z :=
  zip_with (fun t off => (Z.of_nat t + 1 + off)%Z) t_samples future_offset.

(** The [info] dictionary rebuilt from the [info_] fields, in the order of
    [transitions.items()]. *)
Definition info_of (transitions : dict (list row)) : dict (list row) :=
  foldl (fun info kv =>
           if startswith "info_" kv.1
           then dict_set (str_remove "info_" kv.1) kv.2 info
           else info)
        [] transitions.

(** [if "q" in transitions: transitions["q"][her_indexes] = -100 * ones] *)
Definition mark_q (her_indexes : list nat) (transitions : dict (list row))
  : dict (list row) :=
  match dict_get "q" transitions with
  | Some q =>
      match gather q her_indexes with
      | Ok qs =>
          dict_set "q"
            (scatter q her_indexes (map (map (fun _ => minus_100)) qs))
            transitions
      | Raise _ => transitions
      end
  | None => transitions
  end.

(** [transitions[key][her_indexes] = future_ag], both arrays of rows of
    [float32]: the rows are broadcast to the rows they replace.  [to] and
    [from] are the lengths of the last axis of the two arrays, which have
    to agree, or [from] to be 1, also where no row is assigned. *)
Definition setrows (to from : option nat) (a : list row) (l : list nat)
    (v : list row) : result (list row) :=
  if broadcastable from to then
    match assign_all (fun old new => broadcast_axis (length old) new) a l v with
    | Raise e => Raise e
    | Ok v' => Ok (scatter a l v')
    end
  else Raise ValueError.

(** Lines 292 to 323 of [sample_transitions], which draw nothing more once
    the two arrays of uniform numbers [coins] and [us] are there: relabel
    the chosen records, mark their [q], recompute the reward. *)
Definition relabel (self : t) (buffers : dict (list episode))
    (batch_size : nat) (episode_idxs t_samples : list nat) (coins us : list Q)
    (transitions : dict (list row)) : result (dict (list row)) :=
  let T := ReplayBuffer.T (replay self) in
  let her_indexes := her_indexes_of (future_p self) coins in
  let future_offset := future_offset_of T us t_samples in
  future_t ← gather (future_t_of t_samples future_offset) her_indexes;
  ag ← option_or KeyError (dict_get "ag" buffers);
  her_episodes ← gather episode_idxs her_indexes;
  future_ag ← gather2 ag her_episodes future_t;
  g ← option_or KeyError (dict_get "g" transitions);
  g ← setrows (last_axis "g" buffers) (last_axis "ag" buffers)
        g her_indexes future_ag;
  let transitions := dict_set "g" g transitions in
  g_2 ← option_or KeyError (dict_get "g_2" transitions);
  g_2 ← setrows (last_axis "g_2" buffers) (last_axis "ag" buffers)
          g_2 her_indexes future_ag;
  let transitions := dict_set "g_2" g_2 transitions in
  let transitions := mark_q her_indexes transitions in
  let info := info_of transitions in
  ag_2 ← option_or KeyError (dict_get "ag_2" transitions);
  g_2 ← option_or KeyError (dict_get "g_2" transitions);
  let r := map (fun x => [x]) (reward_fun self ag_2 g_2 info) in
  let transitions := dict_set "r" r transitions in
  transitions ← dict_traverse (reshape_batch batch_size) transitions;
  u' ← option_or KeyError (dict_get "u" transitions);
  if length u' =? batch_size then Ok transitions else Raise AssertionError.

Definition sample_transitions (self : t) (buffers : dict (list episode))
    (batch_size : nat) : M np_random (dict (list row)) :=
  let T := ReplayBuffer.T (replay self) in
  u ← from_option KeyError (dict_get "u" buffers);
  episode_idxs ← randint 0 (length u) batch_size;
  t_samples ← randint 0 T batch_size;
  transitions ← lift (dict_traverse
    (fun a => gather2 a episode_idxs (map Z.of_nat t_samples)) buffers);
  coins ← uniform batch_size;
  us ← uniform batch_size;
  lift (relabel self buffers batch_size episode_idxs t_samples coins us
          transitions).

Definition sample (self : t) (batch_size : nat)
  : M np_random (dict (list row)) :=
  ReplayBuffer.sample (sample_transitions self) (replay self) batch_size.
End HER.
End HERReplayBuffer.

(** ** class DDPG: the replay buffers it creates

    Of [ddpg.py], the method [_create_replay_buffer]: it builds the schema
    of the buffers from the dimensions of the environment and picks the
    buffer class from the replay strategy.  The dimensions are natural
    numbers. *)

Module DDPG.
Section DDPG.
Context {elem : Type}.

(** [replay_strategy]: a dictionary with a [strategy] and the keyword
    arguments [args] of the buffer.  The arguments are the ones the
    constructors declare: [k] and [reward_fun] for the hindsight buffer,
    none for the others. *)
Inductive strategy : Type :=
  | Her (k : Z) (reward_fun : @HERReplayBuffer.reward_function elem)
  | NoRelabelling
  | Unknown (name : string).

(** The attributes [_create_replay_buffer] reads. *)
Record t : Type := mk {
  input_dims : dict nat;
  dimo : nat;
  dimg : nat;
  dimu : nat;
  T : nat;
  fix_T : bool;
  buffer_size : nat;
  demo_strategy : string;
  sample_demo_buffer : bool;
  replay_strategy : option strategy
}.

(** A buffer of one of the three classes. *)
Inductive created : Type :=
  | Hindsight (b : @HERReplayBuffer.t elem)
  | Uniform (b : @ReplayBuffer.t elem)
  | Ring (b : @RingReplayBuffer.t elem).

(** The loop over [input_dims.items()]: a field for every key that starts
    with [info], of shape [lead + (val,)], or [lead] where [val] is [0]. *)
Definition info_shapes (lead : list nat) (input_dims : dict nat)
    (buffer_shapes : dict (list nat)) : dict (list nat) :=
  foldl (fun shapes kv =>
           if startswith "info" kv.1
           then dict_set kv.1 (lead ++ if 0 <? kv.2 then [kv.2] else []) shapes
           else shapes)
        buffer_shapes input_dims.

(** The dictionary [buffer_shapes] of [_create_replay_buffer]. *)
Definition buffer_shapes (self : t) : dict (list nat) :=
  if fix_T self then
    let s := dict_set "o" [T self + 1; dimo self] [] in
    let s := dict_set "u" [T self; dimu self] s in
    let s := dict_set "r" [T self; 1] s in
    let s := if dimg self =? 0 then s
             else dict_set "g" [T self; dimg self]
                    (dict_set "ag" [T self + 1; dimg self] s) in
    info_shapes [T self] (input_dims self) s
  else
    let s := dict_set "o" [dimo self] [] in
    let s := dict_set "o_2" [dimo self] s in
    let s := dict_set "u" [dimu self] s in
    let s := dict_set "r" [1] s in
    let s := if dimg self =? 0 then s
             else dict_set "g_2" [dimg self]
                    (dict_set "ag_2" [dimg self]
                       (dict_set "g" [dimg self]
                          (dict_set "ag" [dimg self] s))) in
    let s := info_shapes [] (input_dims self) s in
    dict_set "done" [1] s.

(** The attributes [replay_buffer] and [demo_buffer] as the method leaves
    them; [None] for an attribute it does not set. *)
Definition _create_replay_buffer
    (uninit_episode : string -> nat -> nat -> nat -> elem)
    (uninit_row : string -> nat -> nat -> elem) (self : t)
  : result (option created * option created) :=
  let buffer_shapes := buffer_shapes self in
  let with_demo :=
    negb (String.eqb (demo_strategy self) "none") || sample_demo_buffer self in
  match replay_strategy self with
  | None => Ok (None, None)
  | Some (Her k reward_fun) =>
      if fix_T self then
        replay_buffer ← HERReplayBuffer.__init__ uninit_episode buffer_shapes
                          (buffer_size self) (T self) k reward_fun;
        if with_demo then
          demo_buffer ← HERReplayBuffer.__init__ uninit_episode buffer_shapes
                          (buffer_size self) (T self) k reward_fun;
          Ok (Some (Hindsight replay_buffer), Some (Hindsight demo_buffer))
        else Ok (Some (Hindsight replay_buffer), None)
      else Raise AssertionError
  | Some NoRelabelling =>
      if fix_T self then
        replay_buffer ← ReplayBuffer.__init__ uninit_episode buffer_shapes
                          (buffer_size self) (T self);
        if with_demo then
          demo_buffer ← ReplayBuffer.__init__ uninit_episode buffer_shapes
                          (buffer_size self) (T self);
          Ok (Some (Uniform replay_buffer), Some (Uniform demo_buffer))
        else Ok (Some (Uniform replay_buffer), None)
      else
        let replay_buffer :=
          RingReplayBuffer.__init__ uninit_row buffer_shapes (buffer_size self) in
        if with_demo then
          let demo_buffer :=
            RingReplayBuffer.__init__ uninit_row buffer_shapes (buffer_size self) in
          Ok (Some (Ring replay_buffer), Some (Ring demo_buffer))
        else Ok (Some (Ring replay_buffer), None)
  | Some (Unknown _) => Raise AssertionError
  end.
End DDPG.
End DDPG.

(** ** The loop of [store_episode] and the contract of a subclass *)

Section StoreLoop.
Context {item : Type} (assign : item -> item -> result item).

(** The loop [for key in self.buffers.keys()] of [store_episode] on the
    dictionary of arrays alone: the arrays as the loop leaves them, and
    whether it ran to its end. *)
Fixpoint write_fields (idxs : index) (episode_batch : dict (list item))
    (keys : list string) (bufs : dict (list item))
  : result unit * dict (list item) :=
  match keys with
  | [] => (Ok tt, bufs)
  | key :: keys' =>
      match dict_get key episode_batch with
      | None => (Raise KeyError, bufs)
      | Some v =>
          match dict_get key bufs with
          | None => (Raise KeyError, bufs)
          | Some a =>
              match setitem assign a idxs v with
              | Raise e => (Raise e, bufs)
              | Ok a' => write_fields idxs episode_batch keys' (dict_set key a' bufs)
              end
          end
      end
  end.

(** An index for [inc] slots of an array of [size] slots. *)
Definition valid_index (size inc : nat) (ix : index) : Prop :=
  match ix with
  | IScalar i => inc = 1 ∧ i < size
  | IArray l => inc ≠ 1 ∧ length l = inc ∧ Forall (fun i => i < size) l
  end.

(** What the base class relies on in a subclass: the subclass state is the
    base fields and something else, and the allocation policy leaves the
    base fields alone, refuses exactly the increments its two assertions
    name, and otherwise returns [inc] slots of the arrays.  [sub_inv] is
    the invariant the subclass keeps on its own fields. *)
Class SubclassLaws (B : Type) `{!ReplayBufferBase.Subclass item B} : Type := {
  sub_inv : B → Prop;
  base_with_base b s : base (with_base b s) = b;
  with_base_base s : with_base (base s) s = s;
  with_base_with_base b b' s : with_base b (with_base b' s) = with_base b s;
  sub_inv_with_base b s :
    sub_inv s → size b = size (base s) → sub_inv (with_base b s);
  storage_idx_base inc w :
    base (self (_get_storage_idx inc w).2) = base (self w);
  storage_idx_inv inc w :
    sub_inv (self w) → sub_inv (self (_get_storage_idx inc w).2);
  storage_idx_raise inc w e w' :
    sub_inv (self w) →
    _get_storage_idx inc w = (Raise e, w') →
    w' = w ∧ e = AssertionError ∧ (inc = 0 ∨ size (base (self w)) < inc);
  storage_idx_ok inc w ix w' :
    sub_inv (self w) →
    _get_storage_idx inc w = (Ok ix, w') →
    0 < inc ≤ size (base (self w)) ∧ valid_index (size (base (self w))) inc ix
}.

(** The arrays of a buffer: one per key, each of [size] slots. *)
Definition wf_buffers (b : ReplayBufferBase.t item) : Prop :=
  NoDup (dict_keys (buffers b)) ∧
  Forall (fun kv => length kv.2 = size b) (buffers b).
End StoreLoop.

(** * Properties *)

Ltac unfold_monad :=
  unfold mbind, mret, M_bind, M_ret, bind, ret, raise, assert, from_option,
    lift, get, modify, on_self, with_random in *.

(** ** Dictionaries *)

Section DictFacts.
Context {V : Type}.
Implicit Types (d : dict V) (k : string) (v : V).

Lemma dict_get_set_eq k v d : dict_get k (dict_set k v d) = Some v.
Proof.
  induction d as [|[k' v'] d IH]; simpl.
  - by rewrite String.eqb_refl.
  - destruct (String.eqb k k') eqn:E; simpl; rewrite E; [done | exact IH].
Qed.

Lemma dict_get_set_ne k k' v d :
  k ≠ k' → dict_get k' (dict_set k v d) = dict_get k' d.
Proof.
  intros Hne. induction d as [|[k0 v0] d IH]; simpl.
  - destruct (String.eqb k' k) eqn:E; [|done].
    apply String.eqb_eq in E. congruence.
  - destruct (String.eqb k k0) eqn:E; simpl.
    + apply String.eqb_eq in E. subst k0.
      destruct (String.eqb k' k) eqn:E'; [|done].
      apply String.eqb_eq in E'. congruence.
    + by rewrite IH.
Qed.

Lemma dict_set_same k v d : dict_get k d = Some v → dict_set k v d = d.
Proof.
  induction d as [|[k' v'] d IH]; simpl; [done|].
  destruct (String.eqb k k') eqn:E.
  - intros [= ->]. done.
  - intros H. by rewrite IH.
Qed.

Lemma dict_keys_set_mem k v v0 d :
  dict_get k d = Some v0 → dict_keys (dict_set k v d) = dict_keys d.
Proof.
  induction d as [|[k' v'] d IH]; simpl; [done|].
  destruct (String.eqb k k') eqn:E; simpl; [done|].
  intros H. f_equal. by apply IH.
Qed.

Lemma dict_get_Some_keys k v d : dict_get k d = Some v → k ∈ dict_keys d.
Proof.
  induction d as [|[k' v'] d IH]; simpl; [done|].
  destruct (String.eqb k k') eqn:E.
  - apply String.eqb_eq in E. subst. intros _. left.
  - intros H. right. by apply IH.
Qed.

Lemma dict_keys_get k d : k ∈ dict_keys d → is_Some (dict_get k d).
Proof.
  induction d as [|[k' v'] d IH]; simpl.
  - intros H. inversion H.
  - intros H. destruct (String.eqb k k') eqn:E; [eauto|].
    apply IH. inversion H; subst; [|done].
    by rewrite String.eqb_refl in E.
Qed.

Lemma dict_get_elem k v d : dict_get k d = Some v → (k, v) ∈ d.
Proof.
  induction d as [|[k' v'] d IH]; simpl; [done|].
  destruct (String.eqb k k') eqn:E.
  - apply String.eqb_eq in E. subst. intros [= ->]. left.
  - intros H. right. by apply IH.
Qed.

Lemma dict_get_map {W} (f : V → W) k d :
  dict_get k (map (fun kv => (kv.1, f kv.2)) d) = f <$> dict_get k d.
Proof.
  induction d as [|[k' v'] d IH]; simpl; [done|].
  by destruct (String.eqb k k').
Qed.

Lemma dict_keys_map {W} (f : string → V → W) d :
  dict_keys (map (fun kv => (kv.1, f kv.1 kv.2)) d) = dict_keys d.
Proof. unfold dict_keys. rewrite map_map. done. Qed.
End DictFacts.

(** ** [store_episode], for any subclass *)

Lemma world_eta {B} (w : world B) : mkWorld (self w) (np w) = w.
Proof. by destruct w. Qed.

Section StoreFacts.
Context {item B : Type} `{!ReplayBufferBase.Subclass item B}
  `{!SubclassLaws B}.
Implicit Types (w : world B) (bufs : dict (list item)).

Lemma set_buffers_id (b : ReplayBufferBase.t item) : set_buffers (buffers b) b = b.
Proof. by destruct b. Qed.

(** The monadic loop is [write_fields] on the arrays of the buffer. *)
Lemma store_loop_eq idxs batch keys w :
  for_each keys (fun key =>
      v ← from_option KeyError (dict_get key batch);
      w ← get;
      a ← from_option KeyError (dict_get key (buffers (base (self w))));
      a' ← lift (setitem assign a idxs v);
      on_self (fun s => with_base (set_buffer key a' (base s)) s)) w
  = let (r, bufs) :=
      write_fields assign idxs batch keys (buffers (base (self w))) in
    (r, mkWorld (with_base (set_buffers bufs (base (self w))) (self w)) (np w)).
Proof.
  revert w. induction keys as [|key keys IH]; intros w; simpl.
  - unfold_monad. rewrite set_buffers_id, with_base_base. by rewrite world_eta.
  - unfold_monad.
    destruct (dict_get key batch) as [v|]; simpl;
      [|by rewrite set_buffers_id, with_base_base, world_eta].
    destruct (dict_get key (buffers (base (self w)))) as [a|]; simpl;
      [|by rewrite set_buffers_id, with_base_base, world_eta].
    destruct (setitem assign a idxs v) as [a'|e]; simpl;
      [|by rewrite set_buffers_id, with_base_base, world_eta].
    unfold_monad. rewrite IH. simpl. rewrite base_with_base. simpl.
    destruct (write_fields _ _ _ _ _) as [r bufs].
    rewrite with_base_with_base. done.
Qed.

(** [store_episode], statement by statement. *)
Lemma store_episode_eq batch w :
  store_episode batch w =
  match head (batch_sizes batch) with
  | None => (Raise IndexError, w)
  | Some batch_size =>
      if forallb (fun n => n =? batch_size) (batch_sizes batch) then
        match _get_storage_idx batch_size w with
        | (Raise e, w1) => (Raise e, w1)
        | (Ok idxs, w1) =>
            let b1 := base (self w1) in
            match write_fields assign idxs batch (dict_keys (buffers b1))
                    (buffers b1) with
            | (Raise e, bufs) =>
                (Raise e, mkWorld (with_base (set_buffers bufs b1) (self w1)) (np w1))
            | (Ok _, bufs) =>
                (Ok tt,
                 mkWorld (with_base
                            (set_current_size
                               (Nat.min (size b1) (current_size b1 + batch_size))
                               (set_buffers bufs b1))
                            (self w1)) (np w1))
            end
        end
      else (Raise AssertionError, w)
  end.
Proof.
  unfold store_episode.
  destruct (head (batch_sizes batch)) as [bs|] eqn:Hhd; [|done].
  change (from_option IndexError (Some bs)) with (@ret (world B) _ bs).
  unfold mbind at 1, M_bind, bind at 1, ret at 1.
  destruct (forallb _ _) eqn:Hall; [|done].
  unfold mbind at 1, M_bind, bind at 1, assert at 1, ret at 1.
  unfold mbind at 1, M_bind, bind at 1.
  destruct (_get_storage_idx bs w) as [[idxs|e] w1]; [|done].
  unfold mbind at 1, M_bind, bind at 1, get at 1.
  unfold mbind at 1, M_bind, bind at 1.
  rewrite store_loop_eq.
  destruct (write_fields _ _ _ _ _) as [[[]|e] bufs]; [|done].
  unfold on_self, modify. simpl. rewrite base_with_base, with_base_with_base.
  done.
Qed.
End StoreFacts.

(** ** Index assignment *)

Section ArrayFacts.
Context {item : Type} (assign : item → item → result item).
Implicit Types (a v : list item) (l : list nat).

Lemma length_scatter a l v : length (scatter a l v) = length a.
Proof.
  revert a v. induction l as [|i l IH]; intros a [|x v]; simpl; try done.
  by rewrite IH, length_insert.
Qed.

Lemma scatter_lookup_notin a l v i : i ∉ l → scatter a l v !! i = a !! i.
Proof.
  revert a v. induction l as [|j l IH]; intros a [|x v] Hi; simpl; try done.
  rewrite IH by (intros ?; apply Hi; by right).
  apply list_lookup_insert_ne. intros ->. apply Hi. left.
Qed.

Lemma scatter_lookup a l v j i x :
  NoDup l → l !! j = Some i → v !! j = Some x → i < length a →
  scatter a l v !! i = Some x.
Proof.
  revert a v j. induction l as [|i0 l IH]; intros a [|x0 v] j Hnd Hl Hv Hlen;
    try done.
  inversion Hnd as [|? ? Hnotin Hnd']; subst.
  destruct j as [|j]; simpl in *.
  - injection Hl as ->. injection Hv as ->.
    rewrite scatter_lookup_notin by done.
    by apply list_lookup_insert_eq.
  - apply (IH _ _ j); try done. by rewrite length_insert.
Qed.

Lemma scatter_nil a v : scatter a [] v = a.
Proof. done. Qed.

(** What [assign_all] returns: one entry per index, each the entry of [v]
    as it is assigned to its slot. *)
Lemma assign_all_length a l v v' :
  assign_all assign a l v = Ok v' → length l = length v → length v' = length v.
Proof.
  revert v v'. induction l as [|i l IH]; intros [|x v] v'; simpl; try done.
  - by intros [= <-].
  - destruct (a !! i) as [old|]; [|done].
    destruct (assign old x) as [x'|]; [|done].
    destruct (assign_all assign a l v) as [xs|] eqn:Hxs; [|done].
    intros [= <-] [= Hl]. simpl. f_equal. by apply IH.
Qed.

Lemma assign_all_lookup a l v v' j i x :
  assign_all assign a l v = Ok v' → l !! j = Some i → v !! j = Some x →
  ∃ old x', a !! i = Some old ∧ assign old x = Ok x' ∧ v' !! j = Some x'.
Proof.
  revert v v' j. induction l as [|i0 l IH]; intros [|x0 v] v' j; simpl;
    try done.
  destruct (a !! i0) as [old|] eqn:Hold; [|done].
  destruct (assign old x0) as [x'|] eqn:Hx'; [|done].
  destruct (assign_all assign a l v) as [xs|] eqn:Hxs; [|done].
  intros [= <-]. destruct j as [|j]; simpl.
  - intros [= <-] [= <-]. by exists old, x'.
  - intros Hl Hv. by apply (IH v xs j).
Qed.

Lemma assign_all_succeeds a l v :
  Forall (fun i => i < length a) l →
  (∀ old x, old ∈ a → x ∈ v → ∃ x', assign old x = Ok x') →
  ∃ v', assign_all assign a l v = Ok v'.
Proof.
  intros Hl. revert v. induction Hl as [|i l Hi Hl IH]; intros [|x v] Hall;
    simpl; eauto.
  destruct (lookup_lt_is_Some_2 a i Hi) as [old Hold]. rewrite Hold.
  destruct (Hall old x) as [x' ->].
  { by eapply list_elem_of_lookup_2. }
  { left. }
  destruct (IH v) as [xs ->]; [|eauto].
  intros old' x0 Ho Hx. apply Hall; [done|by right].
Qed.

(** An assignment that goes through. *)
Lemma setitem_inv a ix v a' :
  setitem assign a ix v = Ok a' →
  ∃ v', assign_all assign a (index_slots ix) v = Ok v' ∧
        length (index_slots ix) = length v ∧ length v' = length v ∧
        Forall (fun i => i < length a) (index_slots ix) ∧
        a' = scatter a (index_slots ix) v'.
Proof.
  unfold setitem.
  destruct (forallb _ _) eqn:Hall; [|done].
  destruct (length _ =? length v) eqn:Hlen; [|done].
  apply Nat.eqb_eq in Hlen.
  destruct (assign_all _ _ _ _) as [v'|] eqn:Hv'; [|done].
  intros [= <-]. exists v'. repeat split; try done.
  - by eapply assign_all_length.
  - apply Forall_forall. intros i Hi. apply Nat.ltb_lt.
    rewrite forallb_forall in Hall. apply Hall. by apply list_elem_of_In.
Qed.

Lemma setitem_length a ix v a' :
  setitem assign a ix v = Ok a' → length a' = length a.
Proof.
  intros (v' & _ & _ & _ & _ & ->)%setitem_inv. apply length_scatter.
Qed.

Lemma setitem_lookup_notin a ix v a' i :
  setitem assign a ix v = Ok a' → i ∉ index_slots ix → a' !! i = a !! i.
Proof.
  intros (v' & _ & _ & _ & _ & ->)%setitem_inv Hi.
  by apply scatter_lookup_notin.
Qed.

(** The assignment to one slot. *)
Lemma setitem_scalar a i x a' :
  setitem assign a (IScalar i) [x] = Ok a' →
  ∃ old x', a !! i = Some old ∧ assign old x = Ok x' ∧ a' = <[i := x']> a.
Proof.
  unfold setitem. simpl. rewrite andb_true_r.
  destruct (i <? length a); [|done]. simpl.
  destruct (a !! i) as [old|] eqn:Hold; [|done].
  destruct (assign old x) as [x'|] eqn:Hx'; [|done].
  intros [= <-]. by exists old, x'.
Qed.

(** Where every entry is assigned as its cast, the cast entries are what
    is written. *)
Lemma assign_all_cast (cast : item → item) a l v v' :
  assign_all assign a l v = Ok v' → length l = length v →
  Forall (fun old => Forall (fun x => assign old x = Ok (cast x)) v) a →
  v' = map cast v.
Proof.
  revert v v'. induction l as [|i l IH]; intros [|x v] v'; simpl; try done.
  - by intros [= <-].
  - destruct (a !! i) as [old|] eqn:Hold; [|done].
    destruct (assign old x) as [x'|] eqn:Hx'; [|done].
    destruct (assign_all assign a l v) as [xs|] eqn:Hxs; [|done].
    intros [= <-] [= Hl] Hall.
    assert (Forall (fun old => Forall (fun x => assign old x = Ok (cast x)) v) a)
      as Hall'.
    { eapply Forall_impl; [exact Hall|]. simpl. intros o Ho. by inversion Ho. }
    rewrite (IH v xs Hxs Hl Hall'). simpl. f_equal.
    rewrite Forall_forall in Hall.
    pose proof (Hall old (list_elem_of_lookup_2 _ _ _ Hold)) as Ho.
    inversion Ho; subst. congruence.
Qed.

Lemma setitem_cast (cast : item → item) a ix v a' :
  setitem assign a ix v = Ok a' →
  Forall (fun old => Forall (fun x => assign old x = Ok (cast x)) v) a →
  a' = scatter a (index_slots ix) (map cast v).
Proof.
  intros (v' & Hv' & Hl & _ & _ & ->)%setitem_inv Hall.
  by rewrite (assign_all_cast cast a _ v v' Hv' Hl Hall).
Qed.

(** Whether every entry of [v] can be assigned to every slot of [a]. *)
Definition assignable a v : Prop :=
  Forall (fun old => Forall (fun x => ∃ x', assign old x = Ok x') v) a.

(** With a valid index and one entry per slot, each of them assignable,
    the assignment goes through. *)
Lemma setitem_valid a ix v inc :
  valid_index (length a) inc ix → length v = inc → assignable a v →
  ∃ a', setitem assign a ix v = Ok a'.
Proof.
  intros Hix Hv Hass. unfold setitem.
  assert (Forall (fun i => i < length a) (index_slots ix) ∧
          length (index_slots ix) = inc) as [Hall Hlen].
  { destruct ix as [i|l]; simpl in *.
    - destruct Hix as [-> Hi]. split; [by repeat constructor|done].
    - by destruct Hix as (_ & Hl & Hall). }
  assert (forallb (fun i => i <? length a) (index_slots ix) = true) as ->.
  { apply forallb_forall. intros i Hi. apply Nat.ltb_lt.
    rewrite Forall_forall in Hall. apply Hall. by apply list_elem_of_In. }
  assert ((length (index_slots ix) =? length v) = true) as ->.
  { apply Nat.eqb_eq. congruence. }
  destruct (assign_all_succeeds a (index_slots ix) v Hall) as [v' ->]; [|eauto].
  intros old x Hold Hx. unfold assignable in Hass.
  rewrite Forall_forall in Hass. specialize (Hass old Hold).
  rewrite Forall_forall in Hass. by apply Hass.
Qed.
End ArrayFacts.

(** ** The loop over the fields *)

Section WriteFields.
Context {item : Type} (assign : item → item → result item).
Implicit Types (bufs batch : dict (list item)) (keys : list string).

Lemma write_fields_keys idxs batch keys bufs :
  dict_keys (write_fields assign idxs batch keys bufs).2 = dict_keys bufs.
Proof.
  revert bufs. induction keys as [|key keys IH]; intros bufs; simpl; [done|].
  destruct (dict_get key batch) as [v|]; [|done].
  destruct (dict_get key bufs) as [a|] eqn:Ha; [|done].
  destruct (setitem assign a idxs v) as [a'|]; [|done].
  rewrite IH. by eapply dict_keys_set_mem.
Qed.

(** A slot that is not among the indices keeps its entry, in every array,
    however far the loop gets. *)
Lemma write_fields_lookup_notin idxs batch keys bufs k i :
  i ∉ index_slots idxs →
  dict_get k (write_fields assign idxs batch keys bufs).2 ≫= (.!! i)
  = dict_get k bufs ≫= (.!! i).
Proof.
  intros Hi. revert bufs. induction keys as [|key keys IH]; intros bufs; simpl;
    [done|].
  destruct (dict_get key batch) as [v|]; [|done].
  destruct (dict_get key bufs) as [a|] eqn:Ha; [|done].
  destruct (setitem assign a idxs v) as [a'|] eqn:Hset; [|done].
  rewrite IH. destruct (decide (key = k)) as [->|Hne].
  - rewrite dict_get_set_eq, Ha. simpl. by eapply setitem_lookup_notin.
  - by rewrite dict_get_set_ne.
Qed.

Lemma write_fields_spec idxs batch keys bufs r bufs' :
  NoDup keys →
  write_fields assign idxs batch keys bufs = (r, bufs') →
  (∀ k, k ∉ keys → dict_get k bufs' = dict_get k bufs) ∧
  (r = Ok tt → ∀ k, k ∈ keys →
     ∃ a v a', dict_get k bufs = Some a ∧ dict_get k batch = Some v ∧
               setitem assign a idxs v = Ok a' ∧ dict_get k bufs' = Some a').
Proof.
  intros Hnd. revert bufs. induction Hnd as [|key keys Hnotin Hnd IH];
    intros bufs; simpl.
  - intros [= <- <-]. split; [done|]. intros _ k Hk. inversion Hk.
  - destruct (dict_get key batch) as [v|] eqn:Hv;
      [|intros [= <- <-]; split; [done|done]].
    destruct (dict_get key bufs) as [a|] eqn:Ha;
      [|intros [= <- <-]; split; [done|done]].
    destruct (setitem assign a idxs v) as [a'|] eqn:Hset;
      [|intros [= <- <-]; split; [done|done]].
    intros Hw. destruct (IH _ Hw) as [Hother Hin]. split.
    + intros k Hk. rewrite Hother by (intros ?; apply Hk; by right).
      apply dict_get_set_ne. intros ->. apply Hk. left.
    + intros -> k Hk. destruct (decide (k = key)) as [->|Hne].
      * exists a, v, a'. repeat split; try done.
        rewrite Hother by done. apply dict_get_set_eq.
      * assert (k ∈ keys) as Hk' by (inversion Hk; by subst).
        destruct (Hin eq_refl k Hk') as (a0 & v0 & a0' & H1 & H2 & H3 & H4).
        exists a0, v0, a0'. repeat split; try done.
        by rewrite dict_get_set_ne in H1.
Qed.

Lemma write_fields_succeeds idxs batch keys bufs :
  NoDup keys →
  (∀ k, k ∈ keys →
     ∃ a v a', dict_get k bufs = Some a ∧ dict_get k batch = Some v ∧
               setitem assign a idxs v = Ok a') →
  (write_fields assign idxs batch keys bufs).1 = Ok tt.
Proof.
  intros Hnd. revert bufs. induction Hnd as [|key keys Hnotin Hnd IH];
    intros bufs Hall; simpl; [done|].
  destruct (Hall key) as (a & v & a' & -> & -> & ->); [left|].
  apply IH. intros k Hk.
  destruct (Hall k) as (a0 & v0 & a0' & H1 & H2 & H3); [by right|].
  exists a0, v0, a0'. repeat split; try done.
  rewrite dict_get_set_ne; [done|]. intros ->. done.
Qed.
End WriteFields.

(** ** The two allocation policies *)

Section RingPolicy.
Context {elem : Type} `{!Scalar elem}.
Implicit Types (w : world (@RingReplayBuffer.t elem)).

(** The ring policy, case by case. *)
Lemma ring_storage_idx_eq inc w :
  RingReplayBuffer._get_storage_idx inc w =
  let size := size (RingReplayBuffer.ring_base (self w)) in
  let p := RingReplayBuffer.pointer (self w) in
  if (inc <=? size) && (0 <? inc) then
    if p + inc <=? size then
      (Ok (if inc =? 1 then IScalar p else IArray (seq p inc)),
       mkWorld (RingReplayBuffer.set_pointer (p + inc) (self w)) (np w))
    else
      (Ok (if inc =? 1 then IScalar (if p <? size then p else 0)
           else IArray (seq p (size - p) ++ seq 0 (p + inc - size))),
       mkWorld (RingReplayBuffer.set_pointer (p + inc - size) (self w)) (np w))
  else (Raise AssertionError, w).
Proof.
  unfold RingReplayBuffer._get_storage_idx. unfold_monad. simpl.
  destruct (inc <=? _) eqn:E1; simpl; [|done].
  destruct (0 <? inc) eqn:E2; simpl; [|done].
  destruct (_ + inc <=? _) eqn:E3; simpl.
  - destruct (inc =? 1) eqn:E4; simpl; [|done].
    apply Nat.eqb_eq in E4. subst inc. done.
  - destruct (inc =? 1) eqn:E4; simpl; [|done].
    apply Nat.eqb_eq in E4. subst inc.
    apply Nat.leb_gt in E3.
    destruct (RingReplayBuffer.pointer (self w)
              <? size (RingReplayBuffer.ring_base (self w))) eqn:E5.
    + apply Nat.ltb_lt in E5. lia.
    + apply Nat.ltb_ge in E5.
      replace (size (RingReplayBuffer.ring_base (self w))
               - RingReplayBuffer.pointer (self w)) with 0 by lia.
      simpl.
      destruct (RingReplayBuffer.pointer (self w) + 1
                - size (RingReplayBuffer.ring_base (self w))) eqn:E6; [lia|].
      done.
Qed.

#[global] Program Instance ring_laws
  : SubclassLaws (@RingReplayBuffer.t elem) := {
  sub_inv s := RingReplayBuffer.pointer s ≤ size (RingReplayBuffer.ring_base s)
}.
Next Obligation. done. Qed.
Next Obligation. by intros []. Qed.
Next Obligation. done. Qed.
Next Obligation. simpl. intros b s H ->. done. Qed.
Next Obligation.
  intros inc w. simpl.
  change (ReplayBufferBase._get_storage_idx inc w)
    with (RingReplayBuffer._get_storage_idx inc w).
  rewrite ring_storage_idx_eq. simpl.
  destruct (_ && _); [|done]. by destruct (_ <=? _).
Qed.
Next Obligation.
  intros inc w. simpl.
  change (ReplayBufferBase._get_storage_idx inc w)
    with (RingReplayBuffer._get_storage_idx inc w).
  rewrite ring_storage_idx_eq. simpl. intros Hp.
  destruct (_ && _) eqn:E; [|done].
  apply andb_prop in E as [E1%Nat.leb_le E2%Nat.ltb_lt].
  destruct (_ <=? _) eqn:E3; simpl.
  - by apply Nat.leb_le in E3.
  - apply Nat.leb_gt in E3. lia.
Qed.
Next Obligation.
  intros inc w e w'. simpl.
  change (ReplayBufferBase._get_storage_idx inc w)
    with (RingReplayBuffer._get_storage_idx inc w).
  rewrite ring_storage_idx_eq. simpl. intros Hp.
  destruct (_ && _) eqn:E.
  - destruct (_ + inc <=? _); intros [=].
  - intros [= <- <-]. repeat split.
    apply andb_false_iff in E as [E%Nat.leb_gt|E%Nat.ltb_ge]; lia.
Qed.
Next Obligation.
  intros inc w ix w'. simpl.
  change (ReplayBufferBase._get_storage_idx inc w)
    with (RingReplayBuffer._get_storage_idx inc w).
  rewrite ring_storage_idx_eq. simpl. intros Hp.
  destruct (_ && _) eqn:E; [|done].
  apply andb_prop in E as [E1%Nat.leb_le E2%Nat.ltb_lt].
  destruct (_ <=? _) eqn:E3; intros [= <- <-].
  - apply Nat.leb_le in E3. split; [lia|].
    destruct (inc =? 1) eqn:E4; simpl.
    + apply Nat.eqb_eq in E4. lia.
    + apply Nat.eqb_neq in E4. repeat split; [done|apply length_seq|].
      apply Forall_forall. intros i Hi%elem_of_seq. lia.
  - apply Nat.leb_gt in E3. split; [lia|].
    destruct (inc =? 1) eqn:E4; simpl.
    + apply Nat.eqb_eq in E4. split; [done|].
      destruct (_ <? _) eqn:E5; [by apply Nat.ltb_lt in E5|lia].
    + apply Nat.eqb_neq in E4. repeat split; [done| |].
      * rewrite length_app, !length_seq. lia.
      * apply Forall_app. split; apply Forall_forall;
          intros i Hi%elem_of_seq; lia.
Qed.
End RingPolicy.

Lemma length_raw_draws g n : length (raw_draws g n) = n.
Proof. unfold raw_draws. by rewrite length_map, length_seq. Qed.

Lemma length_randint_values low high n g :
  length (randint_values low high n g) = n.
Proof. unfold randint_values. by rewrite length_map, length_raw_draws. Qed.

Lemma randint_values_range low high n g :
  low < high → Forall (fun i => low ≤ i < high) (randint_values low high n g).
Proof.
  intros Hlt. unfold randint_values. apply Forall_forall.
  intros i (r & -> & _)%list_elem_of_fmap.
  pose proof (N.mod_lt r (N.of_nat (high - low)) ltac:(lia)) as Hr.
  revert Hr. generalize (r mod N.of_nat (high - low))%N. intros m Hm. lia.
Qed.

Lemma randint_ok low high n g l g' :
  randint low high n g = (Ok l, g') →
  low < high ∧ l = randint_values low high n g ∧ g' = advance n g.
Proof.
  unfold randint. destruct (low <? high) eqn:E; [|done].
  apply Nat.ltb_lt in E. by intros [= <- <-].
Qed.

Section EpisodePolicy.
Context {elem : Type} `{!Scalar elem}.
Implicit Types (w : world (@ReplayBuffer.t elem)).

(** The episode policy, case by case: the next slots in sequence while they
    last, then slots drawn among the episodes already stored. *)
Lemma episode_storage_idx_eq inc w :
  ReplayBuffer._get_storage_idx inc w =
  let size := size (ReplayBuffer.ep_base (self w)) in
  let cs := current_size (ReplayBuffer.ep_base (self w)) in
  if (inc <=? size) && (0 <? inc) then
    if cs + inc <=? size then
      (Ok (if inc =? 1 then IScalar cs else IArray (seq cs inc)), w)
    else if cs <? size then
      (Ok (IArray (seq cs (size - cs)
                   ++ randint_values 0 cs (cs + inc - size) (np w))),
       mkWorld (self w) (advance (cs + inc - size) (np w)))
    else
      (Ok (if inc =? 1 then IScalar (hd 0 (randint_values 0 size inc (np w)))
           else IArray (randint_values 0 size inc (np w))),
       mkWorld (self w) (advance inc (np w)))
  else (Raise AssertionError, w).
Proof.
  unfold ReplayBuffer._get_storage_idx. unfold_monad. simpl.
  set (sz := size (ReplayBuffer.ep_base (self w))).
  set (cs := current_size (ReplayBuffer.ep_base (self w))).
  destruct (inc <=? sz) eqn:E1; simpl; [|done].
  destruct (0 <? inc) eqn:E2; simpl; [|done].
  apply Nat.leb_le in E1. apply Nat.ltb_lt in E2.
  destruct (cs + inc <=? sz) eqn:E3; simpl.
  - destruct (inc =? 1) eqn:E4; simpl; [|done].
    apply Nat.eqb_eq in E4. subst inc. done.
  - apply Nat.leb_gt in E3. destruct (cs <? sz) eqn:E5; simpl.
    + apply Nat.ltb_lt in E5. unfold randint.
      assert ((0 <? cs) = true) as -> by (apply Nat.ltb_lt; lia). simpl.
      assert ((inc =? 1) = false) as -> by (apply Nat.eqb_neq; lia). done.
    + unfold randint.
      assert ((0 <? sz) = true) as -> by (apply Nat.ltb_lt; lia). simpl.
      destruct (inc =? 1) eqn:E4; simpl; [|done].
      apply Nat.eqb_eq in E4. subst inc. done.
Qed.

Ltac episode_policy_cases w inc :=
  change (ReplayBufferBase._get_storage_idx inc w)
    with (ReplayBuffer._get_storage_idx inc w);
  rewrite episode_storage_idx_eq; cbv zeta;
  set (sz := size (ReplayBuffer.ep_base (self w)));
  set (cs := current_size (ReplayBuffer.ep_base (self w)));
  destruct ((inc <=? sz) && (0 <? inc)) eqn:E;
  [ apply andb_prop in E as [E1%Nat.leb_le E2%Nat.ltb_lt];
    destruct (cs + inc <=? sz) eqn:E3;
    [ apply Nat.leb_le in E3
    | apply Nat.leb_gt in E3; destruct (cs <? sz) eqn:E5;
      [ apply Nat.ltb_lt in E5 | apply Nat.ltb_ge in E5 ] ]
  | apply andb_false_iff in E as [E%Nat.leb_gt|E%Nat.ltb_ge] ].

#[global] Program Instance episode_laws
  : SubclassLaws (@ReplayBuffer.t elem) := {
  sub_inv s := True
}.
Next Obligation. done. Qed.
Next Obligation. by intros []. Qed.
Next Obligation. done. Qed.
Next Obligation. done. Qed.
Next Obligation. intros inc w. episode_policy_cases w inc; done. Qed.
Next Obligation. done. Qed.
Next Obligation.
  intros inc w e w' _. episode_policy_cases w inc; intros [= <- <-].
  - subst sz. repeat split. simpl. lia.
  - subst sz. repeat split. simpl. lia.
Qed.
Next Obligation.
  intros inc w ix w' _. episode_policy_cases w inc; intros [= <- <-];
    change (size (ReplayBufferBase.base (self w))) with sz.
  - split; [lia|]. destruct (inc =? 1) eqn:E4; simpl.
    + apply Nat.eqb_eq in E4. lia.
    + apply Nat.eqb_neq in E4. repeat split; [done|apply length_seq|].
      apply Forall_forall. intros i Hi%elem_of_seq. lia.
  - split; [lia|]. simpl. repeat split; [lia| |].
    + rewrite length_app, length_seq, length_randint_values. lia.
    + apply Forall_app. split.
      * apply Forall_forall. intros i Hi%elem_of_seq. lia.
      * eapply Forall_impl; [apply randint_values_range; lia|].
        simpl. intros; lia.
  - split; [lia|].
    pose proof (randint_values_range 0 sz inc (np w) ltac:(lia)) as Hr.
    pose proof (length_randint_values 0 sz inc (np w)) as Hl.
    destruct (inc =? 1) eqn:E4; simpl.
    + apply Nat.eqb_eq in E4. split; [done|].
      destruct (randint_values 0 sz inc (np w)) as [|i l]; [simpl in Hl; lia|].
      simpl. inversion Hr; subst. lia.
    + apply Nat.eqb_neq in E4. repeat split; [done|done|].
      eapply Forall_impl; [exact Hr|]. simpl. intros; lia.
Qed.
End EpisodePolicy.

(** ** Concrete buffers, for the examples *)

(** A generator whose raw values are [3, 10, 17, ...]. *)
Definition g0 : np_random := mkRandom (fun i => N.of_nat i * 7 + 3)%N 0.

(** A ring buffer of three transitions over the fields [u] and [done]. *)
Definition ring3 : @RingReplayBuffer.t Z :=
  RingReplayBuffer.__init__ (fun _ _ _ => 0%Z) [("u", [1]); ("done", [1])] 3.

(** One transition with action [x] and done flag [d]. *)
Definition transition (x d : Z) : dict (list (list Z)) :=
  [("u", [[x]]); ("done", [[d]])].

(** The object a computation leaves behind. *)
Definition after {B A} (m : M (world B) A) (w : world B) : world B := (m w).2.

(** ** Fill level *)

(** C8. A store that goes through, on any subclass, leaves
    [current_size = min(size, current_size_before + batch_size)], where
    [batch_size] is the leading dimension shared by the fields of the batch;
    the capacity is unchanged and [current_size] does not exceed it. *)
Theorem store_episode_current_size {item B : Type}
    `{!ReplayBufferBase.Subclass item B} `{!SubclassLaws B}
    (batch : dict (list item)) (w w' : world B) :
  store_episode batch w = (Ok tt, w') →
  ∃ batch_size,
    head (batch_sizes batch) = Some batch_size ∧
    Forall (fun kv => length kv.2 = batch_size) batch ∧
    size (base (self w')) = size (base (self w)) ∧
    current_size (base (self w'))
    = Nat.min (size (base (self w))) (current_size (base (self w)) + batch_size) ∧
    current_size (base (self w')) ≤ size (base (self w')).
Proof.
  rewrite store_episode_eq.
  destruct (head (batch_sizes batch)) as [bs|] eqn:Hhd; [|done].
  destruct (forallb _ _) eqn:Hall; [|done].
  pose proof (storage_idx_base bs w) as Hbase.
  destruct (_get_storage_idx bs w) as [[idxs|e] w1]; [|done].
  simpl in Hbase. cbv zeta.
  destruct (write_fields _ _ _ _ _) as [[[]|e] bufs]; [|done].
  intros [= <-]. simpl. rewrite base_with_base, Hbase. simpl.
  exists bs. split; [done|]. split; [|split; [done|split; [done|lia]]].
  apply Forall_forall. intros kv Hkv.
  rewrite forallb_forall in Hall.
  apply Nat.eqb_eq, Hall. unfold batch_sizes.
  apply in_map_iff. exists kv. split; [done|]. by apply list_elem_of_In.
Qed.

Lemma store_episode_current_size_witness :
  ∃ batch_size,
    head (batch_sizes (transition 5 0)) = Some batch_size ∧
    Forall (fun kv => length kv.2 = batch_size) (transition 5 0) ∧
    size (base (self (after (store_episode (transition 5 0)) (mkWorld ring3 g0))))
    = size (base ring3) ∧
    current_size
      (base (self (after (store_episode (transition 5 0)) (mkWorld ring3 g0))))
    = Nat.min (size (base ring3)) (current_size (base ring3) + batch_size) ∧
    current_size
      (base (self (after (store_episode (transition 5 0)) (mkWorld ring3 g0))))
    ≤ size (base (self (after (store_episode (transition 5 0)) (mkWorld ring3 g0)))).
Proof.
  apply (store_episode_current_size (transition 5 0) (mkWorld ring3 g0)).
  reflexivity.
Defined.

(** ** The episode buffer keeps what it holds while there is room *)

(** An episode buffer of two episodes of one step, over the field [u]. *)
Definition episodes2 : @ReplayBuffer.t Z :=
  ReplayBuffer.mk
    (ReplayBufferBase.mk [("u", [1; 1])] 2 0 [("u", [[[0%Z]]; [[0%Z]]])]) 1.

(** A batch of one-step episodes, one per action. *)
Definition episodes_of (us : list Z) : dict (list (list (list Z))) :=
  [("u", map (fun x => [[x]]) us)].

Lemma episodes2_init :
  ReplayBuffer.__init__ (fun _ _ _ _ => 0%Z) [("u", [1; 1])] 2 1 = Ok episodes2.
Proof. reflexivity. Qed.

(** C3, as stated, fails: with one episode stored in a buffer of two, a
    batch of two episodes goes to slot 1 and to a slot drawn among the
    stored ones, which is slot 0. *)
Lemma episode_store_overwrites_before_full :
  ¬ (∀ (w w' : world (@ReplayBuffer.t Z)) batch,
       current_size (base (self w)) < size (base (self w)) →
       store_episode batch w = (Ok tt, w') →
       ∀ key i, i < current_size (base (self w)) →
         dict_get key (buffers (base (self w'))) ≫= (.!! i)
         = dict_get key (buffers (base (self w))) ≫= (.!! i)).
Proof.
  intros H.
  pose (w1 := after (store_episode (episodes_of [1%Z])) (mkWorld episodes2 g0)).
  specialize (H w1 (after (store_episode (episodes_of [2%Z; 3%Z])) w1)
                (episodes_of [2%Z; 3%Z])).
  specialize (H ltac:(vm_compute; lia) eq_refl "u" 0 ltac:(vm_compute; lia)).
  vm_compute in H. discriminate H.
Qed.

(** C3, amended. As long as the batch fits in the free slots
    ([current_size + batch_size <= size]), a store that goes through writes
    the slots [current_size .. current_size + batch_size - 1] only: every
    other slot of every field keeps its entry. *)
Theorem episode_store_keeps_stored {elem : Type} `{!Scalar elem}
    (batch : dict (list (list (list elem))))
    (w w' : world (@ReplayBuffer.t elem)) (batch_size : nat) :
  store_episode batch w = (Ok tt, w') →
  head (batch_sizes batch) = Some batch_size →
  current_size (base (self w)) + batch_size ≤ size (base (self w)) →
  ∀ key i,
    ¬ (current_size (base (self w)) ≤ i
       < current_size (base (self w)) + batch_size) →
    dict_get key (buffers (base (self w'))) ≫= (.!! i)
    = dict_get key (buffers (base (self w))) ≫= (.!! i).
Proof.
  rewrite store_episode_eq. intros Hstore Hhd Hfit key i Hi.
  rewrite Hhd in Hstore.
  destruct (forallb _ _); [|done].
  change (ReplayBufferBase._get_storage_idx batch_size w)
    with (ReplayBuffer._get_storage_idx batch_size w) in Hstore.
  rewrite episode_storage_idx_eq in Hstore. cbv zeta in Hstore.
  destruct (_ && _); [|done].
  simpl in Hfit.
  apply Nat.leb_le in Hfit as Hfit'. rewrite Hfit' in Hstore.
  pose proof (write_fields_lookup_notin assign
    (if batch_size =? 1
     then IScalar (current_size (ReplayBuffer.ep_base (self w)))
     else IArray (seq (current_size (ReplayBuffer.ep_base (self w))) batch_size))
    batch (dict_keys (buffers (base (self w)))) (buffers (base (self w)))
    key i) as Hkeep.
  destruct (write_fields _ _ _ _ _) as [[[]|e] bufs]; [|done].
  injection Hstore as <-. simpl in *. apply Hkeep.
  destruct (batch_size =? 1) eqn:E; simpl.
  - apply Nat.eqb_eq in E. intros Hin%list_elem_of_singleton. lia.
  - intros Hin%elem_of_seq. lia.
Qed.

Lemma episode_store_keeps_stored_witness :
  let w1 := after (store_episode (episodes_of [1%Z])) (mkWorld episodes2 g0) in
  dict_get "u" (buffers (base (self (after (store_episode (episodes_of [2%Z])) w1))))
    ≫= (.!! 0)
  = dict_get "u" (buffers (base (self w1))) ≫= (.!! 0).
Proof.
  intros w1.
  apply (episode_store_keeps_stored (episodes_of [2%Z]) w1
           (after (store_episode (episodes_of [2%Z])) w1) 1).
  - reflexivity.
  - reflexivity.
  - vm_compute. lia.
  - vm_compute. lia.
Defined.

Lemma batch_sizes_agree {item} (batch : dict (list item)) bs :
  forallb (fun n => n =? bs) (batch_sizes batch) = true ↔
  Forall (fun kv => length kv.2 = bs) batch.
Proof.
  unfold batch_sizes. rewrite forallb_forall, Forall_forall. split.
  - intros Hall kv Hkv. apply Nat.eqb_eq, Hall, in_map_iff.
    exists kv. split; [done|]. by apply list_elem_of_In.
  - intros Hall n (kv & <- & Hkv)%in_map_iff. apply Nat.eqb_eq, Hall.
    by apply list_elem_of_In.
Qed.

(** ** A store applies in full or not at all, for a batch that fits every field *)

(** C5, as stated, fails: a batch that lacks a field of the buffer passes
    the two checks, the ring pointer moves, the fields before the missing
    one are written, and only then the lookup of the missing field raises.
    The same happens where a field of the batch has entries that cannot be
    broadcast to the slots of its array. *)
Lemma store_episode_partial_write :
  ¬ (∀ (w w' : world (@RingReplayBuffer.t Z)) batch e,
       store_episode batch w = (Raise e, w') →
       buffers (base (self w')) = buffers (base (self w)) ∧
       RingReplayBuffer.pointer (self w') = RingReplayBuffer.pointer (self w)).
Proof.
  intros H.
  assert (store_episode [("u", [[5%Z]])] (mkWorld ring3 g0)
          = (Raise KeyError,
             after (store_episode [("u", [[5%Z]])]) (mkWorld ring3 g0)))
    as Hraise by (vm_compute; reflexivity).
  destruct (H _ _ _ _ Hraise) as [_ Hp].
  vm_compute in Hp. discriminate Hp.
Qed.

(** Every array of [bufs] has its field in the batch, with entries that
    are in the relation [same_shape] with the entries of the array. *)
Definition conforms {item} (same_shape : item → item → Prop)
    (batch bufs : dict (list item)) : Prop :=
  Forall (fun ka => ∃ v, dict_get ka.1 batch = Some v ∧
                         Forall (fun old => Forall (same_shape old) v) ka.2)
         bufs.

Lemma conforms_impl {item} (P Q : item → item → Prop) batch bufs :
  (∀ old x, P old x → Q old x) → conforms P batch bufs → conforms Q batch bufs.
Proof.
  intros HPQ Hc. unfold conforms in *.
  eapply Forall_impl; [exact Hc|]. simpl. intros [k a] (v & Hv & Hall).
  exists v. split; [done|].
  eapply Forall_impl; [exact Hall|]. simpl. intros old Hold.
  eapply Forall_impl; [exact Hold|]. simpl. intros x. apply HPQ.
Qed.

Lemma conforms_get {item} (P : item → item → Prop) batch bufs key a :
  conforms P batch bufs → dict_get key bufs = Some a →
  ∃ v, dict_get key batch = Some v ∧ Forall (fun old => Forall (P old) v) a.
Proof.
  intros Hc Ha. unfold conforms in Hc. rewrite Forall_forall in Hc.
  apply (Hc _ (dict_get_elem _ _ _ Ha)).
Qed.

(** The entries of a row, or the rows of an episode, have the lengths of
    the entry they replace. *)
Definition row_shape {elem} (old new : list elem) : Prop :=
  length new = length old.
Definition episode_shape {elem} (old new : list (list elem)) : Prop :=
  map length new = map length old.

Section AllOrNothing.
Context {item B : Type} `{!ReplayBufferBase.Subclass item B}
  `{!SubclassLaws B}.

(** What a store may do: go through, with every array assigned at the
    allocated slots and the fill level raised; or raise, because the batch
    is empty, its fields disagree in their leading dimension, or that
    dimension is zero or exceeds the capacity, and then leave the whole
    state as it was. *)
Definition applies_or_rejects (batch : dict (list item)) (w : world B) : Prop :=
  match store_episode batch w with
  | (Ok _, w') =>
      ∃ batch_size idxs,
        head (batch_sizes batch) = Some batch_size ∧
        Forall (fun kv => length kv.2 = batch_size) batch ∧
        0 < batch_size ≤ size (base (self w)) ∧
        valid_index (size (base (self w))) batch_size idxs ∧
        (∀ key a, dict_get key (buffers (base (self w))) = Some a →
           ∃ v a', dict_get key batch = Some v ∧
                   setitem assign a idxs v = Ok a' ∧
                   dict_get key (buffers (base (self w'))) = Some a') ∧
        current_size (base (self w'))
        = Nat.min (size (base (self w))) (current_size (base (self w)) + batch_size)
  | (Raise e, w') =>
      w' = w ∧
      ((batch = [] ∧ e = IndexError) ∨
       (e = AssertionError ∧
        ∃ batch_size, head (batch_sizes batch) = Some batch_size ∧
          (¬ Forall (fun kv => length kv.2 = batch_size) batch ∨
           batch_size = 0 ∨ size (base (self w)) < batch_size)))
  end.

(** Every field of the buffer is in the batch, with entries that can be
    assigned to the slots of the field: they have the shape of the slots,
    or one that broadcasts to it. *)
Definition fits (batch : dict (list item)) (b : ReplayBufferBase.t item) : Prop :=
  Forall (fun ka => ∃ v, dict_get ka.1 batch = Some v ∧ assignable assign ka.2 v)
         (buffers b).

(** C5, amended. On a buffer whose arrays have [size] slots each, a batch
    that carries every field of the buffer, in a shape that can be assigned
    to the slots of the field, is applied in full or rejected with nothing
    changed: no array, not the fill level, not the state of the subclass
    (the ring pointer), not the generator. *)
Theorem store_episode_all_or_nothing (batch : dict (list item)) (w : world B) :
  sub_inv (self w) →
  wf_buffers (base (self w)) →
  fits batch (base (self w)) →
  applies_or_rejects batch w.
Proof.
  intros Hinv [Hnd Hlen] Hfits. unfold applies_or_rejects.
  rewrite store_episode_eq.
  destruct (head (batch_sizes batch)) as [bs|] eqn:Hhd.
  2:{ split; [done|]. left. split; [|done].
      destruct batch; [done|discriminate Hhd]. }
  destruct (forallb _ _) eqn:Hall.
  2:{ split; [done|]. right. split; [done|]. exists bs. split; [done|].
      left. intros HF. apply batch_sizes_agree in HF. congruence. }
  apply batch_sizes_agree in Hall.
  pose proof (storage_idx_base bs w) as Hbase.
  destruct (_get_storage_idx bs w) as [[idxs|e] w1] eqn:Hidx.
  2:{ destruct (storage_idx_raise _ _ _ _ Hinv Hidx) as (-> & -> & Hbad).
      split; [done|]. right. split; [done|]. exists bs. split; [done|].
      by right. }
  simpl in Hbase. cbv zeta. rewrite Hbase.
  destruct (storage_idx_ok _ _ _ _ Hinv Hidx) as [Hbs Hvalid].
  assert (∀ k, k ∈ dict_keys (buffers (base (self w))) →
            ∃ a v a', dict_get k (buffers (base (self w))) = Some a ∧
                      dict_get k batch = Some v ∧
                      setitem assign a idxs v = Ok a')
    as Hgo.
  { intros k Hk. destruct (dict_keys_get _ _ Hk) as [a Ha].
    unfold fits in Hfits. rewrite Forall_forall in Hfits.
    destruct (Hfits _ (dict_get_elem _ _ _ Ha)) as (v & Hv & Hass).
    simpl in Hv, Hass.
    assert (valid_index (length a) bs idxs) as Hva.
    { rewrite Forall_forall in Hlen.
      pose proof (Hlen _ (dict_get_elem _ _ _ Ha)) as Hla. simpl in Hla.
      rewrite Hla. done. }
    assert (length v = bs) as Hlv.
    { rewrite Forall_forall in Hall.
      apply (Hall _ (dict_get_elem _ _ _ Hv)). }
    destruct (setitem_valid assign a idxs v bs Hva Hlv Hass) as [a' Ha'].
    by exists a, v, a'. }
  pose proof (write_fields_succeeds assign idxs batch _ _ Hnd Hgo) as Hok.
  destruct (write_fields _ _ _ _ _) as [r bufs] eqn:Hw. simpl in Hok. subst r.
  destruct (write_fields_spec _ _ _ _ _ _ _ Hnd Hw) as [_ Hin].
  exists bs, idxs. simpl. rewrite base_with_base. simpl.
  repeat (split; [done|]). split; [|done].
  intros key a Ha.
  destruct (Hin eq_refl key (dict_get_Some_keys _ _ _ Ha))
    as (a0 & v & a' & H1 & H2 & H3 & H4).
  exists v, a'. rewrite Ha in H1. injection H1 as <-. done.
Qed.
End AllOrNothing.

Lemma store_episode_all_or_nothing_witness :
  applies_or_rejects (transition 5 0) (mkWorld ring3 g0).
Proof.
  apply store_episode_all_or_nothing.
  - simpl. lia.
  - split; simpl.
    + apply NoDup_cons. split; [|apply NoDup_singleton].
      intros Hin%list_elem_of_singleton. discriminate Hin.
    + repeat constructor.
  - repeat (apply Forall_cons; split); try apply Forall_nil_2;
      (eexists; split; [reflexivity|]);
      repeat (apply Forall_cons; split); try apply Forall_nil_2;
      eexists; reflexivity.
Defined.

(** ** A store that goes through, step by step *)

Lemma dict_get_of_elem {V} (d : dict V) k v :
  NoDup (dict_keys d) → (k, v) ∈ d → dict_get k d = Some v.
Proof.
  induction d as [|[k' v'] d IH]; simpl; intros Hnd Hin; [inversion Hin|].
  inversion Hnd as [|? ? Hnotin Hnd']; subst.
  destruct (String.eqb k k') eqn:E.
  - apply String.eqb_eq in E. subst k'.
    inversion Hin as [|? ? ? Hin']; subst; [done|].
    exfalso. apply Hnotin. unfold dict_keys.
    apply list_elem_of_fmap. by exists (k, v).
  - inversion Hin as [|? ? ? Hin']; subst.
    + by rewrite String.eqb_refl in E.
    + by apply IH.
Qed.

Section StoreApplies.
Context {item B : Type} `{!ReplayBufferBase.Subclass item B}
  `{!SubclassLaws B}.

(** With a batch of [bs] records in every field of the buffer, in a shape
    that fits, and room for them, the policy yields slots and every array
    is assigned there. *)
Lemma store_episode_applies (batch : dict (list item)) (w : world B) bs :
  sub_inv (self w) →
  wf_buffers (base (self w)) →
  fits batch (base (self w)) →
  head (batch_sizes batch) = Some bs →
  Forall (fun kv => length kv.2 = bs) batch →
  0 < bs ≤ size (base (self w)) →
  ∃ idxs w1 bufs,
    _get_storage_idx bs w = (Ok idxs, w1) ∧
    store_episode batch w
    = (Ok tt,
       mkWorld (with_base
                  (set_current_size
                     (Nat.min (size (base (self w)))
                              (current_size (base (self w)) + bs))
                     (set_buffers bufs (base (self w))))
                  (self w1)) (np w1)) ∧
    dict_keys bufs = dict_keys (buffers (base (self w))) ∧
    (∀ key a, dict_get key (buffers (base (self w))) = Some a →
       ∃ v a', dict_get key batch = Some v ∧ setitem assign a idxs v = Ok a' ∧
               dict_get key bufs = Some a').
Proof.
  intros Hinv [Hnd Hlen] Hfits Hhd Hall Hbs.
  rewrite store_episode_eq, Hhd.
  apply batch_sizes_agree in Hall as Hall'. rewrite Hall'.
  pose proof (storage_idx_base bs w) as Hbase.
  destruct (_get_storage_idx bs w) as [[idxs|e] w1] eqn:Hidx.
  2:{ destruct (storage_idx_raise _ _ _ _ Hinv Hidx) as (_ & _ & Hbad). lia. }
  simpl in Hbase. cbv zeta. rewrite Hbase.
  destruct (storage_idx_ok _ _ _ _ Hinv Hidx) as [_ Hvalid].
  assert (∀ k, k ∈ dict_keys (buffers (base (self w))) →
            ∃ a v a', dict_get k (buffers (base (self w))) = Some a ∧
                      dict_get k batch = Some v ∧
                      setitem assign a idxs v = Ok a')
    as Hgo.
  { intros k Hk. destruct (dict_keys_get _ _ Hk) as [a Ha].
    unfold fits in Hfits. rewrite Forall_forall in Hfits.
    destruct (Hfits _ (dict_get_elem _ _ _ Ha)) as (v & Hv & Hass).
    simpl in Hv, Hass.
    assert (valid_index (length a) bs idxs) as Hva.
    { rewrite Forall_forall in Hlen.
      pose proof (Hlen _ (dict_get_elem _ _ _ Ha)) as Hla. simpl in Hla.
      rewrite Hla. done. }
    assert (length v = bs) as Hlv.
    { rewrite Forall_forall in Hall.
      apply (Hall _ (dict_get_elem _ _ _ Hv)). }
    destruct (setitem_valid assign a idxs v bs Hva Hlv Hass) as [a' Ha'].
    by exists a, v, a'. }
  pose proof (write_fields_succeeds assign idxs batch _ _ Hnd Hgo) as Hok.
  pose proof (write_fields_keys assign idxs batch
                (dict_keys (buffers (base (self w)))) (buffers (base (self w))))
    as Hk.
  destruct (write_fields _ _ _ _ _) as [r bufs] eqn:Hw. simpl in Hok, Hk. subst r.
  destruct (write_fields_spec _ _ _ _ _ _ _ Hnd Hw) as [_ Hin].
  exists idxs, w1, bufs. repeat split; try done.
  intros key a Ha.
  destruct (Hin eq_refl key (dict_get_Some_keys _ _ _ Ha))
    as (a0 & v & a' & H1 & H2 & H3 & H4).
  exists v, a'. rewrite Ha in H1. injection H1 as <-. done.
Qed.

(** The same, where the entries of the batch have the shape of the slots
    and so are stored as their cast: the arrays after the store. *)
Lemma store_episode_casts (cast : item → item) (batch : dict (list item))
    (w : world B) bs :
  sub_inv (self w) →
  wf_buffers (base (self w)) →
  conforms (fun old x => assign old x = Ok (cast x)) batch
    (buffers (base (self w))) →
  head (batch_sizes batch) = Some bs →
  Forall (fun kv => length kv.2 = bs) batch →
  0 < bs ≤ size (base (self w)) →
  ∃ idxs w1 bufs,
    _get_storage_idx bs w = (Ok idxs, w1) ∧
    store_episode batch w
    = (Ok tt,
       mkWorld (with_base
                  (set_current_size
                     (Nat.min (size (base (self w)))
                              (current_size (base (self w)) + bs))
                     (set_buffers bufs (base (self w))))
                  (self w1)) (np w1)) ∧
    dict_keys bufs = dict_keys (buffers (base (self w))) ∧
    (∀ key a, dict_get key (buffers (base (self w))) = Some a →
       ∃ v, dict_get key batch = Some v ∧ length v = bs ∧
            dict_get key bufs
            = Some (scatter a (index_slots idxs) (map cast v))).
Proof.
  intros Hinv Hwf Hconf Hhd Hall Hbs.
  assert (fits batch (base (self w))) as Hfits.
  { revert Hconf. apply conforms_impl. intros old x Hx. by exists (cast x). }
  destruct (store_episode_applies batch w bs Hinv Hwf Hfits Hhd Hall Hbs)
    as (idxs & w1 & bufs & Hidx & Hst & Hkb & Hper).
  exists idxs, w1, bufs. repeat split; try done.
  intros key a Ha.
  destruct (Hper key a Ha) as (v & a' & Hv & Hset & Hb).
  destruct (conforms_get _ _ _ _ _ Hconf Ha) as (v' & Hv' & Hcast).
  rewrite Hv in Hv'. injection Hv' as <-.
  exists v. split; [done|]. split.
  - rewrite Forall_forall in Hall. apply (Hall _ (dict_get_elem _ _ _ Hv)).
  - by rewrite Hb, (setitem_cast assign cast a idxs v a' Hset Hcast).
Qed.
End StoreApplies.

(** ** The ring buffer holds the last [size] transitions *)

(** Storing a sequence of batches, one call each. *)
Definition store_all {item B : Type} `{!ReplayBufferBase.Subclass item B}
    (xs : list (dict (list item))) : M (world B) unit :=
  for_each xs store_episode.

(** A batch of one transition for the fields [keys]. *)
Definition single_transition {item} (keys : list string)
    (x : dict (list item)) : Prop :=
  x ≠ [] ∧ Forall (fun kv => length kv.2 = 1) x ∧
  ∀ k, k ∈ keys → is_Some (dict_get k x).

(** The entry of a single transition in field [key]. *)
Definition row_of {item} (key : string) (x : dict (list item)) : option item :=
  dict_get key x ≫= head.

Lemma mod_distinct C i n : i < n → n < i + C → i mod C ≠ n mod C.
Proof.
  intros Hlt Hclose Heq.
  pose proof (Nat.div_mod_eq i C) as Hi.
  pose proof (Nat.div_mod_eq n C) as Hn.
  rewrite Heq in Hi.
  destruct (le_lt_dec (n / C) (i / C)) as [Hle|Hgt].
  - pose proof (Nat.mul_le_mono_l _ _ C Hle). lia.
  - pose proof (Nat.mul_le_mono_l _ _ C Hgt). lia.
Qed.

Lemma mod_succ_eq C p n : 0 < C → p mod C = n mod C → (p + 1) mod C = (n + 1) mod C.
Proof.
  intros HC Heq.
  rewrite (Nat.Div0.add_mod p 1 C), (Nat.Div0.add_mod n 1 C). by rewrite Heq.
Qed.

(** The rows of the arrays [x] have the shapes of the schema: each has as
    many scalars as the shape of its field says. *)
Definition has_shapes {elem} (shapes : dict (list nat))
    (x : dict (list (list elem))) : Prop :=
  Forall (fun kv => ∀ shape, dict_get kv.1 shapes = Some shape →
                      Forall (fun r => length r = np_prod shape) kv.2) x.

Lemma has_shapes_get {elem} shapes (x : dict (list (list elem))) key shape v :
  has_shapes shapes x → dict_get key shapes = Some shape →
  dict_get key x = Some v → Forall (fun r => length r = np_prod shape) v.
Proof.
  intros Hx Hs Hv. unfold has_shapes in Hx. rewrite Forall_forall in Hx.
  apply (Hx _ (dict_get_elem _ _ _ Hv)). done.
Qed.

Lemma assign_row_same {elem} `{!Scalar elem} (old new : list elem) :
  length new = length old → assign_row old new = Ok (map float32 new).
Proof.
  intros Hl. unfold assign_row, broadcast_axis.
  by rewrite Hl, Nat.eqb_refl.
Qed.

Lemma dict_get_np_empty {item} (entry : list nat → string → nat → item)
    size shapes key :
  dict_get key (np_empty entry size shapes)
  = (fun shape => map (entry shape key) (seq 0 size)) <$> dict_get key shapes.
Proof.
  unfold np_empty. induction shapes as [|[k' sh] shapes IH]; simpl; [done|].
  destruct (String.eqb_spec key k') as [->|]; done.
Qed.

Section RingContents.
Context {elem : Type} `{!Scalar elem}.
Context (C : nat) (shapes : dict (list nat)) (HC : 0 < C).
Implicit Types (w : world (@RingReplayBuffer.t elem))
  (stored : list (dict (list (list elem)))).
#[local] Abbreviation keys := (dict_keys shapes).

(** The state after the transitions [stored] went into a fresh buffer of
    capacity [C]: transition [i] sits in slot [i mod C], cast to the
    element type of the arrays, as long as fewer than [C] transitions came
    after it. *)
Definition ring_inv stored w : Prop :=
  let b := RingReplayBuffer.ring_base (self w) in
  let p := RingReplayBuffer.pointer (self w) in
  size b = C ∧
  current_size b = Nat.min C (length stored) ∧
  p ≤ C ∧ p mod C = length stored mod C ∧
  wf_buffers b ∧ dict_keys (buffers b) = keys ∧
  has_shapes shapes (buffers b) ∧
  ∀ key i x, key ∈ keys → length stored ≤ i + C → stored !! i = Some x →
    dict_get key (buffers b) ≫= (.!! (i mod C))
    = map float32 <$> row_of key x.

(** The slot the ring policy gives to a single transition, and the pointer
    it leaves. *)
Lemma ring_single_slot stored w idxs w1 :
  ring_inv stored w →
  ReplayBufferBase._get_storage_idx 1 w = (Ok idxs, w1) →
  idxs = IScalar (length stored mod C) ∧
  RingReplayBuffer.ring_base (self w1) = RingReplayBuffer.ring_base (self w) ∧
  RingReplayBuffer.pointer (self w1) ≤ C ∧
  RingReplayBuffer.pointer (self w1) mod C = (length stored + 1) mod C.
Proof.
  intros (Hsize & Hcs & Hp & Hpmod & Hwf & Hkeys & Hshapes & Hcontent).
  change (ReplayBufferBase._get_storage_idx 1 w)
    with (RingReplayBuffer._get_storage_idx 1 w).
  rewrite ring_storage_idx_eq. cbv zeta. rewrite Hsize.
  set (p := RingReplayBuffer.pointer (self w)) in *.
  assert (((1 <=? C) && (0 <? 1)) = true) as ->.
  { apply andb_true_intro. split; [apply Nat.leb_le; lia|done]. }
  change (1 =? 1) with true. cbv iota.
  destruct (p + 1 <=? C) eqn:E.
  - apply Nat.leb_le in E. intros [= <- <-]. simpl.
    rewrite <- Hpmod, (Nat.mod_small p C) by lia.
    repeat split; [lia|]. by apply mod_succ_eq.
  - apply Nat.leb_gt in E. intros [= <- <-]. simpl.
    assert (p = C) as Hp' by lia.
    assert ((p <? C) = false) as -> by (apply Nat.ltb_ge; lia).
    rewrite <- Hpmod, Hp', Nat.Div0.mod_same.
    repeat split; [lia|].
    replace (C + 1 - C) with 1 by lia.
    rewrite <- (mod_succ_eq C p (length stored) HC Hpmod), Hp'.
    rewrite (Nat.Div0.add_mod C 1 C), Nat.Div0.mod_same. simpl.
    by rewrite Nat.Div0.mod_mod.
Qed.
Lemma single_transition_row (x : dict (list (list elem))) key :
  single_transition keys x → key ∈ keys →
  ∃ r, dict_get key x = Some [r] ∧ row_of key x = Some r.
Proof.
  intros (_ & Hlen1 & Hhas) Hk. destruct (Hhas key Hk) as [v Hv].
  rewrite Forall_forall in Hlen1.
  pose proof (Hlen1 _ (dict_get_elem _ _ _ Hv)) as Hl. simpl in Hl.
  destruct v as [|r [|]]; try done. exists r. split; [done|].
  unfold row_of. by rewrite Hv.
Qed.

Lemma ring_inv_step stored w x :
  ring_inv stored w → single_transition keys x → has_shapes shapes x →
  ∃ w', store_episode x w = (Ok tt, w') ∧ ring_inv (stored ++ [x]) w'.
Proof.
  intros Hinv Hx Hxs.
  pose proof Hinv as (Hsize & Hcs & Hp & Hpmod & Hwf & Hkeys & Hshapes & Hcontent).
  pose proof Hx as (Hne & Hlen1 & Hhas).
  assert (head (batch_sizes x) = Some 1) as Hhd.
  { destruct x as [|[k v] x]; [done|]. simpl. f_equal. by inversion Hlen1. }
  assert (sub_inv (self w)) as Hsub by (simpl; lia).
  assert (∀ key a, dict_get key (buffers (RingReplayBuffer.ring_base (self w)))
                   = Some a →
            ∃ r shape, dict_get key x = Some [r] ∧
                       dict_get key shapes = Some shape ∧
                       length r = np_prod shape ∧
                       Forall (fun old => length old = np_prod shape) a)
    as Hrows.
  { intros key a Ha.
    pose proof (dict_get_Some_keys _ _ _ Ha) as Hk. rewrite Hkeys in Hk.
    destruct (single_transition_row x key Hx Hk) as (r & Hr & _).
    destruct (dict_keys_get _ _ Hk) as [shape Hshape].
    exists r, shape. repeat split; try done.
    - pose proof (has_shapes_get _ _ _ _ _ Hxs Hshape Hr) as Hv.
      by inversion Hv.
    - by apply (has_shapes_get _ _ _ _ _ Hshapes Hshape Ha). }
  assert (fits x (base (self w))) as Hall.
  { apply Forall_forall. intros [k a] Hin. simpl.
    assert (dict_get k (buffers (RingReplayBuffer.ring_base (self w))) = Some a)
      as Ha by (apply dict_get_of_elem; [apply Hwf|done]).
    destruct (Hrows k a Ha) as (r & shape & Hr & _ & Hlr & Hold).
    exists [r]. split; [done|].
    eapply Forall_impl; [exact Hold|]. simpl. intros old Hlo.
    apply Forall_cons. split; [|apply Forall_nil_2].
    exists (map float32 r). apply assign_row_same. congruence. }
  assert (0 < 1 ≤ size (base (self w))) as Hroom by (simpl; lia).
  destruct (store_episode_applies x w 1 Hsub Hwf Hall Hhd Hlen1 Hroom)
    as (idxs & w1 & bufs & Hidx & Hst & Hkb & Hper).
  destruct (ring_single_slot stored w idxs w1 Hinv Hidx)
    as (-> & Hbase1 & Hp1 & Hpmod1).
  eexists. split; [exact Hst|].
  simpl in *. unfold ring_inv. simpl.
  rewrite length_app. simpl.
  split; [done|]. split; [lia|]. split; [done|]. split; [done|].
  assert (∀ key a', dict_get key bufs = Some a' →
            ∃ a r shape,
              dict_get key (buffers (RingReplayBuffer.ring_base (self w))) = Some a ∧
              dict_get key x = Some [r] ∧
              dict_get key shapes = Some shape ∧
              length r = np_prod shape ∧
              Forall (fun old => length old = np_prod shape) a ∧
              a' = <[length stored mod C := map float32 r]> a ∧ length a = C)
    as Hnew.
  { intros key a' Ha'.
    pose proof (dict_get_Some_keys _ _ _ Ha') as Hk. rewrite Hkb in Hk.
    destruct (dict_keys_get _ _ Hk) as [a Ha].
    destruct (Hper key a Ha) as (v & a'' & Hv & Hset & Hb).
    destruct (Hrows key a Ha) as (r & shape & Hr & Hshape & Hlr & Hold).
    rewrite Hr in Hv. injection Hv as <-.
    destruct Hwf as [_ Hlen]. rewrite Forall_forall in Hlen.
    pose proof (Hlen _ (dict_get_elem _ _ _ Ha)) as Hla. simpl in Hla.
    rewrite Hsize in Hla.
    apply setitem_scalar in Hset as (old & x' & Hold' & Hx' & ->).
    change (ReplayBufferBase.assign old r) with (assign_row old r) in Hx'.
    rewrite assign_row_same in Hx'.
    2:{ rewrite Forall_forall in Hold. rewrite Hlr. symmetry. apply Hold.
        by eapply list_elem_of_lookup_2. }
    injection Hx' as <-.
    exists a, r, shape. rewrite Ha' in Hb. injection Hb as ->. done. }
  split; [|split; [by rewrite Hkb|split]].
  - destruct Hwf as [Hnd Hlen]. split; simpl; [by rewrite Hkb|].
    apply Forall_forall. intros [k a'] Hin. simpl.
    assert (dict_get k bufs = Some a') as Ha'.
    { apply dict_get_of_elem; [by rewrite Hkb|done]. }
    destruct (Hnew k a' Ha') as (a & r & shape & _ & _ & _ & _ & _ & -> & Hla).
    by rewrite length_insert, Hsize.
  - apply Forall_forall. intros [k a'] Hin shape Hshape. simpl in *.
    assert (dict_get k bufs = Some a') as Ha'.
    { apply dict_get_of_elem; [|done]. rewrite Hkb. apply Hwf. }
    destruct (Hnew k a' Ha')
      as (a & r & shape' & _ & _ & Hshape' & Hlr & Hold & -> & Hla).
    rewrite Hshape in Hshape'. injection Hshape' as <-.
    apply Forall_insert; [done|]. by rewrite length_map.
  - intros key i y Hk Hi Hy.
    destruct (dict_keys_get key (buffers (RingReplayBuffer.ring_base (self w))))
      as [a Ha]; [by rewrite Hkeys|].
    destruct (Hper key a Ha) as (v & a' & Hv & Hset & Hb).
    destruct (Hnew key a' Hb)
      as (a0 & r & shape & Ha0 & Hr & _ & _ & _ & -> & Hla).
    rewrite Ha in Ha0. injection Ha0 as <-.
    rewrite Hb. simpl.
    destruct (decide (i = length stored)) as [->|Hne'].
    + rewrite list_lookup_middle in Hy by done. injection Hy as <-.
      rewrite list_lookup_insert_eq.
      * unfold row_of. by rewrite Hr.
      * rewrite Hla. apply Nat.mod_upper_bound. lia.
    + assert (i < length stored) as Hlt.
      { apply lookup_lt_Some in Hy. rewrite length_app in Hy. simpl in Hy. lia. }
      rewrite lookup_app_l in Hy by done.
      rewrite list_lookup_insert_ne.
      * rewrite <- (Hcontent key i y Hk ltac:(lia) Hy). by rewrite Ha.
      * intros Heq. symmetry in Heq. revert Heq. apply mod_distinct; lia.
Qed.
Lemma ring_inv_store_all xs stored w :
  ring_inv stored w → Forall (single_transition keys) xs →
  Forall (has_shapes shapes) xs →
  ∃ w', store_all xs w = (Ok tt, w') ∧ ring_inv (stored ++ xs) w'.
Proof.
  revert stored w. induction xs as [|x xs IH]; intros stored w Hinv Hxs Hsh.
  - exists w. split; [done|]. by rewrite app_nil_r.
  - inversion Hxs as [|? ? Hx Hxs']; subst.
    inversion Hsh as [|? ? Hs Hsh']; subst.
    destruct (ring_inv_step stored w x Hinv Hx Hs) as (w1 & Hst & Hinv1).
    destruct (IH (stored ++ [x]) w1 Hinv1 Hxs' Hsh') as (w' & Hall & Hinv').
    exists w'. split.
    + unfold store_all in *. simpl. unfold mbind, M_bind, bind.
      by rewrite Hst.
    + by rewrite <- app_assoc in Hinv'.
Qed.
End RingContents.

Lemma dict_keys_np_empty {item} (entry : list nat → string → nat → item)
    size shapes :
  dict_keys (np_empty entry size shapes) = dict_keys shapes.
Proof. unfold np_empty, dict_keys. rewrite map_map. done. Qed.

Lemma length_empty_row {elem} shape (uninit : nat → elem) :
  length (empty_row shape uninit) = np_prod shape.
Proof. unfold empty_row. by rewrite length_map, length_seq. Qed.

(** The arrays of a fresh ring buffer have the shapes of the schema. *)
Lemma ring_init_has_shapes {elem} (uninit : string → nat → nat → elem)
    shapes size :
  NoDup (dict_keys shapes) →
  has_shapes shapes
    (np_empty (fun shape key i => empty_row shape (uninit key i)) size shapes).
Proof.
  intros Hnd. unfold has_shapes, np_empty. apply Forall_forall.
  intros kv (ks & -> & Hks)%list_elem_of_fmap shape Hshape. simpl in *.
  destruct ks as [k sh]. simpl in *.
  rewrite (dict_get_of_elem _ _ _ Hnd Hks) in Hshape. injection Hshape as <-.
  apply Forall_forall. intros r (i & -> & _)%list_elem_of_fmap.
  apply length_empty_row.
Qed.

Lemma ring_inv_init {elem} `{!Scalar elem} (uninit : string → nat → nat → elem)
    shapes C g :
  NoDup (dict_keys shapes) →
  ring_inv C shapes []
    (mkWorld (RingReplayBuffer.__init__ uninit shapes C) g).
Proof.
  intros Hnd. unfold ring_inv. simpl.
  split; [done|]. split; [lia|]. split; [lia|]. split; [done|].
  split; [|split; [apply dict_keys_np_empty|split]].
  - split; simpl; [by rewrite dict_keys_np_empty|].
    unfold np_empty. apply Forall_forall.
    intros kv (ks & -> & _)%list_elem_of_fmap. simpl.
    by rewrite length_map, length_seq.
  - by apply ring_init_has_shapes.
  - intros key i x _ _ Hx. done.
Qed.

(** C7. After [C + m] single transitions ([m < C]) whose rows have the
    shapes of the schema went one by one into a fresh ring buffer of
    capacity [C], the buffer is full and, in every field, slot
    [(m + j) mod C] holds the entry of transition number [m + j], cast to
    the element type of the arrays, for [j < C]: the last [C] transitions,
    in the order they came, from slot [m] on and wrapping around. *)
Theorem ring_holds_last_transitions {elem : Type} `{!Scalar elem}
    (uninit : string → nat → nat → elem) (shapes : dict (list nat))
    (C m : nat) (xs : list (dict (list (list elem)))) (g : np_random) :
  NoDup (dict_keys shapes) →
  m < C →
  length xs = C + m →
  Forall (single_transition (dict_keys shapes)) xs →
  Forall (has_shapes shapes) xs →
  ∃ w',
    store_all xs (mkWorld (RingReplayBuffer.__init__ uninit shapes C) g)
    = (Ok tt, w') ∧
    current_size (base (self w')) = C ∧
    ∀ key j, key ∈ dict_keys shapes → j < C →
      ∃ x r, xs !! (m + j) = Some x ∧ dict_get key x = Some [r] ∧
             dict_get key (buffers (base (self w'))) ≫= (.!! ((m + j) mod C))
             = Some (map float32 r).
Proof.
  intros Hnd Hm Hlen Hxs Hsh.
  assert (0 < C) as HC by lia.
  destruct (ring_inv_store_all C shapes HC xs [] _
              (ring_inv_init uninit shapes C g Hnd) Hxs Hsh)
    as (w' & Hst & Hinv).
  exists w'. split; [done|].
  destruct Hinv as (Hsize & Hcs & _ & _ & _ & _ & _ & Hcontent). simpl in *.
  split; [lia|].
  intros key j Hk Hj.
  destruct (lookup_lt_is_Some_2 xs (m + j)) as [x Hx]; [lia|].
  rewrite Forall_forall in Hxs.
  destruct (single_transition_row shapes x key) as (r & Hr & Hrow);
    [apply Hxs; by eapply list_elem_of_lookup_2|done|].
  exists x, r. repeat split; try done.
  rewrite (Hcontent key (m + j) x Hk ltac:(lia) Hx), Hrow. done.
Qed.

Lemma ring_holds_last_transitions_witness :
  ∃ w',
    store_all [transition 1 0; transition 2 0; transition 3 1; transition 4 0]
      (mkWorld (RingReplayBuffer.__init__ (fun _ _ _ => 0%Z)
                  [("u", [1]); ("done", [1])] 3) g0)
    = (Ok tt, w') ∧
    current_size (base (self w')) = 3 ∧
    ∀ key j, key ∈ dict_keys [("u", [1]); ("done", [1])] → j < 3 →
      ∃ x r,
        [transition 1 0; transition 2 0; transition 3 1; transition 4 0]
          !! (1 + j) = Some x ∧
        dict_get key x = Some [r] ∧
        dict_get key (buffers (base (self w'))) ≫= (.!! ((1 + j) mod 3))
        = Some (map float32 r).
Proof.
  apply (ring_holds_last_transitions (fun _ _ _ => 0%Z)
           [("u", [1]); ("done", [1])] 3 1).
  - simpl. apply NoDup_cons. split; [|apply NoDup_singleton].
    intros Hin%list_elem_of_singleton. discriminate Hin.
  - lia.
  - reflexivity.
  - assert (∀ a b, single_transition ["u"; "done"] (transition a b)) as Hs.
    { intros a b. split; [discriminate|]. split; [repeat constructor|].
      intros k Hk. apply dict_keys_get. exact Hk. }
    simpl. do 4 (constructor; [apply Hs|]). constructor.
  - assert (∀ a b, has_shapes [("u", [1]); ("done", [1])] (transition a b))
      as Hs.
    { intros a b.
      repeat (apply Forall_cons; split); try apply Forall_nil_2;
        intros shape [= <-]; by repeat constructor. }
    do 4 (constructor; [apply Hs|]). constructor.
Defined.

(** ** Loading a ring buffer: the episode boundaries *)

Lemma py_index_last {A} (l : list A) : py_index l (-1) = last l.
Proof.
  unfold py_index. simpl. rewrite last_lookup.
  destruct l as [|x l]; [done|].
  assert ((0 <=? Z.of_nat (length (x :: l)) + -1)%Z = true) as ->.
  { apply Z.leb_le. simpl length. lia. }
  f_equal. simpl length. lia.
Qed.

Section Dones.
Context {elem : Type} `{!Scalar elem} (is_nonzero : elem → bool).
Implicit Types (done : list (list elem)).

Lemma nonzero_count_pos (r : list elem) :
  0 < length (filter (fun x => is_nonzero x = true) r) ↔
  existsb is_nonzero r = true.
Proof.
  induction r as [|x r IH]; simpl; [split; [lia|done]|].
  rewrite filter_cons. destruct (decide (is_nonzero x = true)) as [E|E].
  - rewrite E. simpl. split; [done|lia].
  - apply not_true_is_false in E. rewrite E. simpl. exact IH.
Qed.

Lemma nonzero_rows_elem i done j :
  j ∈ RingReplayBuffer.nonzero_rows is_nonzero i done ↔
  i ≤ j ∧ ∃ r, done !! (j - i) = Some r ∧ existsb is_nonzero r = true.
Proof.
  revert i. induction done as [|r0 done IH]; intros i; simpl.
  - split; [intros H; inversion H|]. intros (_ & r & Hr & _). done.
  - rewrite elem_of_app, IH. split.
    + intros [Hrep|(Hle & r & Hr & Hnz)].
      * apply elem_of_replicate in Hrep as [-> Hc].
        split; [done|]. exists r0. rewrite Nat.sub_diag. split; [done|].
        apply nonzero_count_pos. lia.
      * split; [lia|]. exists r. split; [|done].
        replace (j - i) with (S (j - S i)) by lia. done.
    + intros (Hle & r & Hr & Hnz).
      destruct (decide (j = i)) as [->|Hne].
      * left. rewrite Nat.sub_diag in Hr. injection Hr as <-.
        apply elem_of_replicate. split; [done|].
        apply nonzero_count_pos in Hnz. lia.
      * right. split; [lia|]. exists r. split; [|done].
        replace (j - i) with (S (j - S i)) in Hr by lia. done.
Qed.

Lemma nonzero_rows_last_max i done k :
  last (RingReplayBuffer.nonzero_rows is_nonzero i done) = Some k →
  ∀ j, j ∈ RingReplayBuffer.nonzero_rows is_nonzero i done → j ≤ k.
Proof.
  revert i k. induction done as [|r0 done IH]; intros i k; simpl; [done|].
  intros Hlast j Hj.
  destruct (RingReplayBuffer.nonzero_rows is_nonzero (S i) done) as [|d ds] eqn:E.
  - rewrite app_nil_r in Hlast, Hj.
    apply elem_of_replicate in Hj as [-> _].
    apply last_Some_elem_of, elem_of_replicate in Hlast as [-> _]. done.
  - rewrite last_app in Hlast.
    destruct (last (d :: ds)) as [k'|] eqn:El;
      [|apply last_None in El; discriminate El].
    injection Hlast as ->.
    apply elem_of_app in Hj as [Hj|Hj].
    + apply elem_of_replicate in Hj as [-> _].
      assert (k ∈ RingReplayBuffer.nonzero_rows is_nonzero (S i) done) as Hk.
      { rewrite E. by apply last_Some_elem_of. }
      apply nonzero_rows_elem in Hk. lia.
    + rewrite <- E in El, Hj. by eapply IH.
Qed.
End Dones.

(** Rows of the shape of the rows they replace are stored as their cast. *)
Lemma ring_conforms_casts {elem} `{!Scalar elem}
    (batch bufs : dict (list (list elem))) :
  conforms row_shape batch bufs →
  conforms (fun old x => assign_row old x = Ok (map float32 x)) batch bufs.
Proof. apply conforms_impl. intros old x. apply assign_row_same. Qed.

Lemma conforms_truncated {item} (P : item → item → Prop)
    (file bufs : dict (list item)) n :
  conforms P file bufs →
  conforms P (map (fun kv => (kv.1, take n kv.2)) file) bufs.
Proof.
  intros Hc. unfold conforms in *. eapply Forall_impl; [exact Hc|]. simpl.
  intros [k a] (v & Hv & Hall). simpl in *. exists (take n v).
  split; [by rewrite (dict_get_map (take n)), Hv|].
  eapply Forall_impl; [exact Hall|]. simpl. intros old Hold.
  rewrite Forall_forall in Hold. apply Forall_forall. intros x Hx.
  apply Hold. apply elem_of_take in Hx as (i & Hi & _).
  by eapply list_elem_of_lookup_2.
Qed.

Section RingStore.
Context {elem : Type} `{!Scalar elem}.
Implicit Types (w : world (@RingReplayBuffer.t elem)).

(** A batch that fits between the pointer and the end of the arrays goes
    to the slots from the pointer on, row by row and cast. *)
Lemma ring_store_at_pointer (batch : dict (list (list elem))) w n :
  wf_buffers (RingReplayBuffer.ring_base (self w)) →
  conforms row_shape batch (buffers (RingReplayBuffer.ring_base (self w))) →
  head (batch_sizes batch) = Some n →
  Forall (fun kv => length kv.2 = n) batch →
  0 < n →
  RingReplayBuffer.pointer (self w) + n
  ≤ size (RingReplayBuffer.ring_base (self w)) →
  ∃ w',
    store_episode batch w = (Ok tt, w') ∧
    np w' = np w ∧
    size (RingReplayBuffer.ring_base (self w'))
    = size (RingReplayBuffer.ring_base (self w)) ∧
    current_size (RingReplayBuffer.ring_base (self w'))
    = Nat.min (size (RingReplayBuffer.ring_base (self w)))
              (current_size (RingReplayBuffer.ring_base (self w)) + n) ∧
    RingReplayBuffer.pointer (self w') = RingReplayBuffer.pointer (self w) + n ∧
    dict_keys (buffers (RingReplayBuffer.ring_base (self w')))
    = dict_keys (buffers (RingReplayBuffer.ring_base (self w))) ∧
    ∀ key a,
      dict_get key (buffers (RingReplayBuffer.ring_base (self w))) = Some a →
      ∃ v, dict_get key batch = Some v ∧ length v = n ∧
           dict_get key (buffers (RingReplayBuffer.ring_base (self w')))
           = Some (scatter a (seq (RingReplayBuffer.pointer (self w)) n)
                     (map (map float32) v)).
Proof.
  intros Hwf Hconf Hhd Hall Hn Hroom.
  assert (sub_inv (self w)) as Hsub by (simpl; lia).
  assert (0 < n ≤ size (base (self w))) as Hbs by (simpl; lia).
  destruct (store_episode_casts (map float32) batch w n Hsub Hwf
              (ring_conforms_casts _ _ Hconf) Hhd Hall Hbs)
    as (idxs & w1 & bufs & Hidx & Hst & Hkb & Hper).
  change (ReplayBufferBase._get_storage_idx n w)
    with (RingReplayBuffer._get_storage_idx n w) in Hidx.
  rewrite ring_storage_idx_eq in Hidx. cbv zeta in Hidx.
  assert (((n <=? size (RingReplayBuffer.ring_base (self w))) && (0 <? n))
          = true) as Hchk.
  { apply andb_true_intro. split; [apply Nat.leb_le|apply Nat.ltb_lt]; lia. }
  rewrite Hchk in Hidx. apply Nat.leb_le in Hroom as Hroom'.
  rewrite Hroom' in Hidx. injection Hidx as <- <-.
  assert (index_slots
            (if n =? 1 then IScalar (RingReplayBuffer.pointer (self w))
             else IArray (seq (RingReplayBuffer.pointer (self w)) n))
          = seq (RingReplayBuffer.pointer (self w)) n) as Hslots.
  { destruct (n =? 1) eqn:E; [|done]. apply Nat.eqb_eq in E. by subst n. }
  rewrite Hslots in Hper.
  eexists. split; [exact Hst|]. simpl. repeat split; try done.
Qed.
End RingStore.

(** What [a[p : p + n] = v] leaves in the array. *)
Lemma scatter_seq_lookup {A} (a v : list A) p :
  p + length v ≤ length a →
  (∀ j x, v !! j = Some x → scatter a (seq p (length v)) v !! (p + j) = Some x) ∧
  (∀ i, ¬ (p ≤ i < p + length v) →
     scatter a (seq p (length v)) v !! i = a !! i).
Proof.
  intros Hlen. split.
  - intros j x Hx. pose proof (lookup_lt_Some _ _ _ Hx) as Hj.
    apply (scatter_lookup a _ v j (p + j) x); [apply NoDup_seq| |done|lia].
    by apply lookup_seq_lt.
  - intros i Hi. apply scatter_lookup_notin. intros Hin%elem_of_seq. lia.
Qed.

Section RingLoad.
Context {elem : Type} `{!Scalar elem} (is_nonzero : elem → bool).
Implicit Types (w : world (@RingReplayBuffer.t elem))
  (file : npz (list elem)).

(** The batch [load_from_file] stores: every array cut after row [last_idx]. *)
Definition truncated (file : dict (list (list elem))) (last_idx : nat)
  : dict (list (list elem)) :=
  map (fun kv => (kv.1, take (last_idx + 1) kv.2)) file.

(** [load_from_file], statement by statement. *)
Lemma ring_load_eq file num_demo w :
  RingReplayBuffer.load_from_file is_nonzero file num_demo w =
  match dict_get "done" file with
  | None => (Raise AssertionError, w)
  | Some flags =>
      let dones := RingReplayBuffer.nonzero_rows is_nonzero 0 flags in
      if match num_demo with
         | None => true
         | Some n => (n <=? Z.of_nat (length dones))%Z
         end
      then
        match py_index dones (match num_demo with
                              | Some n => (n - 1)%Z
                              | None => (-1)%Z
                              end) with
        | None => (Raise IndexError, w)
        | Some last_idx =>
            if forallb (fun key => ndim file key =? 2) (dict_keys file) then
              (store_episode (truncated file last_idx);;
               mret (truncated file last_idx)) w
            else (Raise AssertionError, w)
        end
      else (Raise AssertionError, w)
  end.
Proof.
  unfold RingReplayBuffer.load_from_file, dict_mem.
  destruct (dict_get "done" file) as [flags|]; [|done].
  unfold truncated. repeat (progress unfold_monad). cbv zeta.
  destruct (match num_demo with None => true | Some n => _ end); [|done].
  destruct (py_index _ _) as [last_idx|]; [|done].
  by destruct (forallb _ _).
Qed.

(** An archive of two-dimensional arrays whose rows up to [last_idx] can
    go to the slots from the pointer on: every array has that many rows,
    every field of the buffer is in the archive with rows as long as those
    of the buffer, and there is room between the pointer and the end. *)
Definition ring_loadable file (last_idx : nat) w : Prop :=
  Forall (fun key => ndim file key = 2) (dict_keys file) ∧
  Forall (fun kv => last_idx < length kv.2) file ∧
  wf_buffers (RingReplayBuffer.ring_base (self w)) ∧
  conforms row_shape file (buffers (RingReplayBuffer.ring_base (self w))) ∧
  RingReplayBuffer.pointer (self w) + (last_idx + 1)
  ≤ size (RingReplayBuffer.ring_base (self w)).

(** The load returns the arrays cut after row [last_idx] and has stored
    them: row [j] of every field of the buffer, cast, is in slot
    [pointer + j], the other slots are as they were, the pointer and the
    fill level have moved on by [last_idx + 1]. *)
Definition ring_loaded file (last_idx : nat) (num_demo : option Z) w : Prop :=
  ∃ w',
    RingReplayBuffer.load_from_file is_nonzero file num_demo w
    = (Ok (truncated file last_idx), w') ∧
    np w' = np w ∧
    current_size (RingReplayBuffer.ring_base (self w'))
    = Nat.min (size (RingReplayBuffer.ring_base (self w)))
              (current_size (RingReplayBuffer.ring_base (self w))
               + (last_idx + 1)) ∧
    RingReplayBuffer.pointer (self w')
    = RingReplayBuffer.pointer (self w) + (last_idx + 1) ∧
    dict_keys (buffers (RingReplayBuffer.ring_base (self w')))
    = dict_keys (buffers (RingReplayBuffer.ring_base (self w))) ∧
    ∀ key a,
      dict_get key (buffers (RingReplayBuffer.ring_base (self w))) = Some a →
      ∃ v a',
        dict_get key file = Some v ∧
        dict_get key (buffers (RingReplayBuffer.ring_base (self w'))) = Some a' ∧
        (∀ j r, j ≤ last_idx → v !! j = Some r →
           a' !! (RingReplayBuffer.pointer (self w) + j)
           = Some (map float32 r)) ∧
        (∀ i, ¬ (RingReplayBuffer.pointer (self w) ≤ i
                 ≤ RingReplayBuffer.pointer (self w) + last_idx) →
           a' !! i = a !! i).

Lemma truncated_lengths file last_idx :
  arrays file ≠ [] →
  Forall (fun kv => last_idx < length kv.2) file →
  head (batch_sizes (truncated file last_idx)) = Some (last_idx + 1) ∧
  Forall (fun kv => length kv.2 = last_idx + 1) (truncated file last_idx).
Proof.
  intros Hne Hlen. split.
  - destruct (arrays file) as [|[k v] d]; [done|]. simpl. f_equal.
    inversion Hlen; subst. simpl in *. rewrite length_take. lia.
  - unfold truncated. apply Forall_forall.
    intros kv (kv' & -> & Hin)%list_elem_of_fmap. simpl.
    rewrite Forall_forall in Hlen. specialize (Hlen _ Hin).
    rewrite length_take. lia.
Qed.

(** Once the last row is found, a loadable archive is loaded. *)
Lemma ring_load_applies file num_demo flags last_idx w :
  dict_get "done" file = Some flags →
  match num_demo with
  | None => true
  | Some n => (n <=? Z.of_nat (length (RingReplayBuffer.nonzero_rows
                                         is_nonzero 0 flags)))%Z
  end = true →
  py_index (RingReplayBuffer.nonzero_rows is_nonzero 0 flags)
    (match num_demo with Some n => (n - 1)%Z | None => (-1)%Z end)
  = Some last_idx →
  ring_loadable file last_idx w →
  ring_loaded file last_idx num_demo w.
Proof.
  intros Hdone Hchk Hidx (Hnd & Hrows & Hwf & Hconf & Hroom).
  unfold ring_loaded. rewrite ring_load_eq, Hdone. cbv zeta.
  rewrite Hchk, Hidx.
  assert (forallb (fun key => ndim file key =? 2) (dict_keys file) = true)
    as ->.
  { apply forallb_forall. intros key Hkey%list_elem_of_In.
    rewrite Forall_forall in Hnd. apply Nat.eqb_eq. by apply Hnd. }
  assert (arrays file ≠ []) as Hne.
  { intros E. by rewrite E in Hdone. }
  destruct (truncated_lengths file last_idx Hne Hrows) as [Hhd Hall].
  destruct (ring_store_at_pointer (truncated file last_idx) w (last_idx + 1)
              Hwf (conforms_truncated _ _ _ _ Hconf) Hhd Hall ltac:(lia) Hroom)
    as (w' & Hst & Hnp & Hsize & Hcs & Hp & Hkeys & Hper).
  exists w'. unfold mbind, M_bind, bind. rewrite Hst.
  split; [done|]. split; [done|]. split; [done|]. split; [done|].
  split; [done|].
  intros key a Ha. destruct (Hper key a Ha) as (v' & Hv' & Hlv' & Ha').
  unfold truncated in Hv'. rewrite (dict_get_map (take (last_idx + 1))) in Hv'.
  destruct (dict_get key file) as [v|] eqn:Hv; [|done].
  simpl in Hv'. injection Hv' as <-.
  exists v. eexists. split; [done|]. split; [exact Ha'|].
  assert (length a = size (RingReplayBuffer.ring_base (self w))) as Hla.
  { destruct Hwf as [_ Hlen]. rewrite Forall_forall in Hlen.
    apply (Hlen _ (dict_get_elem _ _ _ Ha)). }
  destruct (scatter_seq_lookup a (map (map float32) (take (last_idx + 1) v))
              (RingReplayBuffer.pointer (self w))) as [Hin Hout].
  { rewrite length_map, Hlv'. lia. }
  rewrite length_map, Hlv' in Hin, Hout. split.
  - intros j r Hj Hr. apply Hin.
    rewrite list_lookup_fmap, lookup_take_lt by lia. by rewrite Hr.
  - intros i Hi. apply Hout. lia.
Qed.

End RingLoad.

(** [x != 0] on integers. *)
Definition Z_nonzero (x : Z) : bool := negb (x =? 0)%Z.



(** ** Storing and loading episodes *)

Lemma forallb_keys {V} (p : string → bool) (q : string * V → bool) (d : dict V) :
  (∀ kv, kv ∈ d → q kv = p kv.1) → forallb q d = forallb p (dict_keys d).
Proof.
  induction d as [|kv0 d IH]; simpl; intros H; [done|].
  rewrite H by left. f_equal. apply IH. intros kv Hkv. apply H. by right.
Qed.

Lemma assign_steps_same {elem} `{!Scalar elem} (old new : list (list elem)) :
  map length new = map length old →
  assign_steps old new = Ok (map (map float32) new).
Proof.
  revert new. induction old as [|o old IH]; intros [|r new]; simpl; try done.
  intros [= Hr Hnew]. rewrite assign_row_same by done.
  by rewrite (IH new Hnew).
Qed.

(** Episodes with the rows of the episode they replace are stored as
    their cast. *)
Lemma assign_episode_same {elem} `{!Scalar elem} (old new : list (list elem)) :
  episode_shape old new →
  assign_episode old new = Ok (map (map float32) new).
Proof.
  unfold episode_shape. intros Hs. unfold assign_episode, broadcast_axis.
  assert (length new = length old) as Hl.
  { by rewrite <- (length_map length new), Hs, length_map. }
  rewrite Hl, Nat.eqb_refl. by apply assign_steps_same.
Qed.

Lemma episode_conforms_casts {elem} `{!Scalar elem}
    (batch bufs : dict (list (list (list elem)))) :
  conforms episode_shape batch bufs →
  conforms (fun old x => assign_episode old x = Ok (map (map float32) x))
    batch bufs.
Proof. apply conforms_impl. intros old x. apply assign_episode_same. Qed.

Section EpisodeStore.
Context {elem : Type} `{!Scalar elem}.
Implicit Types (w : world (@ReplayBuffer.t elem)).

(** A batch that fits in the free slots goes to the slots from the fill
    level on, episode by episode and cast. *)
Lemma episode_store_at_fill (batch : dict (list (list (list elem)))) w n :
  wf_buffers (ReplayBuffer.ep_base (self w)) →
  conforms episode_shape batch (buffers (ReplayBuffer.ep_base (self w))) →
  head (batch_sizes batch) = Some n →
  Forall (fun kv => length kv.2 = n) batch →
  0 < n →
  current_size (ReplayBuffer.ep_base (self w)) + n
  ≤ size (ReplayBuffer.ep_base (self w)) →
  ∃ w',
    store_episode batch w = (Ok tt, w') ∧
    np w' = np w ∧
    size (ReplayBuffer.ep_base (self w')) = size (ReplayBuffer.ep_base (self w)) ∧
    current_size (ReplayBuffer.ep_base (self w'))
    = current_size (ReplayBuffer.ep_base (self w)) + n ∧
    ReplayBuffer.T (self w') = ReplayBuffer.T (self w) ∧
    dict_keys (buffers (ReplayBuffer.ep_base (self w')))
    = dict_keys (buffers (ReplayBuffer.ep_base (self w))) ∧
    ∀ key a,
      dict_get key (buffers (ReplayBuffer.ep_base (self w))) = Some a →
      ∃ v, dict_get key batch = Some v ∧ length v = n ∧
           dict_get key (buffers (ReplayBuffer.ep_base (self w')))
           = Some (scatter a (seq (current_size (ReplayBuffer.ep_base (self w))) n)
                     (map (map (map float32)) v)).
Proof.
  intros Hwf Hconf Hhd Hall Hn Hroom.
  assert (sub_inv (self w)) as Hsub by done.
  assert (0 < n ≤ size (base (self w))) as Hbs by (simpl; lia).
  destruct (store_episode_casts (map (map float32)) batch w n Hsub Hwf
              (episode_conforms_casts _ _ Hconf) Hhd Hall Hbs)
    as (idxs & w1 & bufs & Hidx & Hst & Hkb & Hper).
  change (ReplayBufferBase._get_storage_idx n w)
    with (ReplayBuffer._get_storage_idx n w) in Hidx.
  rewrite episode_storage_idx_eq in Hidx. cbv zeta in Hidx.
  assert (((n <=? size (ReplayBuffer.ep_base (self w))) && (0 <? n)) = true)
    as Hchk.
  { apply andb_true_intro. split; [apply Nat.leb_le|apply Nat.ltb_lt]; lia. }
  rewrite Hchk in Hidx. apply Nat.leb_le in Hroom as Hroom'.
  rewrite Hroom' in Hidx. injection Hidx as <- <-.
  assert (index_slots
            (if n =? 1 then IScalar (current_size (ReplayBuffer.ep_base (self w)))
             else IArray (seq (current_size (ReplayBuffer.ep_base (self w))) n))
          = seq (current_size (ReplayBuffer.ep_base (self w))) n) as Hslots.
  { destruct (n =? 1) eqn:E; [|done]. apply Nat.eqb_eq in E. by subst n. }
  rewrite Hslots in Hper.
  eexists. split; [exact Hst|]. simpl. repeat split; try done. lia.
Qed.

(** An archive of three-dimensional arrays of which [n] episodes can go to
    the free slots: every field of the buffer is in the archive with
    episodes of the shape of those of the buffer, and there is room. *)
Definition episode_loadable (file : npz (list (list elem))) (n : nat) w : Prop :=
  Forall (fun key => ndim file key = 3) (dict_keys file) ∧
  arrays file ≠ [] ∧
  wf_buffers (ReplayBuffer.ep_base (self w)) ∧
  conforms episode_shape file (buffers (ReplayBuffer.ep_base (self w))) ∧
  0 < n ∧
  current_size (ReplayBuffer.ep_base (self w)) + n
  ≤ size (ReplayBuffer.ep_base (self w)).

(** The load returns the first [n] episodes of every array and has stored
    them: episode [j] of every field of the buffer, cast, is in slot
    [current_size + j], the other slots are as they were, and the fill
    level has grown by [n]. *)
Definition episode_loaded (file : npz (list (list elem))) (n : nat)
    (num_demo : option Z) w : Prop :=
  ∃ w',
    ReplayBuffer.load_from_file file num_demo w
    = (Ok (map (fun kv => (kv.1, take n kv.2)) file), w') ∧
    np w' = np w ∧
    current_size (ReplayBuffer.ep_base (self w'))
    = current_size (ReplayBuffer.ep_base (self w)) + n ∧
    dict_keys (buffers (ReplayBuffer.ep_base (self w')))
    = dict_keys (buffers (ReplayBuffer.ep_base (self w))) ∧
    ∀ key a,
      dict_get key (buffers (ReplayBuffer.ep_base (self w))) = Some a →
      ∃ v a',
        dict_get key file = Some v ∧
        dict_get key (buffers (ReplayBuffer.ep_base (self w'))) = Some a' ∧
        (∀ j ep, j < n → v !! j = Some ep →
           a' !! (current_size (ReplayBuffer.ep_base (self w)) + j)
           = Some (map (map float32) ep)) ∧
        (∀ i, ¬ (current_size (ReplayBuffer.ep_base (self w)) ≤ i
                 < current_size (ReplayBuffer.ep_base (self w)) + n) →
           a' !! i = a !! i).

(** The episodes [load_from_file] cuts out of the archive are its first
    [n]: for [num_demo = n], and for [num_demo = None] where every array
    has [n] episodes. *)
Definition first_episodes (file : npz (list (list elem))) (n : nat)
    (num_demo : option Z) : Prop :=
  match num_demo with
  | Some m => m = Z.of_nat n ∧ Forall (fun kv => n ≤ length kv.2) file
  | None => Forall (fun kv => length kv.2 = n) file
  end.

Lemma episode_load_eq (file : npz (list (list elem))) n num_demo w :
  first_episodes file n num_demo →
  ReplayBuffer.load_from_file file num_demo w
  = if forallb (fun key => ndim file key =? 3) (dict_keys file) then
      (store_episode (map (fun kv => (kv.1, take n kv.2)) file);;
       mret (map (fun kv => (kv.1, take n kv.2)) file)) w
    else (Raise AssertionError, w).
Proof.
  intros Hfirst. unfold ReplayBuffer.load_from_file, first_episodes in *.
  assert (forallb (fun kv : string * list (list (list elem)) =>
                     (ndim file kv.1 =? 3)
                     && match num_demo with
                        | None => true
                        | Some m => (m <=? Z.of_nat (length kv.2))%Z
                        end) file
          = forallb (fun key => ndim file key =? 3) (dict_keys file)) as ->.
  { apply forallb_keys. intros kv Hkv.
    destruct num_demo as [m|]; [|apply andb_true_r].
    destruct Hfirst as [-> Hlen]. rewrite Forall_forall in Hlen.
    specialize (Hlen _ Hkv).
    assert ((Z.of_nat n <=? Z.of_nat (length kv.2))%Z = true) as ->
      by (apply Z.leb_le; lia).
    apply andb_true_r. }
  assert (map (fun kv : string * list (list (list elem)) =>
                 (kv.1, py_slice_to kv.2 num_demo)) file
          = map (fun kv => (kv.1, take n kv.2)) file) as ->.
  { apply map_ext_in. intros [k v] Hkv%list_elem_of_In. simpl. f_equal.
    destruct num_demo as [m|]; simpl.
    - destruct Hfirst as [-> _].
      assert ((0 <=? Z.of_nat n)%Z = true) as -> by (apply Z.leb_le; lia).
      by rewrite Nat2Z.id.
    - rewrite Forall_forall in Hfirst. specialize (Hfirst _ Hkv). simpl in *.
      symmetry. apply take_ge. lia. }
  unfold_monad. by destruct (forallb _ _).
Qed.

Lemma episode_load_applies (file : npz (list (list elem))) n num_demo w :
  first_episodes file n num_demo →
  episode_loadable file n w →
  episode_loaded file n num_demo w.
Proof.
  intros Hfirst (Hnd & Hne & Hwf & Hconf & Hn & Hroom).
  unfold episode_loaded. rewrite (episode_load_eq file n num_demo w Hfirst).
  assert (forallb (fun key => ndim file key =? 3) (dict_keys file) = true)
    as ->.
  { apply forallb_forall. intros key Hkey%list_elem_of_In.
    rewrite Forall_forall in Hnd. apply Nat.eqb_eq. by apply Hnd. }
  assert (Forall (fun kv : string * list (list (list elem)) => n ≤ length kv.2)
            file) as Hlen.
  { destruct num_demo as [m|]; [apply Hfirst|].
    eapply Forall_impl; [exact Hfirst|]. simpl. intros; lia. }
  set (batch := map (fun kv : string * list (list (list elem)) =>
                       (kv.1, take n kv.2)) file).
  assert (head (batch_sizes batch) = Some n) as Hhd.
  { unfold batch. destruct (arrays file) as [|[k v] d]; [done|]. simpl. f_equal.
    inversion Hlen; subst. simpl in *. rewrite length_take. lia. }
  assert (Forall (fun kv => length kv.2 = n) batch) as Hall.
  { unfold batch. apply Forall_forall.
    intros kv (kv' & -> & Hin)%list_elem_of_fmap. simpl.
    rewrite Forall_forall in Hlen. specialize (Hlen _ Hin).
    rewrite length_take. lia. }
  destruct (episode_store_at_fill batch w n Hwf
              (conforms_truncated _ _ _ _ Hconf) Hhd Hall Hn Hroom)
    as (w' & Hst & Hnp & Hsize & Hcs & _ & Hkeys & Hper).
  exists w'. unfold mbind, M_bind, bind. rewrite Hst.
  split; [done|]. split; [done|]. split; [done|]. split; [done|].
  intros key a Ha. destruct (Hper key a Ha) as (v' & Hv' & Hlv' & Ha').
  unfold batch in Hv'. rewrite (dict_get_map (take n)) in Hv'.
  destruct (dict_get key file) as [v|] eqn:Hv; [|done].
  simpl in Hv'. injection Hv' as <-.
  exists v. eexists. split; [done|]. split; [exact Ha'|].
  assert (length a = size (ReplayBuffer.ep_base (self w))) as Hla.
  { destruct Hwf as [_ Hlen']. rewrite Forall_forall in Hlen'.
    apply (Hlen' _ (dict_get_elem _ _ _ Ha)). }
  destruct (scatter_seq_lookup a (map (map (map float32)) (take n v))
              (current_size (ReplayBuffer.ep_base (self w)))) as [Hin Hout].
  { rewrite length_map, Hlv'. lia. }
  rewrite length_map, Hlv' in Hin, Hout. split.
  - intros j ep Hj Hep. apply Hin.
    rewrite list_lookup_fmap, lookup_take_lt by lia. by rewrite Hep.
  - intros i Hi. apply Hout. lia.
Qed.
End EpisodeStore.

(** ** Dump, then load into a fresh buffer *)

(** A buffer in use: one array of [size] slots per field of the schema, at
    least one field, and at least one record. *)
Definition filled {item} (b : ReplayBufferBase.t item) : Prop :=
  wf_buffers b ∧
  dict_keys (buffers b) = dict_keys (buffer_shapes b) ∧
  buffers b ≠ [] ∧
  0 < current_size b ≤ size b.

(** [b'] has the fill level of [b] and, in every field, the records of the
    valid prefix of [b]. *)
Definition same_prefix {item} (b b' : ReplayBufferBase.t item) : Prop :=
  current_size b' = current_size b ∧
  ∀ key, take (current_size b) <$> dict_get key (buffers b')
         = take (current_size b) <$> dict_get key (buffers b).

(** The lengths of the rows of an episode of shape [shape]. *)
Definition episode_lengths (shape : list nat) : list nat :=
  match shape with
  | [] => []
  | steps :: shape' => replicate steps (np_prod shape')
  end.

(** The episodes of the arrays [x] have the shapes of the schema. *)
Definition has_episode_shapes {elem} (shapes : dict (list nat))
    (x : dict (list (list (list elem)))) : Prop :=
  Forall (fun kv => ∀ shape, dict_get kv.1 shapes = Some shape →
                      Forall (fun ep => map length ep = episode_lengths shape)
                             kv.2) x.

(** The first [n] entries of every array hold values of [np.float32], as
    all entries of an array of that type do: the cast leaves them. *)
Definition float32_rows {elem} `{!Scalar elem} (n : nat)
    (bufs : dict (list (list elem))) : Prop :=
  Forall (fun kv => Forall (fun r => map float32 r = r) (take n kv.2)) bufs.
Definition float32_episodes {elem} `{!Scalar elem} (n : nat)
    (bufs : dict (list (list (list elem)))) : Prop :=
  Forall (fun kv => Forall (fun ep => map (map float32) ep = ep) (take n kv.2))
         bufs.

Section Dump.
Context {item : Type}.
Implicit Types (b : ReplayBufferBase.t item).

Lemma dump_filled b :
  filled b →
  ∃ file, dump_to_file b = Some file ∧
          dict_keys file = dict_keys (buffers b) ∧
          file ≠ [] ∧
          Forall (fun kv => length kv.2 = current_size b) file ∧
          ∀ key, dict_get key file
                 = take (current_size b) <$> dict_get key (buffers b).
Proof.
  intros ([Hnd Hlen] & Hkeys & Hne & Hcs).
  unfold dump_to_file.
  assert ((current_size b =? 0) = false) as -> by (apply Nat.eqb_neq; lia).
  eexists. split; [done|]. split; [|split; [|split]].
  - apply (dict_keys_map (fun _ v => take (current_size b) v)).
  - destruct (buffers b); [done|discriminate].
  - apply Forall_forall. intros kv (kv' & -> & Hin)%list_elem_of_fmap. simpl.
    rewrite Forall_forall in Hlen. rewrite length_take, (Hlen _ Hin). lia.
  - intros key. apply dict_get_map.
Qed.

(** The archive of a dump has the dimensions the loader asks for where
    every shape of the schema has one dimension less. *)
Lemma np_savez_ndim b (file : dict (list item)) rank :
  dict_keys file = dict_keys (buffer_shapes b) →
  Forall (fun ks => length ks.2 = rank) (buffer_shapes b) →
  Forall (fun key => ndim (np_savez (buffer_shapes b) file) key = S rank)
         (dict_keys (np_savez (buffer_shapes b) file)).
Proof.
  intros Hkeys Hrank. simpl. rewrite Hkeys. apply Forall_forall.
  intros key Hkey. destruct (dict_keys_get _ _ Hkey) as [shape Hshape].
  rewrite Hshape. f_equal. rewrite Forall_forall in Hrank.
  apply (Hrank _ (dict_get_elem _ _ _ Hshape)).
Qed.
End Dump.

Lemma fresh_wf {item} (entry : list nat → string → nat → item) shapes size :
  NoDup (dict_keys shapes) →
  wf_buffers (ReplayBufferBase.__init__ shapes size (np_empty entry size shapes)).
Proof.
  intros Hnd. split; simpl; [by rewrite dict_keys_np_empty|].
  unfold np_empty. apply Forall_forall.
  intros kv (ks & -> & _)%list_elem_of_fmap. simpl.
  by rewrite length_map, length_seq.
Qed.

Lemma map_length_empty_episode {elem} shape (uninit : nat → nat → elem) :
  map length (empty_episode shape uninit) = episode_lengths shape.
Proof.
  destruct shape as [|steps shape]; simpl; [done|].
  generalize 0. induction steps as [|n IH]; intros st; simpl; [done|].
  rewrite length_empty_row. f_equal. apply IH.
Qed.

(** The arrays of a fresh episode buffer have the shapes of the schema. *)
Lemma episode_init_has_shapes {elem}
    (uninit : string → nat → nat → nat → elem) shapes size :
  NoDup (dict_keys shapes) →
  has_episode_shapes shapes
    (np_empty (fun shape key i => empty_episode shape (uninit key i))
       size shapes).
Proof.
  intros Hnd. unfold has_episode_shapes, np_empty. apply Forall_forall.
  intros kv (ks & -> & Hks)%list_elem_of_fmap shape Hshape. simpl in *.
  destruct ks as [k sh]. simpl in *.
  rewrite (dict_get_of_elem _ _ _ Hnd Hks) in Hshape. injection Hshape as <-.
  apply Forall_forall. intros r (i & -> & _)%list_elem_of_fmap.
  apply map_length_empty_episode.
Qed.

(** Arrays of the shapes of one schema conform to each other. *)
Lemma has_shapes_conforms {elem} shapes (batch bufs : dict (list (list elem))) :
  has_shapes shapes batch → has_shapes shapes bufs →
  (∀ k, k ∈ dict_keys bufs → k ∈ dict_keys shapes ∧ k ∈ dict_keys batch) →
  conforms row_shape batch bufs.
Proof.
  intros Hb Ha Hkeys. apply Forall_forall. intros [k a] Hin. simpl.
  destruct (Hkeys k) as [Hks Hkb].
  { apply list_elem_of_fmap. by exists (k, a). }
  destruct (dict_keys_get _ _ Hks) as [shape Hshape].
  destruct (dict_keys_get _ _ Hkb) as [v Hv].
  exists v. split; [done|].
  unfold has_shapes in Ha. rewrite Forall_forall in Ha.
  pose proof (Ha _ Hin shape Hshape) as Hold. simpl in Hold.
  eapply Forall_impl; [exact Hold|]. simpl. intros old Hlo.
  pose proof (has_shapes_get _ _ _ _ _ Hb Hshape Hv) as Hnew.
  eapply Forall_impl; [exact Hnew|]. simpl. intros x Hlx.
  unfold row_shape. congruence.
Qed.

Lemma has_episode_shapes_conforms {elem} shapes
    (batch bufs : dict (list (list (list elem)))) :
  has_episode_shapes shapes batch → has_episode_shapes shapes bufs →
  (∀ k, k ∈ dict_keys bufs → k ∈ dict_keys shapes ∧ k ∈ dict_keys batch) →
  conforms episode_shape batch bufs.
Proof.
  intros Hb Ha Hkeys. apply Forall_forall. intros [k a] Hin. simpl.
  destruct (Hkeys k) as [Hks Hkb].
  { apply list_elem_of_fmap. by exists (k, a). }
  destruct (dict_keys_get _ _ Hks) as [shape Hshape].
  destruct (dict_keys_get _ _ Hkb) as [v Hv].
  exists v. split; [done|].
  unfold has_episode_shapes in Ha, Hb. rewrite Forall_forall in Ha, Hb.
  pose proof (Ha _ Hin shape Hshape) as Hold. simpl in Hold.
  eapply Forall_impl; [exact Hold|]. simpl. intros old Hlo.
  pose proof (Hb _ (dict_get_elem _ _ _ Hv) shape Hshape) as Hnew.
  simpl in Hnew.
  eapply Forall_impl; [exact Hnew|]. simpl. intros x Hlx.
  unfold episode_shape. congruence.
Qed.

(** The dump of arrays of the shapes of a schema has these shapes. *)
Lemma has_shapes_take {elem} shapes (bufs : dict (list (list elem))) n :
  has_shapes shapes bufs →
  has_shapes shapes (map (fun kv => (kv.1, take n kv.2)) bufs).
Proof.
  intros Hs. unfold has_shapes in *. apply Forall_forall.
  intros kv (kv' & -> & Hin)%list_elem_of_fmap shape Hshape. simpl in *.
  rewrite Forall_forall in Hs. specialize (Hs _ Hin shape Hshape).
  apply Forall_take. exact Hs.
Qed.

Lemma has_episode_shapes_take {elem} shapes
    (bufs : dict (list (list (list elem)))) n :
  has_episode_shapes shapes bufs →
  has_episode_shapes shapes (map (fun kv => (kv.1, take n kv.2)) bufs).
Proof.
  intros Hs. unfold has_episode_shapes in *. apply Forall_forall.
  intros kv (kv' & -> & Hin)%list_elem_of_fmap shape Hshape. simpl in *.
  rewrite Forall_forall in Hs. specialize (Hs _ Hin shape Hshape).
  apply Forall_take. exact Hs.
Qed.

(** The first [cs] slots of [a'] are the first [cs] entries of [a], where
    [a'] holds the cast of each and the cast leaves them. *)
Lemma take_of_casts {A} (cast : A → A) (a a' : list A) cs :
  cs ≤ length a →
  Forall (fun x => cast x = x) (take cs a) →
  (∀ j x, j < cs → take cs a !! j = Some x → a' !! (0 + j) = Some (cast x)) →
  take cs a' = take cs a.
Proof.
  intros Hlen Hfix Hget. apply list_eq. intros i.
  destruct (decide (i < cs)) as [Hi|Hi].
  - rewrite !lookup_take_lt by done.
    destruct (lookup_lt_is_Some_2 a i ltac:(lia)) as [x Hx].
    assert (take cs a !! i = Some x) as Hx' by (by rewrite lookup_take_lt).
    pose proof (Hget i x Hi Hx') as Hg. simpl in Hg.
    rewrite Hg, Hx. f_equal.
    rewrite Forall_forall in Hfix. apply Hfix.
    by eapply list_elem_of_lookup_2.
  - by rewrite !lookup_take_ge by lia.
Qed.

Section RoundTrip.
Context {elem : Type} `{!Scalar elem} (is_nonzero : elem → bool).

Lemma ring_round_trip (uninit : string → nat → nat → elem)
    (rb : @RingReplayBuffer.t elem) g flags r :
  filled (RingReplayBuffer.ring_base rb) →
  Forall (fun ks => length ks.2 = 1)
         (buffer_shapes (RingReplayBuffer.ring_base rb)) →
  has_shapes (buffer_shapes (RingReplayBuffer.ring_base rb))
             (buffers (RingReplayBuffer.ring_base rb)) →
  float32_rows (current_size (RingReplayBuffer.ring_base rb))
               (buffers (RingReplayBuffer.ring_base rb)) →
  dict_get "done" (buffers (RingReplayBuffer.ring_base rb)) = Some flags →
  flags !! (current_size (RingReplayBuffer.ring_base rb) - 1) = Some r →
  existsb is_nonzero r = true →
  ∃ file w',
    dump_to_file (RingReplayBuffer.ring_base rb) = Some file ∧
    RingReplayBuffer.load_from_file is_nonzero
      (np_savez (buffer_shapes (RingReplayBuffer.ring_base rb)) file) None
      (mkWorld (RingReplayBuffer.__init__ uninit
                  (buffer_shapes (RingReplayBuffer.ring_base rb))
                  (size (RingReplayBuffer.ring_base rb))) g)
    = (Ok file, w') ∧
    same_prefix (RingReplayBuffer.ring_base rb)
                (RingReplayBuffer.ring_base (self w')) ∧
    ∀ w, RingReplayBuffer.load_from_file is_nonzero
           (np_savez (buffer_shapes (RingReplayBuffer.ring_base rb)) file) None w
         = (store_episode file;; mret file) w.
Proof.
  set (b := RingReplayBuffer.ring_base rb).
  intros Hfilled Hrank Hshapes Hf32 Hflags Hr Hnz.
  destruct (dump_filled b Hfilled) as (file & Hdump & Hfk & Hfne & Hflen & Hfget).
  destruct Hfilled as ([Hnd Hlen] & Hkeys & Hne & Hcs).
  set (cs := current_size b) in *.
  set (archive := np_savez (buffer_shapes b) file).
  exists file.
  (* the last row of the dumped [done] array closes an episode *)
  assert (dict_get "done" archive = Some (take cs flags)) as Hfd.
  { simpl. by rewrite Hfget, Hflags. }
  assert (length flags = size b) as Hlf.
  { rewrite Forall_forall in Hlen.
    apply (Hlen _ (dict_get_elem _ _ _ Hflags)). }
  assert (last (RingReplayBuffer.nonzero_rows is_nonzero 0 (take cs flags))
          = Some (cs - 1)) as Hlast.
  { assert (cs - 1 ∈ RingReplayBuffer.nonzero_rows is_nonzero 0 (take cs flags))
      as Hin.
    { apply nonzero_rows_elem. split; [lia|]. exists r.
      rewrite Nat.sub_0_r, lookup_take_lt by lia. done. }
    destruct (last _) as [k|] eqn:El.
    2:{ apply last_None in El. rewrite El in Hin. inversion Hin. }
    pose proof (nonzero_rows_last_max _ _ _ _ El _ Hin) as Hmax.
    apply last_Some_elem_of, nonzero_rows_elem in El as (_ & r' & Hr' & _).
    apply lookup_lt_Some in Hr'. rewrite length_take in Hr'.
    f_equal. lia. }
  assert (truncated archive (cs - 1) = file) as Htrunc.
  { unfold truncated. simpl. rewrite <- (map_id file) at 2.
    apply map_ext_in. intros [k v] Hin. simpl. f_equal.
    rewrite Forall_forall in Hflen.
    pose proof (Hflen (k, v) ltac:(by apply list_elem_of_In)) as Hv.
    simpl in Hv. apply take_ge. lia. }
  assert (Forall (fun key => ndim archive key = 2) (dict_keys archive)) as Hdim.
  { apply np_savez_ndim; [congruence|done]. }
  assert (∀ w, RingReplayBuffer.load_from_file is_nonzero archive None w
               = (store_episode file;; mret file) w) as Hload.
  { intros w. rewrite ring_load_eq, Hfd. cbv zeta.
    rewrite py_index_last, Hlast, Htrunc.
    assert (forallb (fun key => ndim archive key =? 2) (dict_keys archive)
            = true) as ->; [|done].
    apply forallb_forall. intros key Hkey%list_elem_of_In.
    rewrite Forall_forall in Hdim. apply Nat.eqb_eq. by apply Hdim. }
  (* the load into the fresh buffer *)
  set (w := mkWorld (RingReplayBuffer.__init__ uninit (buffer_shapes b) (size b)) g).
  assert (NoDup (dict_keys (buffer_shapes b))) as Hnds by (by rewrite <- Hkeys).
  assert (ring_loadable archive (cs - 1) w) as Hable.
  { split; [done|]. split; [|split; [|split]].
    - simpl. eapply Forall_impl; [exact Hflen|]. simpl. intros; lia.
    - by apply fresh_wf.
    - simpl. apply (has_shapes_conforms (buffer_shapes b)).
      + assert (file = map (fun kv => (kv.1, take cs kv.2)) (buffers b)) as ->.
        { unfold dump_to_file in Hdump.
          assert ((current_size b =? 0) = false) as E
            by (apply Nat.eqb_neq; lia).
          rewrite E in Hdump. by injection Hdump as <-. }
        by apply has_shapes_take.
      + by apply ring_init_has_shapes.
      + intros k Hk. rewrite dict_keys_np_empty in Hk. split; [done|].
        by rewrite Hfk, Hkeys.
    - simpl. lia. }
  destruct (ring_load_applies is_nonzero archive None (take cs flags) (cs - 1) w
              Hfd eq_refl) as (w' & Hst & _ & Hcs' & _ & Hkeys' & Hper); [|done|].
  { by rewrite py_index_last. }
  rewrite Htrunc in Hst.
  exists w'. split; [done|]. split; [done|]. split; [|done].
  split; [simpl in *; lia|].
  intros key. destruct (dict_get key (buffers b)) as [a0|] eqn:Ha0; simpl.
  - destruct (dict_keys_get key
                (buffers (RingReplayBuffer.ring_base (self w)))) as [a Ha].
    { simpl. rewrite dict_keys_np_empty, <- Hkeys.
      by eapply dict_get_Some_keys. }
    destruct (Hper key a Ha) as (v & a' & Hv & Ha' & Hin & _).
    simpl in Hv. rewrite Hfget, Ha0 in Hv. simpl in Hv. injection Hv as <-.
    rewrite Ha'. simpl. f_equal.
    assert (length a0 = size b) as Hla0.
    { rewrite Forall_forall in Hlen. apply (Hlen _ (dict_get_elem _ _ _ Ha0)). }
    apply (take_of_casts (map float32)); [lia| |].
    + unfold float32_rows in Hf32. rewrite Forall_forall in Hf32.
      apply (Hf32 _ (dict_get_elem _ _ _ Ha0)).
    + intros j x Hj Hx. apply Hin; [lia|done].
  - destruct (dict_get key (buffers (RingReplayBuffer.ring_base (self w'))))
      as [a'|] eqn:Ha'; [|done].
    exfalso. apply dict_get_Some_keys in Ha'.
    rewrite Hkeys' in Ha'. simpl in Ha'.
    rewrite dict_keys_np_empty, <- Hkeys in Ha'.
    apply dict_keys_get in Ha' as [? ?]. congruence.
Qed.
End RoundTrip.
Section EpisodeRoundTrip.
Context {elem : Type} `{!Scalar elem}.

Lemma episode_round_trip (uninit : string → nat → nat → nat → elem)
    (eb : @ReplayBuffer.t elem) g :
  filled (ReplayBuffer.ep_base eb) →
  0 < ReplayBuffer.T eb →
  Forall (fun ks => length ks.2 = 2) (buffer_shapes (ReplayBuffer.ep_base eb)) →
  has_episode_shapes (buffer_shapes (ReplayBuffer.ep_base eb))
                     (buffers (ReplayBuffer.ep_base eb)) →
  float32_episodes (current_size (ReplayBuffer.ep_base eb))
                   (buffers (ReplayBuffer.ep_base eb)) →
  ∃ file fresh w',
    dump_to_file (ReplayBuffer.ep_base eb) = Some file ∧
    ReplayBuffer.__init__ uninit (buffer_shapes (ReplayBuffer.ep_base eb))
      (size (ReplayBuffer.ep_base eb) * ReplayBuffer.T eb) (ReplayBuffer.T eb)
    = Ok fresh ∧
    ReplayBuffer.load_from_file
      (np_savez (buffer_shapes (ReplayBuffer.ep_base eb)) file) None
      (mkWorld fresh g) = (Ok file, w') ∧
    same_prefix (ReplayBuffer.ep_base eb) (ReplayBuffer.ep_base (self w')) ∧
    ∀ w, ReplayBuffer.load_from_file
           (np_savez (buffer_shapes (ReplayBuffer.ep_base eb)) file) None w
         = (store_episode file;; mret file) w.
Proof.
  set (b := ReplayBuffer.ep_base eb). intros Hfilled HT Hrank Hshapes Hf32.
  destruct (dump_filled b Hfilled) as (file & Hdump & Hfk & Hfne & Hflen & Hfget).
  destruct Hfilled as ([Hnd Hlen] & Hkeys & Hne & Hcs).
  set (cs := current_size b) in *.
  set (archive := np_savez (buffer_shapes b) file).
  exists file. unfold ReplayBuffer.__init__.
  assert ((ReplayBuffer.T eb =? 0) = false) as -> by (apply Nat.eqb_neq; lia).
  rewrite Nat.div_mul by lia. cbv zeta.
  set (fresh := ReplayBuffer.mk
                  (ReplayBufferBase.__init__ (buffer_shapes b) (size b)
                     (np_empty (fun shape key i =>
                                  empty_episode shape (uninit key i))
                        (size b) (buffer_shapes b)))
                  (ReplayBuffer.T eb)).
  exists fresh. set (w := mkWorld fresh g).
  assert (first_episodes archive cs None) as Hfirst by done.
  assert (map (fun kv : string * list (list (list elem)) =>
                 (kv.1, take cs kv.2)) archive = file) as Htrunc.
  { simpl. rewrite <- (map_id file) at 2.
    apply map_ext_in. intros [k v] Hin. simpl. f_equal.
    rewrite Forall_forall in Hflen.
    pose proof (Hflen (k, v) ltac:(by apply list_elem_of_In)) as Hv.
    simpl in Hv. apply take_ge. lia. }
  assert (Forall (fun key => ndim archive key = 3) (dict_keys archive)) as Hdim.
  { apply np_savez_ndim; [congruence|done]. }
  assert (∀ w, ReplayBuffer.load_from_file archive None w
               = (store_episode file;; mret file) w) as Hload.
  { intros w0. rewrite (episode_load_eq archive cs None w0 Hfirst), Htrunc.
    assert (forallb (fun key => ndim archive key =? 3) (dict_keys archive)
            = true) as ->; [|done].
    apply forallb_forall. intros key Hkey%list_elem_of_In.
    rewrite Forall_forall in Hdim. apply Nat.eqb_eq. by apply Hdim. }
  assert (NoDup (dict_keys (buffer_shapes b))) as Hnds by (by rewrite <- Hkeys).
  assert (episode_loadable archive cs w) as Hable.
  { split; [done|]. split; [done|]. split; [|split; [|split]].
    - by apply fresh_wf.
    - simpl. apply (has_episode_shapes_conforms (buffer_shapes b)).
      + assert (file = map (fun kv => (kv.1, take cs kv.2)) (buffers b)) as ->.
        { unfold dump_to_file in Hdump.
          assert ((current_size b =? 0) = false) as E
            by (apply Nat.eqb_neq; lia).
          rewrite E in Hdump. by injection Hdump as <-. }
        by apply has_episode_shapes_take.
      + by apply episode_init_has_shapes.
      + intros k Hk. rewrite dict_keys_np_empty in Hk. split; [done|].
        by rewrite Hfk, Hkeys.
    - lia.
    - simpl. lia. }
  destruct (episode_load_applies archive cs None w Hfirst Hable)
    as (w' & Hst & _ & Hcs' & Hkeys' & Hper).
  rewrite Htrunc in Hst.
  exists w'. split; [done|]. split; [done|]. split; [done|]. split; [|done].
  split; [simpl in *; lia|].
  intros key. destruct (dict_get key (buffers b)) as [a0|] eqn:Ha0; simpl.
  - destruct (dict_keys_get key
                (buffers (ReplayBuffer.ep_base (self w)))) as [a Ha].
    { simpl. rewrite dict_keys_np_empty, <- Hkeys.
      by eapply dict_get_Some_keys. }
    destruct (Hper key a Ha) as (v & a' & Hv & Ha' & Hin & _).
    simpl in Hv. rewrite Hfget, Ha0 in Hv. simpl in Hv. injection Hv as <-.
    rewrite Ha'. simpl. f_equal.
    assert (length a0 = size b) as Hla0.
    { rewrite Forall_forall in Hlen. apply (Hlen _ (dict_get_elem _ _ _ Ha0)). }
    apply (take_of_casts (map (map float32))); [lia| |].
    + unfold float32_episodes in Hf32. rewrite Forall_forall in Hf32.
      apply (Hf32 _ (dict_get_elem _ _ _ Ha0)).
    + intros j x Hj Hx. by apply Hin.
  - destruct (dict_get key (buffers (ReplayBuffer.ep_base (self w'))))
      as [a'|] eqn:Ha'; [|done].
    exfalso. apply dict_get_Some_keys in Ha'.
    rewrite Hkeys' in Ha'. simpl in Ha'.
    rewrite dict_keys_np_empty, <- Hkeys in Ha'.
    apply dict_keys_get in Ha' as [? ?]. congruence.
Qed.
End EpisodeRoundTrip.

(** The ring buffer [ring3] after an episode of one transition and the first
    transition of a second episode. *)
Definition ring3_open : @RingReplayBuffer.t Z :=
  self (after (store_all [transition 1 1; transition 2 0]) (mkWorld ring3 g0)).

(** C4, as stated, fails: the ring buffer loads a dump up to the last done
    marker only, so a buffer whose last transitions belong to an episode
    still open comes back shorter. *)
Lemma round_trip_drops_open_episode :
  ¬ (∀ (rb : @RingReplayBuffer.t Z) file r w',
       0 < current_size (RingReplayBuffer.ring_base rb) →
       dump_to_file (RingReplayBuffer.ring_base rb) = Some file →
       RingReplayBuffer.load_from_file Z_nonzero
         (np_savez (buffer_shapes (RingReplayBuffer.ring_base rb)) file) None
         (mkWorld (RingReplayBuffer.__init__ (fun _ _ _ => 0%Z)
                     (buffer_shapes (RingReplayBuffer.ring_base rb))
                     (size (RingReplayBuffer.ring_base rb))) g0)
       = (r, w') →
       current_size (RingReplayBuffer.ring_base (self w'))
       = current_size (RingReplayBuffer.ring_base rb)).
Proof.
  intros H.
  assert (dump_to_file (RingReplayBuffer.ring_base ring3_open)
          = Some [("u", [[1%Z]; [2%Z]]); ("done", [[1%Z]; [0%Z]])]) as Hd
    by reflexivity.
  assert (0 < current_size (RingReplayBuffer.ring_base ring3_open)) as Hpos
    by (vm_compute; lia).
  pose proof (H ring3_open _ _ _ Hpos Hd (surjective_pairing _)) as Hc.
  vm_compute in Hc. discriminate Hc.
Qed.

(** A buffer of either variant. *)
Inductive any_buffer {elem : Type} : Type :=
  | RingBuffer (rb : @RingReplayBuffer.t elem)
  | EpisodeBuffer (eb : @ReplayBuffer.t elem).
Arguments any_buffer elem : clear implicits.

Section RoundTripClaim.
Context {elem : Type} `{!Scalar elem} (is_nonzero : elem → bool).

(** The buffers that come back from a dump.  They are in use; the shapes
    of the schema have the dimensions the loader asserts (one for the
    transitions of a ring buffer, two for the episodes of an episode
    buffer); the arrays have the shapes of the schema and hold values of
    [np.float32] in their valid prefix, as arrays the constructor has
    allocated do; and for the ring buffer there is a [done] field whose
    last valid transition closes an episode. *)
Definition comes_back (b : any_buffer elem) : Prop :=
  match b with
  | RingBuffer rb =>
      filled (RingReplayBuffer.ring_base rb) ∧
      Forall (fun ks => length ks.2 = 1)
             (buffer_shapes (RingReplayBuffer.ring_base rb)) ∧
      has_shapes (buffer_shapes (RingReplayBuffer.ring_base rb))
                 (buffers (RingReplayBuffer.ring_base rb)) ∧
      float32_rows (current_size (RingReplayBuffer.ring_base rb))
                   (buffers (RingReplayBuffer.ring_base rb)) ∧
      ∃ flags r,
        dict_get "done" (buffers (RingReplayBuffer.ring_base rb)) = Some flags ∧
        flags !! (current_size (RingReplayBuffer.ring_base rb) - 1) = Some r ∧
        existsb is_nonzero r = true
  | EpisodeBuffer eb =>
      filled (ReplayBuffer.ep_base eb) ∧ 0 < ReplayBuffer.T eb ∧
      Forall (fun ks => length ks.2 = 2)
             (buffer_shapes (ReplayBuffer.ep_base eb)) ∧
      has_episode_shapes (buffer_shapes (ReplayBuffer.ep_base eb))
                         (buffers (ReplayBuffer.ep_base eb)) ∧
      float32_episodes (current_size (ReplayBuffer.ep_base eb))
                       (buffers (ReplayBuffer.ep_base eb))
  end.

(** Dumping [b] and loading the archive into a fresh buffer of the same
    variant, schema and capacity: the load goes through, returns the
    archive, and the fresh buffer has the fill level and the valid prefix
    of [b].  On any buffer, fresh or not, loading the archive is storing
    it. *)
Definition round_trips (uninit_ring : string → nat → nat → elem)
    (uninit_episode : string → nat → nat → nat → elem) (g : np_random)
    (b : any_buffer elem) : Prop :=
  match b with
  | RingBuffer rb =>
      ∃ file w',
        dump_to_file (RingReplayBuffer.ring_base rb) = Some file ∧
        RingReplayBuffer.load_from_file is_nonzero
          (np_savez (buffer_shapes (RingReplayBuffer.ring_base rb)) file) None
          (mkWorld (RingReplayBuffer.__init__ uninit_ring
                      (buffer_shapes (RingReplayBuffer.ring_base rb))
                      (size (RingReplayBuffer.ring_base rb))) g)
        = (Ok file, w') ∧
        same_prefix (RingReplayBuffer.ring_base rb)
                    (RingReplayBuffer.ring_base (self w')) ∧
        ∀ w, RingReplayBuffer.load_from_file is_nonzero
               (np_savez (buffer_shapes (RingReplayBuffer.ring_base rb)) file)
               None w
             = (store_episode file;; mret file) w
  | EpisodeBuffer eb =>
      ∃ file fresh w',
        dump_to_file (ReplayBuffer.ep_base eb) = Some file ∧
        ReplayBuffer.__init__ uninit_episode
          (buffer_shapes (ReplayBuffer.ep_base eb))
          (size (ReplayBuffer.ep_base eb) * ReplayBuffer.T eb)
          (ReplayBuffer.T eb)
        = Ok fresh ∧
        ReplayBuffer.load_from_file
          (np_savez (buffer_shapes (ReplayBuffer.ep_base eb)) file) None
          (mkWorld fresh g) = (Ok file, w') ∧
        same_prefix (ReplayBuffer.ep_base eb) (ReplayBuffer.ep_base (self w')) ∧
        ∀ w, ReplayBuffer.load_from_file
               (np_savez (buffer_shapes (ReplayBuffer.ep_base eb)) file) None w
             = (store_episode file;; mret file) w
  end.

(** C4, amended. A buffer with [current_size > 0] comes back from
    [dump_to_file] followed by [load_from_file] on a fresh buffer of the
    same variant, schema and capacity with the same [current_size] and the
    same valid prefix in every field, provided that the arrays of the
    archive have the dimensions the loader asserts (the shapes of the
    schema have one dimension for a ring buffer, two for an episode
    buffer), that the arrays of the buffer have the shapes of the schema
    and hold values of [np.float32], and, for a ring buffer, that its
    [done] field is nonzero in the last valid transition.  The load resets
    nothing: it stores the loaded batch. *)
Theorem dump_load_round_trip (uninit_ring : string → nat → nat → elem)
    (uninit_episode : string → nat → nat → nat → elem) (g : np_random)
    (b : any_buffer elem) :
  comes_back b → round_trips uninit_ring uninit_episode g b.
Proof.
  destruct b as [rb|eb]; simpl.
  - intros (Hfilled & Hrank & Hshapes & Hf32 & flags & r & Hflags & Hr & Hnz).
    by eapply ring_round_trip.
  - intros (Hfilled & HT & Hrank & Hshapes & Hf32). by apply episode_round_trip.
Qed.
End RoundTripClaim.

(** The ring buffer [ring3] after one episode of two transitions. *)
Definition ring3_closed : @RingReplayBuffer.t Z :=
  self (after (store_all [transition 1 0; transition 2 1]) (mkWorld ring3 g0)).

Lemma dump_load_round_trip_witness :
  round_trips Z_nonzero (fun _ _ _ => 7%Z) (fun _ _ _ _ => 7%Z) g0
    (RingBuffer ring3_closed).
Proof.
  apply dump_load_round_trip. simpl.
  split; [|split; [|split; [|split]]].
  - split; [|split; [reflexivity|split; [discriminate|vm_compute; lia]]].
    split; simpl.
    + apply NoDup_cons. split; [|apply NoDup_singleton].
      intros Hin%list_elem_of_singleton. discriminate Hin.
    + repeat constructor.
  - repeat constructor.
  - repeat (apply Forall_cons; split); try apply Forall_nil_2;
      intros shape [= <-]; by repeat constructor.
  - repeat (apply Forall_cons; split); try apply Forall_nil_2;
      by repeat constructor.
  - exists [[0%Z]; [1%Z]; [0%Z]], [1%Z]. repeat split.
Defined.

(** ** Gathering and traversing *)

Section GatherFacts.
Context {A : Type}.
Implicit Types (a : list A) (l : list nat).

Lemma gather_ok a l xs :
  gather a l = Ok xs →
  length xs = length l ∧
  ∀ j i, l !! j = Some i → xs !! j = a !! i ∧ is_Some (a !! i).
Proof.
  revert xs. induction l as [|i0 l IH]; intros xs; simpl.
  - intros [= <-]. split; [done|]. intros j i Hj. inversion Hj.
  - destruct (a !! i0) as [x|] eqn:Hx; [|done].
    destruct (gather a l) as [xs'|]; [|done]. intros [= <-].
    destruct (IH xs' eq_refl) as [Hlen Hget]. split; [simpl; lia|].
    intros [|j] i Hj; simpl in *.
    + injection Hj as <-. rewrite Hx. eauto.
    + by apply Hget.
Qed.

Lemma gather_nil a : gather a [] = Ok [].
Proof. done. Qed.

Lemma gather2_ok (a : list (list A)) es ts xs :
  gather2 a es ts = Ok xs →
  length xs = Nat.min (length es) (length ts) ∧
  ∀ j e t, es !! j = Some e → ts !! j = Some t →
    ∃ ep x, a !! e = Some ep ∧ py_index ep t = Some x ∧ xs !! j = Some x.
Proof.
  revert ts xs. induction es as [|e0 es IH]; intros [|t0 ts] xs; simpl;
    try (intros [= <-]; split; [done|]; intros j e t He Ht;
         first [by inversion He | by inversion Ht]).
  destruct (a !! e0) as [ep|] eqn:Hep; [|done].
  destruct (py_index ep t0) as [x|] eqn:Hx; [|done].
  destruct (gather2 a es ts) as [xs'|] eqn:Hg; [|done]. intros [= <-].
  destruct (IH ts xs' Hg) as [Hlen Hget]. split; [simpl; lia|].
  intros [|j] e t He Ht; simpl in *.
  - injection He as <-. injection Ht as <-. eauto.
  - by apply Hget.
Qed.
End GatherFacts.

Section TraverseFacts.
Context {V W : Type}.

Lemma dict_traverse_get (f : V → result W) d d' k :
  dict_traverse f d = Ok d' →
  match dict_get k d with
  | Some a => ∃ b, f a = Ok b ∧ dict_get k d' = Some b
  | None => dict_get k d' = None
  end.
Proof.
  revert d'. induction d as [|[k0 v0] d IH]; intros d'; simpl.
  - by intros [= <-].
  - destruct (f v0) as [w0|] eqn:Hf; [|done].
    destruct (dict_traverse f d) as [r|]; [|done]. intros [= <-]. simpl.
    destruct (String.eqb k k0); [eauto|]. by apply IH.
Qed.

Lemma dict_traverse_keys (f : V → result W) d d' :
  dict_traverse f d = Ok d' → dict_keys d' = dict_keys d.
Proof.
  revert d'. induction d as [|[k0 v0] d IH]; intros d'; simpl.
  - by intros [= <-].
  - destruct (f v0) as [w0|]; [|done].
    destruct (dict_traverse f d) as [r|]; [|done]. intros [= <-]. simpl.
    f_equal. by apply IH.
Qed.
End TraverseFacts.

Lemma dict_traverse_id {V} (f : V → result V) d d' :
  (∀ a b, f a = Ok b → b = a) → dict_traverse f d = Ok d' → d' = d.
Proof.
  intros Hid. revert d'. induction d as [|[k0 v0] d IH]; intros d'; simpl.
  - by intros [= <-].
  - destruct (f v0) as [w0|] eqn:Hf; [|done].
    destruct (dict_traverse f d) as [r|]; [|done]. intros [= <-].
    rewrite (Hid _ _ Hf), (IH r eq_refl). done.
Qed.

Lemma reshape_batch_ok {A} n (a b : list A) :
  reshape_batch n a = Ok b → b = a ∧ length a = n.
Proof.
  unfold reshape_batch. destruct (length a =? n) eqn:E; [|done].
  apply Nat.eqb_eq in E. by intros [= <-].
Qed.

Lemma reshape_all_ok {A} n (d d' : dict (list A)) :
  dict_traverse (reshape_batch n) d = Ok d' →
  d' = d ∧ Forall (fun kv => length kv.2 = n) d.
Proof.
  intros H. split.
  - eapply dict_traverse_id; [|exact H]. intros a b Hab.
    by apply reshape_batch_ok in Hab as [-> _].
  - revert d' H. induction d as [|[k0 v0] d IH]; intros d'; simpl; [done|].
    destruct (reshape_batch n v0) as [w0|] eqn:Hf; [|done].
    destruct (dict_traverse _ d) as [r|] eqn:Hr; [|done]. intros _.
    apply reshape_batch_ok in Hf as [_ Hlen].
    constructor; [done|]. by eapply IH.
Qed.

(** ** [np.where] *)

Lemma where_from_elem i mask j :
  j ∈ where_from i mask ↔ i ≤ j ∧ mask !! (j - i) = Some true.
Proof.
  revert i. induction mask as [|b mask IH]; intros i; simpl.
  - split; [intros H; inversion H|]. by intros [_ ?].
  - assert (j ∈ where_from (S i) mask ↔ i ≤ j ∧ (b :: mask) !! (j - i) = Some true
            ∧ j ≠ i) as Htail.
    { rewrite IH. split.
      - intros [Hle Hm]. replace (j - i) with (S (j - S i)) by lia.
        split; [lia|]. split; [done|lia].
      - intros (Hle & Hm & Hne).
        replace (j - i) with (S (j - S i)) in Hm by lia. split; [lia|done]. }
    destruct b.
    + rewrite elem_of_cons, Htail. split.
      * intros [->|(? & ? & ?)]; [|done]. by rewrite Nat.sub_diag.
      * intros [Hle Hm]. destruct (decide (j = i)); [by left|by right].
    + rewrite Htail. split; [by intros (? & ? & ?)|].
      intros [Hle Hm]. split; [done|]. split; [done|]. intros ->.
      by rewrite Nat.sub_diag in Hm.
Qed.

Lemma where_from_NoDup i mask : NoDup (where_from i mask).
Proof.
  revert i. induction mask as [|b mask IH]; intros i; simpl; [constructor|].
  destruct b; [|done]. constructor; [|done].
  rewrite where_from_elem. lia.
Qed.

Lemma np_where_elem mask j : j ∈ np_where mask ↔ mask !! j = Some true.
Proof.
  unfold np_where. rewrite where_from_elem, Nat.sub_0_r.
  split; [by intros [_ ?]|]. intros H. split; [lia|done].
Qed.

Lemma np_where_NoDup mask : NoDup (np_where mask).
Proof. apply where_from_NoDup. Qed.

(** ** The two samplers, statement by statement *)

Section SamplerEquations.
Context {elem : Type} `{!Scalar elem} (minus_100 : elem).
Implicit Types (buffers : dict (list (list (list elem)))) (g : np_random).

(** The records both samplers pick: [batch_size] episodes, then
    [batch_size] time steps. *)
Definition picked (T : nat) buffers (batch_size : nat) g
  : result (dict (list (list elem))) :=
  match dict_get "u" buffers with
  | None => Raise KeyError
  | Some u =>
      dict_traverse
        (fun a => gather2 a (randint_values 0 (length u) batch_size g)
                    (map Z.of_nat
                       (randint_values 0 T batch_size (advance batch_size g))))
        buffers
  end.

Lemma picked_lengths T buffers bs g tr0 :
  picked T buffers bs g = Ok tr0 →
  Forall (fun kv => length kv.2 = bs) tr0.
Proof.
  unfold picked. destruct (dict_get "u" buffers) as [u|]; [|done].
  generalize (randint_values 0 (length u) bs g)
             (length_randint_values 0 (length u) bs g).
  generalize (randint_values 0 T bs (advance bs g))
             (length_randint_values 0 T bs (advance bs g)).
  intros ts Hts es Hes. revert tr0.
  induction buffers as [|[k a] buffers IH]; intros tr0; simpl.
  - intros [= <-]. constructor.
  - destruct (gather2 a es (map Z.of_nat ts)) as [xs|] eqn:Hg; [|done].
    destruct (dict_traverse _ buffers) as [r|] eqn:Hr; [|done].
    intros [= <-]. constructor; [|by apply IH].
    simpl. apply gather2_ok in Hg as [-> _]. rewrite length_map. lia.
Qed.

Lemma uniform_sample_eq (self : @ReplayBuffer.t elem) buffers bs g :
  UniformReplayBuffer.sample_transitions self buffers bs g =
  match dict_get "u" buffers with
  | None => (Raise KeyError, g)
  | Some u =>
      if 0 <? length u then
        if 0 <? ReplayBuffer.T self then
          (picked (ReplayBuffer.T self) buffers bs g, advance bs (advance bs g))
        else (Raise ValueError, advance bs g)
      else (Raise ValueError, g)
  end.
Proof.
  unfold UniformReplayBuffer.sample_transitions.
  pose proof (picked_lengths (ReplayBuffer.T self) buffers bs g) as Hlen.
  unfold picked in *.
  destruct (dict_get "u" buffers) as [u|] eqn:Hu; [|done].
  repeat (progress unfold_monad). unfold randint.
  destruct (0 <? length u); [|done].
  destruct (0 <? ReplayBuffer.T self); [|done]. simpl.
  destruct (dict_traverse _ buffers) as [tr0|] eqn:Htr; [|done].
  specialize (Hlen tr0 eq_refl).
  assert (dict_traverse (reshape_batch bs) tr0 = Ok tr0) as ->.
  { clear -Hlen. induction Hlen as [|[k v] d Hv _ IH]; simpl; [done|].
    simpl in Hv. unfold reshape_batch at 1.
    apply Nat.eqb_eq in Hv. by rewrite Hv, IH. }
  pose proof (dict_traverse_get _ _ _ "u" Htr) as Hget. rewrite Hu in Hget.
  destruct Hget as (u' & _ & Hu'). rewrite Hu'.
  assert (length u' = bs) as ->.
  { rewrite Forall_forall in Hlen. apply (Hlen _ (dict_get_elem _ _ _ Hu')). }
  by rewrite Nat.eqb_refl.
Qed.

Lemma her_sample_eq (self : @HERReplayBuffer.t elem) buffers bs g :
  HERReplayBuffer.sample_transitions minus_100 self buffers bs g =
  let T := ReplayBuffer.T (HERReplayBuffer.replay self) in
  match dict_get "u" buffers with
  | None => (Raise KeyError, g)
  | Some u =>
      if 0 <? length u then
        if 0 <? T then
          match picked T buffers bs g with
          | Raise e => (Raise e, advance bs (advance bs g))
          | Ok tr0 =>
              (HERReplayBuffer.relabel minus_100 self buffers bs
                 (randint_values 0 (length u) bs g)
                 (randint_values 0 T bs (advance bs g))
                 (uniform_values bs (advance bs (advance bs g)))
                 (uniform_values bs (advance bs (advance bs (advance bs g))))
                 tr0,
               advance bs (advance bs (advance bs (advance bs g))))
          end
        else (Raise ValueError, advance bs g)
      else (Raise ValueError, g)
  end.
Proof.
  unfold HERReplayBuffer.sample_transitions, picked. cbv zeta.
  destruct (dict_get "u" buffers) as [u|] eqn:Hu; [|done].
  repeat (progress unfold_monad). unfold randint, uniform.
  destruct (0 <? length u); [|done].
  destruct (0 <? ReplayBuffer.T (HERReplayBuffer.replay self)); [|done]. simpl.
  by destruct (dict_traverse _ buffers) as [tr0|].
Qed.
End SamplerEquations.

(** ** Relabelling, step by step *)

Section RelabelFacts.
Context {elem : Type} `{!Scalar elem} (minus_100 : elem).
Implicit Types (buffers : dict (list (list (list elem))))
  (tr : dict (list (list elem))) (self : @HERReplayBuffer.t elem).

Lemma mark_q_get_ne hidx tr k :
  k ≠ "q" →
  dict_get k (HERReplayBuffer.mark_q minus_100 hidx tr) = dict_get k tr.
Proof.
  intros Hk. unfold HERReplayBuffer.mark_q.
  destruct (dict_get "q" tr) as [q|]; [|done].
  destruct (gather q hidx); [|done].
  apply dict_get_set_ne. congruence.
Qed.

Lemma mark_q_nil tr : HERReplayBuffer.mark_q minus_100 [] tr = tr.
Proof.
  unfold HERReplayBuffer.mark_q.
  destruct (dict_get "q" tr) as [q|] eqn:Hq; [|done].
  simpl. by apply dict_set_same.
Qed.

(** What [broadcast_axis] returns: the list itself, or its one entry
    repeated. *)
Lemma broadcast_axis_ok {A} n (v w : list A) :
  broadcast_axis n v = Ok w →
  length w = n ∧ (length v = n → w = v) ∧
  (w = v ∨ ∃ x, v = [x] ∧ w = replicate n x).
Proof.
  unfold broadcast_axis. destruct (length v =? n) eqn:E.
  - apply Nat.eqb_eq in E. intros [= <-]. repeat split; try done. by left.
  - apply Nat.eqb_neq in E. destruct v as [|x [|]]; try done.
    intros [= <-]. rewrite length_replicate. repeat split; try done.
    right. by exists x.
Qed.

(** An assignment of rows that goes through. *)
Lemma setrows_inv to from (a : list (list elem)) l v a' :
  HERReplayBuffer.setrows to from a l v = Ok a' →
  broadcastable from to = true ∧
  ∃ v', assign_all (fun old new => broadcast_axis (length old) new) a l v = Ok v' ∧
        a' = scatter a l v'.
Proof.
  unfold HERReplayBuffer.setrows. destruct (broadcastable from to); [|done].
  destruct (assign_all _ a l v) as [v'|]; [|done]. intros [= <-]. eauto.
Qed.

Lemma setrows_nil to from (a : list (list elem)) v a' :
  HERReplayBuffer.setrows to from a [] v = Ok a' → a' = a.
Proof. intros (_ & v' & Hv' & ->)%setrows_inv. done. Qed.

(** The rows written are the same for two arrays that agree. *)
Lemma setrows_same to from to' from' (a : list (list elem)) l v a1 a2 :
  HERReplayBuffer.setrows to from a l v = Ok a1 →
  HERReplayBuffer.setrows to' from' a l v = Ok a2 → a1 = a2.
Proof.
  intros (_ & v1 & Hv1 & ->)%setrows_inv (_ & v2 & Hv2 & ->)%setrows_inv.
  congruence.
Qed.

(** The row of a record that is relabelled: the new row, broadcast to the
    length of the row it replaces. *)
Lemma setrows_lookup to from (a : list (list elem)) l v a' j i x :
  HERReplayBuffer.setrows to from a l v = Ok a' →
  NoDup l → l !! j = Some i → v !! j = Some x →
  ∃ w, a' !! i = Some w ∧ broadcast_axis (length w) x = Ok w.
Proof.
  intros (_ & v' & Hv' & ->)%setrows_inv Hnd Hl Hx.
  destruct (assign_all_lookup _ _ _ _ _ _ _ _ Hv' Hl Hx)
    as (old & w & Hold & Hw & Hw').
  exists w. split.
  - apply (scatter_lookup a l v' j i w Hnd Hl Hw').
    by eapply lookup_lt_Some.
  - destruct (broadcast_axis_ok _ _ _ Hw) as [Hlen _]. by rewrite Hlen.
Qed.

Lemma setrows_lookup_notin to from (a : list (list elem)) l v a' i :
  HERReplayBuffer.setrows to from a l v = Ok a' → i ∉ l → a' !! i = a !! i.
Proof.
  intros (_ & v' & Hv' & ->)%setrows_inv Hi. by apply scatter_lookup_notin.
Qed.

Lemma setrows_length to from (a : list (list elem)) l v a' :
  HERReplayBuffer.setrows to from a l v = Ok a' → length a' = length a.
Proof. intros (_ & v' & Hv' & ->)%setrows_inv. apply length_scatter. Qed.

(** The transitions after relabelling and marking, before the reward:
    [g] and [g_2] are the arrays with the hindsight goals written. *)
Definition relabelled (hidx : list nat) (g g_2 : list (list elem))
    tr : dict (list (list elem)) :=
  HERReplayBuffer.mark_q minus_100 hidx
    (dict_set "g_2" g_2 (dict_set "g" g tr)).

Lemma relabel_inv self buffers bs eidx ts coins us tr0 trs :
  HERReplayBuffer.relabel minus_100 self buffers bs eidx ts coins us tr0
  = Ok trs →
  let T := ReplayBuffer.T (HERReplayBuffer.replay self) in
  let hidx := HERReplayBuffer.her_indexes_of (HERReplayBuffer.future_p self) coins in
  ∃ future_t ag her_episodes future_ag g0 g20 g1 g21 ag_2 g_2,
    gather (HERReplayBuffer.future_t_of ts
              (HERReplayBuffer.future_offset_of T us ts)) hidx = Ok future_t ∧
    dict_get "ag" buffers = Some ag ∧
    gather eidx hidx = Ok her_episodes ∧
    gather2 ag her_episodes future_t = Ok future_ag ∧
    dict_get "g" tr0 = Some g0 ∧
    dict_get "g_2" tr0 = Some g20 ∧
    HERReplayBuffer.setrows (last_axis "g" buffers) (last_axis "ag" buffers)
      g0 hidx future_ag = Ok g1 ∧
    HERReplayBuffer.setrows (last_axis "g_2" buffers) (last_axis "ag" buffers)
      g20 hidx future_ag = Ok g21 ∧
    dict_get "ag_2" (relabelled hidx g1 g21 tr0) = Some ag_2 ∧
    dict_get "g_2" (relabelled hidx g1 g21 tr0) = Some g_2 ∧
    trs = dict_set "r"
            (map (fun x => [x])
               (HERReplayBuffer.reward_fun self ag_2 g_2
                  (HERReplayBuffer.info_of (relabelled hidx g1 g21 tr0))))
            (relabelled hidx g1 g21 tr0) ∧
    Forall (fun kv => length kv.2 = bs) trs.
Proof.
  unfold HERReplayBuffer.relabel. cbv zeta.
  unfold mbind, result_bind, option_or.
  destruct (gather _ _) as [future_t|] eqn:Hft; [|done].
  destruct (dict_get "ag" buffers) as [ag|] eqn:Hag; [|done].
  destruct (gather eidx _) as [her_episodes|] eqn:Hhe; [|done].
  destruct (gather2 ag her_episodes future_t) as [future_ag|] eqn:Hfa; [|done].
  destruct (dict_get "g" tr0) as [g0|] eqn:Hg0; [|done].
  destruct (HERReplayBuffer.setrows _ _ g0 _ _) as [g1|] eqn:Hg1; [|done].
  rewrite dict_get_set_ne by done.
  destruct (dict_get "g_2" tr0) as [g20|] eqn:Hg20; [|done].
  destruct (HERReplayBuffer.setrows _ _ g20 _ _) as [g21|] eqn:Hg21; [|done].
  fold (relabelled
          (HERReplayBuffer.her_indexes_of (HERReplayBuffer.future_p self) coins)
          g1 g21 tr0).
  destruct (dict_get "ag_2" (relabelled _ _ _ _)) as [ag_2|] eqn:Hag2; [|done].
  destruct (dict_get "g_2" (relabelled _ _ _ _)) as [g_2|] eqn:Hg2; [|done].
  destruct (dict_traverse _ _) as [trs'|] eqn:Hre; [|done].
  apply reshape_all_ok in Hre as [-> Hlen].
  destruct (dict_get "u" _) as [u'|]; [|done].
  destruct (length u' =? bs); [|done]. intros [= <-].
  exists future_t, ag, her_episodes, future_ag, g0, g20, g1, g21, ag_2, g_2.
  repeat split; done.
Qed.
End RelabelFacts.

(** ** Hindsight goals come from later in the episode *)

Section Doubles.
Local Open Scope Z_scope.

Lemma round_half_even_spec num den :
  0 ≤ num → 0 < den →
  let q := round_half_even num den in
  0 ≤ q ∧ 2 * q * den ≤ 2 * num + den ∧ 2 * num ≤ 2 * q * den + den ∧
  (∀ N, num ≤ N * den → q ≤ N) ∧
  (∀ N, N * den ≤ num → N ≤ q).
Proof.
  intros Hnum Hden. unfold round_half_even. cbv zeta.
  pose proof (Z.div_mod num den ltac:(lia)) as Hdm.
  pose proof (Z.mod_pos_bound num den Hden) as Hr.
  pose proof (Z.div_pos num den Hnum Hden) as Hq.
  set (q := num / den) in *. set (r := num mod den) in *.
  assert (∀ N, num ≤ N * den → r = 0 ∨ q + 1 ≤ N) as Hup.
  { intros N HN. destruct (Z.eq_dec r 0); [by left|right]. nia. }
  assert (∀ N, num ≤ N * den → q ≤ N) as Hup'.
  { intros N HN. nia. }
  assert (∀ N, N * den ≤ num → N ≤ q) as Hlow.
  { intros N HN. nia. }
  destruct (2 * r <? den) eqn:E1; [apply Z.ltb_lt in E1|apply Z.ltb_ge in E1].
  { split; [nia|]. split; [nia|]. split; [nia|]. split; [apply Hup'|apply Hlow]. }
  assert (∀ N, num ≤ N * den → q + 1 ≤ N) as Hup1.
  { intros N HN. destruct (Hup N HN); lia. }
  assert (∀ N, N * den ≤ num → N ≤ q + 1) as Hlow1.
  { intros N HN. specialize (Hlow N HN). lia. }
  destruct (den <? 2 * r) eqn:E2; [apply Z.ltb_lt in E2|apply Z.ltb_ge in E2].
  { split; [nia|]. split; [nia|]. split; [nia|]. split; [apply Hup1|apply Hlow1]. }
  destruct (Z.even q).
  { split; [nia|]. split; [nia|]. split; [nia|]. split; [apply Hup'|apply Hlow]. }
  split; [nia|]. split; [nia|]. split; [nia|]. split; [apply Hup1|apply Hlow1].
Qed.

Lemma scaling_spec a d :
  0 < a → 0 < d →
  ∃ eu ed, 0 ≤ eu ∧ 0 ≤ ed ∧ scaling a d = (2 ^ eu, 2 ^ ed) ∧
    2 ^ 52 * (d * 2 ^ ed) ≤ a * 2 ^ eu < 2 ^ 53 * (d * 2 ^ ed).
Proof.
  intros Ha Hd. unfold scaling. cbv zeta.
  pose proof (Z.log2_spec a Ha) as [Hla1 Hla2].
  pose proof (Z.log2_spec d Hd) as [Hld1 Hld2].
  pose proof (Z.log2_nonneg a) as Hla0. pose proof (Z.log2_nonneg d) as Hld0.
  set (la := Z.log2 a) in *. set (ld := Z.log2 d) in *.
  set (k := 52 - (la - ld)).
  assert (2 ^ 51 * (d * 2 ^ Z.max 0 (- k)) < a * 2 ^ Z.max 0 k
          < 2 ^ 53 * (d * 2 ^ Z.max 0 (- k))) as Hcore.
  { destruct (Z.le_gt_cases 0 k) as [Hk|Hk].
    - rewrite (Z.max_r 0 k), (Z.max_l 0 (- k)) by lia.
      rewrite Z.pow_0_r, Z.mul_1_r.
      assert (2 ^ la * 2 ^ k = 2 ^ 51 * 2 ^ Z.succ ld) as E1.
      { rewrite <- !Z.pow_add_r by lia. f_equal. lia. }
      assert (2 ^ Z.succ la * 2 ^ k = 2 ^ 53 * 2 ^ ld) as E2.
      { rewrite <- !Z.pow_add_r by lia. f_equal. lia. }
      pose proof (Z.pow_pos_nonneg 2 k ltac:(lia) Hk).
      split; nia.
    - rewrite (Z.max_l 0 k), (Z.max_r 0 (- k)) by lia.
      rewrite Z.pow_0_r, Z.mul_1_r.
      assert (2 ^ 51 * (2 ^ Z.succ ld * 2 ^ (- k)) = 2 ^ la) as E1.
      { rewrite <- !Z.pow_add_r by lia. f_equal. lia. }
      assert (2 ^ 53 * (2 ^ ld * 2 ^ (- k)) = 2 ^ Z.succ la) as E2.
      { rewrite <- !Z.pow_add_r by lia. f_equal. lia. }
      pose proof (Z.pow_pos_nonneg 2 (- k) ltac:(lia) ltac:(lia)).
      split; nia. }
  destruct (a * 2 ^ Z.max 0 k <? 2 ^ 52 * (d * 2 ^ Z.max 0 (- k))) eqn:E;
    [apply Z.ltb_lt in E|apply Z.ltb_ge in E].
  - exists (Z.max 0 k + 1), (Z.max 0 (- k)).
    split; [lia|]. split; [lia|]. split.
    + f_equal. rewrite Z.pow_add_r by lia. lia.
    + rewrite Z.pow_add_r by lia. lia.
  - exists (Z.max 0 k), (Z.max 0 (- k)).
    split; [lia|]. split; [lia|]. split; [done|]. lia.
Qed.

Lemma round_double_zero (x : Q) : Qnum x = 0 → round_double x = 0%Q.
Proof. intros H. unfold round_double. by rewrite H. Qed.

Lemma round_double_pos (x : Q) :
  0 < Qnum x →
  ∃ eu ed m,
    0 ≤ eu ∧ 0 ≤ ed ∧
    round_double x = Qmake (m * 2 ^ ed) (Z.to_pos (2 ^ eu)) ∧
    m = round_half_even (Qnum x * 2 ^ eu) (Zpos (Qden x) * 2 ^ ed) ∧
    2 ^ 52 * (Zpos (Qden x) * 2 ^ ed) ≤ Qnum x * 2 ^ eu
      < 2 ^ 53 * (Zpos (Qden x) * 2 ^ ed) ∧
    2 ^ 52 ≤ m ≤ 2 ^ 53.
Proof.
  intros Hx. unfold round_double. cbv zeta.
  rewrite (Z.abs_eq (Qnum x)) by lia.
  assert ((Qnum x =? 0) = false) as -> by (apply Z.eqb_neq; lia).
  destruct (scaling_spec (Qnum x) (Zpos (Qden x)) Hx ltac:(done))
    as (eu & ed & Heu & Hed & -> & Hs).
  exists eu, ed, (round_half_even (Qnum x * 2 ^ eu) (Zpos (Qden x) * 2 ^ ed)).
  split; [done|]. split; [done|]. split.
  { rewrite (Z.sgn_pos (Qnum x)) by lia. by rewrite Z.mul_1_l. }
  split; [done|]. split; [done|].
  pose proof (Z.pow_pos_nonneg 2 eu ltac:(lia) Heu) as Hpu.
  pose proof (Z.pow_pos_nonneg 2 ed ltac:(lia) Hed) as Hpd.
  destruct (round_half_even_spec (Qnum x * 2 ^ eu) (Zpos (Qden x) * 2 ^ ed))
    as (_ & _ & _ & Hup & Hlow); [nia|nia|].
  split; [apply Hlow|apply Hup]; lia.
Qed.

Lemma future_offset_bound (r : N) (n : Z) :
  0 < n →
  0 ≤ astype_int (round_double (unit_interval r * round_double (inject_Z n)))
    < n.
Proof.
  intros Hn.
  destruct (round_double_pos (inject_Z n) Hn)
    as (eu1 & ed1 & m1 & Heu1 & Hed1 & -> & Hm1 & Hs1 & Hb1).
  cbn [inject_Z Qnum Qden] in Hm1, Hs1.
  unfold unit_interval.
  pose proof (Z.mod_pos_bound (Z.of_N r) (Zpos two53) ltac:(done)) as Hc.
  revert Hc. generalize (Z.of_N r mod Zpos two53). intros c Hc.
  change (Zpos two53) with (2 * 2 ^ 52) in Hc.
  pose proof (Z.pow_pos_nonneg 2 eu1 ltac:(lia) Heu1) as HU1.
  pose proof (Z.pow_pos_nonneg 2 ed1 ltac:(lia) Hed1) as HD1.
  pose proof (Z.pow_pos_nonneg 2 52 ltac:(lia) ltac:(lia)) as HP.
  destruct (Z.eq_dec c 0) as [->|Hc0].
  { rewrite round_double_zero by done. unfold astype_int. cbn [Qnum Qden].
    rewrite Z.quot_0_l by done. lia. }
  destruct (round_double_pos
              (Qmake c two53 * Qmake (m1 * 2 ^ ed1) (Z.to_pos (2 ^ eu1))))
    as (eu2 & ed2 & m2 & Heu2 & Hed2 & -> & Hm2 & Hs2 & Hb2).
  { cbn [Qmult Qnum Qden]. nia. }
  cbn [Qmult Qnum Qden] in Hm2, Hs2.
  rewrite Pos2Z.inj_mul, Z2Pos.id in Hm2, Hs2 by done.
  change (Zpos two53) with (2 * 2 ^ 52) in Hm2, Hs2.
  change (2 ^ 53) with (2 * 2 ^ 52) in Hs1, Hb1, Hs2, Hb2.
  pose proof (Z.pow_pos_nonneg 2 eu2 ltac:(lia) Heu2) as HU2.
  pose proof (Z.pow_pos_nonneg 2 ed2 ltac:(lia) Hed2) as HD2.
  unfold astype_int. cbn [Qnum Qden]. rewrite Z2Pos.id by done.
  assert (0 < m2 ∧ 0 < m1) as [Hm2p Hm1p] by lia.
  destruct (round_half_even_spec (n * 2 ^ eu1) (1 * 2 ^ ed1))
    as (_ & _ & _ & Hup1 & _); [apply Z.mul_nonneg_nonneg; lia|lia|].
  rewrite <- Hm1 in Hup1.
  destruct (round_half_even_spec (c * (m1 * 2 ^ ed1) * 2 ^ eu2)
              (2 * 2 ^ 52 * 2 ^ eu1 * 2 ^ ed2))
    as (_ & Hnear & _ & _ & _).
  { repeat apply Z.mul_nonneg_nonneg; lia. }
  { repeat apply Z.mul_pos_pos; lia. }
  rewrite <- Hm2 in Hnear.
  assert (2 ^ (ed1 + eu2) ≤ 2 ^ (ed2 + eu1) →
          2 ^ ed2 * 2 ^ eu1
          = 2 ^ ed1 * 2 ^ eu2 * 2 ^ (ed2 + eu1 - (ed1 + eu2)) ∧
          0 < 2 ^ (ed2 + eu1 - (ed1 + eu2))) as Hdiv.
  { intros Hle. apply Z.pow_le_mono_r_iff in Hle; [|lia|lia]. split.
    - rewrite <- !Z.pow_add_r by lia. f_equal. lia.
    - apply Z.pow_pos_nonneg; lia. }
  assert (2 ^ (ed2 + eu1) < 2 ^ (ed1 + eu2) →
          2 * (2 ^ ed2 * 2 ^ eu1) ≤ 2 ^ ed1 * 2 ^ eu2) as Hhalf.
  { intros Hlt. apply Z.pow_lt_mono_r_iff in Hlt; [|lia|lia].
    rewrite <- !Z.pow_add_r by lia.
    replace (2 * 2 ^ (ed2 + eu1)) with (2 ^ (ed2 + eu1 + 1))
      by (rewrite Z.pow_add_r by lia; lia).
    apply Z.pow_le_mono_r; lia. }
  rewrite !Z.pow_add_r in Hdiv, Hhalf by lia.
  revert Hdiv Hhalf. generalize (2 ^ (ed2 + eu1 - (ed1 + eu2))). intros t.
  set (P := 2 ^ 52) in *.
  set (U1 := 2 ^ eu1) in *. set (D1 := 2 ^ ed1) in *.
  set (U2 := 2 ^ eu2) in *. set (D2 := 2 ^ ed2) in *.
  clearbody P U1 D1 U2 D2. clear Hm1 Hm2. intros Hdiv Hhalf.
  rewrite Z.quot_div_nonneg by nia.
  split; [apply Z.div_pos; nia|].
  apply Z.div_lt_upper_bound; [done|].
  destruct (Z.lt_ge_cases (m2 * D2) (U2 * n)) as [|Hge]; [done|].
  exfalso.
  (* the product rounds below the double of [n] *)
  assert (m2 * D2 * U1 < m1 * D1 * U2) as HA.
  { destruct (Z.lt_ge_cases (m2 * D2 * U1) (m1 * D1 * U2)) as [|HP']; [done|].
    exfalso.
    assert (2 * (m1 * D1 * U2) ≤ 2 * P * U1 * D2) as H1.
    { assert (2 * (2 * P) * (m1 * D1 * U2) ≤ 2 * m2 * (2 * P * U1 * D2)) by nia.
      assert (2 * (2 * P) * (m1 * D1 * U2)
              ≤ 2 * (2 * P - 1) * (m1 * D1 * U2) + 2 * P * U1 * D2) by nia.
      nia. }
    assert (c * (m1 * D1 * U2) >= 2 * P * (m1 * D1 * U2)) as H2 by nia.
    assert (0 < m1 * D1 * U2) as H3 by nia.
    nia. }
  assert (n * U1 < m1 * D1) as Hupw by nia.
  destruct (Z.le_gt_cases (D1 * U2) (D2 * U1)) as [HE|HE].
  - destruct Hdiv as [Hdiv Ht]; [lia|].
    specialize (Hup1 (m2 * t)).
    assert (n * U1 ≤ m2 * t * (1 * D1)) as Hx.
    { assert (n * U1 * U2 ≤ m2 * t * D1 * U2) by nia. nia. }
    specialize (Hup1 Hx).
    assert (m1 * D1 * U2 ≤ m2 * t * D1 * U2) by nia. nia.
  - specialize (Hhalf ltac:(lia)).
    assert (n * U1 = P * D1) as Heq.
    { assert (m2 * D2 * U1 ≤ P * D1 * U2) by nia.
      assert (P * D1 * U2 ≤ n * U1 * U2) by nia.
      assert (n * U1 * U2 ≤ m2 * D2 * U1) by nia. nia. }
    specialize (Hup1 P ltac:(lia)). nia.
Qed.

Lemma round_double_nonneg (x : Q) : (0 <= x)%Q → (0 <= round_double x)%Q.
Proof.
  unfold Qle at 1. cbn [Qnum Qden]. rewrite Z.mul_1_r. intros Hx.
  destruct (Z.eq_dec (Qnum x) 0) as [E|E].
  { rewrite round_double_zero by done. apply Qle_refl. }
  destruct (round_double_pos x ltac:(lia))
    as (eu & ed & m & Heu & Hed & -> & _ & _ & Hm).
  pose proof (Z.pow_pos_nonneg 2 ed ltac:(lia) Hed).
  pose proof (Z.pow_pos_nonneg 2 52 ltac:(lia) ltac:(lia)).
  unfold Qle. cbn [Qnum Qden]. nia.
Qed.

Lemma round_double_le_1 (x : Q) :
  (0 <= x)%Q → (x <= 1)%Q → (round_double x <= 1)%Q.
Proof.
  unfold Qle at 1 2. cbn [Qnum Qden]. rewrite Z.mul_1_r, Z.mul_1_l.
  intros Hx Hx1.
  destruct (Z.eq_dec (Qnum x) 0) as [E|E].
  { by rewrite round_double_zero by done. }
  destruct (round_double_pos x ltac:(lia))
    as (eu & ed & m & Heu & Hed & -> & Hm & Hs & Hb).
  pose proof (Z.pow_pos_nonneg 2 ed ltac:(lia) Hed) as HD.
  pose proof (Z.pow_pos_nonneg 2 eu ltac:(lia) Heu) as HU.
  pose proof (Z.pow_pos_nonneg 2 52 ltac:(lia) ltac:(lia)) as HP.
  unfold Qle. cbn [Qnum Qden]. rewrite Z2Pos.id, Z.mul_1_r, Z.mul_1_l by done.
  destruct (round_half_even_spec (Qnum x * 2 ^ eu) (Zpos (Qden x) * 2 ^ ed))
    as (_ & _ & _ & Hup & _); [nia|nia|]. rewrite <- Hm in Hup.
  assert (ed <= eu) as Hle.
  { apply (Z.pow_le_mono_r_iff 2); [lia|lia|]. nia. }
  assert (2 ^ eu = 2 ^ (eu - ed) * 2 ^ ed) as Heq.
  { rewrite <- Z.pow_add_r by lia. f_equal. lia. }
  specialize (Hup (2 ^ (eu - ed))). rewrite Heq in *.
  pose proof (Z.pow_pos_nonneg 2 (eu - ed) ltac:(lia) ltac:(lia)).
  nia.
Qed.

Lemma round_double_ge_1 (x : Q) : (1 <= x)%Q → (1 <= round_double x)%Q.
Proof.
  unfold Qle at 1. cbn [Qnum Qden]. rewrite Z.mul_1_r, Z.mul_1_l.
  intros Hx.
  destruct (round_double_pos x ltac:(lia))
    as (eu & ed & m & Heu & Hed & -> & Hm & Hs & Hb).
  pose proof (Z.pow_pos_nonneg 2 ed ltac:(lia) Hed) as HD.
  pose proof (Z.pow_pos_nonneg 2 eu ltac:(lia) Heu) as HU.
  pose proof (Z.pow_pos_nonneg 2 52 ltac:(lia) ltac:(lia)) as HP.
  unfold Qle. cbn [Qnum Qden]. rewrite Z2Pos.id, Z.mul_1_r, Z.mul_1_l by done.
  destruct (round_half_even_spec (Qnum x * 2 ^ eu) (Zpos (Qden x) * 2 ^ ed))
    as (_ & _ & _ & _ & Hlow); [nia|nia|]. rewrite <- Hm in Hlow.
  destruct (Z.le_gt_cases eu ed) as [Hle|Hgt].
  - pose proof (Z.pow_le_mono_r 2 eu ed ltac:(lia) Hle). nia.
  - assert (2 ^ eu = 2 ^ (eu - ed) * 2 ^ ed) as Heq.
    { rewrite <- Z.pow_add_r by lia. f_equal. lia. }
    specialize (Hlow (2 ^ (eu - ed))). rewrite Heq in *.
    pose proof (Z.pow_pos_nonneg 2 (eu - ed) ltac:(lia) ltac:(lia)).
    nia.
Qed.

Lemma future_p_of_range (k : Z) :
  0 <= k → (0 <= HERReplayBuffer.future_p_of k)%Q ∧ (HERReplayBuffer.future_p_of k <= 1)%Q.
Proof.
  intros Hk. unfold HERReplayBuffer.future_p_of.
  assert (1 <= round_double (inject_Z (1 + k)))%Q as H1.
  { apply round_double_ge_1. unfold Qle. simpl. lia. }
  set (y1 := round_double (inject_Z (1 + k))) in *.
  assert (0 <= 1 / y1)%Q as H2.
  { apply Qle_shift_div_l; [eapply Qlt_le_trans; [|exact H1]; done|].
    rewrite Qmult_0_l. done. }
  assert (1 / y1 <= 1)%Q as H3.
  { apply Qle_shift_div_r; [eapply Qlt_le_trans; [|exact H1]; done|].
    by rewrite Qmult_1_l. }
  pose proof (round_double_nonneg _ H2) as H4.
  pose proof (round_double_le_1 _ H2 H3) as H5.
  set (y2 := round_double (1 / y1)) in *.
  assert (0 <= 1 - y2)%Q as H6.
  { unfold Qminus. rewrite <- (Qplus_opp_r y2).
    apply Qplus_le_l. exact H5. }
  assert (1 - y2 <= 1)%Q as H7.
  { unfold Qminus. rewrite <- (Qplus_0_r 1) at 2.
    apply Qplus_le_r. apply (Qopp_le_compat 0 y2) in H4. exact H4. }
  split; [by apply round_double_nonneg|by apply round_double_le_1].
Qed.

Lemma future_p_of_0 : HERReplayBuffer.future_p_of 0 = 0%Q.
Proof. reflexivity. Qed.
End Doubles.

Lemma uniform_values_lookup n g i u :
  uniform_values n g !! i = Some u → ∃ r, u = unit_interval r.
Proof.
  unfold uniform_values. rewrite list_lookup_fmap.
  destruct (raw_draws g n !! i) as [r|]; [|done]. intros [= <-]. eauto.
Qed.

Lemma length_uniform_values n g : length (uniform_values n g) = n.
Proof. unfold uniform_values. by rewrite length_map, length_raw_draws. Qed.

Lemma her_indexes_lt p coins i :
  i ∈ HERReplayBuffer.her_indexes_of p coins → i < length coins.
Proof.
  unfold HERReplayBuffer.her_indexes_of. rewrite np_where_elem.
  intros H%lookup_lt_Some. by rewrite length_map in H.
Qed.

Section FutureGoal.
Context {elem : Type} `{!Scalar elem} (minus_100 : elem).

(** C1. In a batch [sample_transitions] of the hindsight buffer returns,
    every record [i] chosen for relabelling, picked at episode [e] and
    step [t], carries in [g] and in [g_2] the achieved goal the buffer
    stores for episode [e] at step [t + 1 + off], where the offset [off]
    drawn for the record lies in [[0, T - t)]: a step after [t] and at most
    [T].  The goal is written as an assignment writes it, broadcast to the
    length of the row it replaces: it is the achieved goal itself where
    their lengths agree. *)
Theorem her_relabel_future_goal (self : @HERReplayBuffer.t elem)
    (buffers : dict (list (list (list elem)))) (batch_size : nat)
    (g g' : np_random) (trs : dict (list (list elem))) :
  HERReplayBuffer.sample_transitions minus_100 self buffers batch_size g
  = (Ok trs, g') →
  ∃ u ag,
    dict_get "u" buffers = Some u ∧ dict_get "ag" buffers = Some ag ∧
    let T := ReplayBuffer.T (HERReplayBuffer.replay self) in
    let episode_idxs := randint_values 0 (length u) batch_size g in
    let t_samples := randint_values 0 T batch_size (advance batch_size g) in
    let coins :=
      uniform_values batch_size (advance batch_size (advance batch_size g)) in
    let us :=
      uniform_values batch_size
        (advance batch_size (advance batch_size (advance batch_size g))) in
    ∀ i, i ∈ HERReplayBuffer.her_indexes_of (HERReplayBuffer.future_p self) coins →
      ∃ e t off ep v goal goal_2,
        episode_idxs !! i = Some e ∧ t_samples !! i = Some t ∧
        HERReplayBuffer.future_offset_of T us t_samples !! i = Some off ∧
        (0 ≤ off < Z.of_nat T - Z.of_nat t)%Z ∧
        t < t + 1 + Z.to_nat off ≤ T ∧
        ag !! e = Some ep ∧ ep !! (t + 1 + Z.to_nat off) = Some v ∧
        dict_get "g" trs ≫= (.!! i) = Some goal ∧
        dict_get "g_2" trs ≫= (.!! i) = Some goal_2 ∧
        broadcast_axis (length goal) v = Ok goal ∧
        broadcast_axis (length goal_2) v = Ok goal_2 ∧
        (length goal = length v → goal = v) ∧
        (length goal_2 = length v → goal_2 = v).
Proof.
  rewrite her_sample_eq. cbv zeta.
  destruct (dict_get "u" buffers) as [u|] eqn:Hu; [|done].
  destruct (0 <? length u) eqn:Hlu; [|done].
  destruct (0 <? ReplayBuffer.T (HERReplayBuffer.replay self)) eqn:HT; [|done].
  apply Nat.ltb_lt in Hlu, HT.
  destruct (picked _ buffers batch_size g) as [tr0|] eqn:Hpick; [|done].
  intros [= Hrel _].
  apply relabel_inv in Hrel. cbv zeta in Hrel.
  destruct Hrel as (future_t & ag & her_episodes & future_ag & g0 & g20 & g1
                    & g21 & ag_2 & g_2 & Hft & Hag & Hhe & Hfa & Hg0 & Hg20
                    & Hg1 & Hg21 & _ & _ & -> & _).
  exists u, ag. split; [done|]. split; [done|].
  set (T := ReplayBuffer.T (HERReplayBuffer.replay self)) in *.
  set (eidx := randint_values 0 (length u) batch_size g) in *.
  set (ts := randint_values 0 T batch_size (advance batch_size g)) in *.
  set (us := uniform_values batch_size
               (advance batch_size (advance batch_size (advance batch_size g))))
    in *.
  set (coins := uniform_values batch_size
                  (advance batch_size (advance batch_size g))) in *.
  set (hidx := HERReplayBuffer.her_indexes_of (HERReplayBuffer.future_p self)
                 coins) in *.
  intros i Hi.
  assert (i < batch_size) as Hib.
  { apply her_indexes_lt in Hi. unfold coins in Hi.
    by rewrite length_uniform_values in Hi. }
  destruct (lookup_lt_is_Some_2 eidx i) as [e He];
    [unfold eidx; by rewrite length_randint_values|].
  destruct (lookup_lt_is_Some_2 ts i) as [t Ht];
    [unfold ts; by rewrite length_randint_values|].
  destruct (lookup_lt_is_Some_2 us i) as [uq Huq];
    [unfold us; by rewrite length_uniform_values|].
  assert (t < T) as HtT.
  { pose proof (randint_values_range 0 T batch_size (advance batch_size g) HT)
      as Hr. rewrite Forall_forall in Hr.
    apply (Hr t). by eapply list_elem_of_lookup_2. }
  destruct (uniform_values_lookup _ _ _ _ Huq) as [r ->].
  set (off := astype_int
                (round_double
                   (unit_interval r
                    * round_double (inject_Z (Z.of_nat T - Z.of_nat t))))).
  assert (0 ≤ off < Z.of_nat T - Z.of_nat t)%Z as Hoff
    by (apply future_offset_bound; lia).
  assert (HERReplayBuffer.future_offset_of T us ts !! i = Some off) as Hfo.
  { unfold HERReplayBuffer.future_offset_of.
    rewrite lookup_zip_with, Huq. simpl. by rewrite Ht. }
  assert (HERReplayBuffer.future_t_of ts
            (HERReplayBuffer.future_offset_of T us ts) !! i
          = Some (Z.of_nat t + 1 + off)%Z) as Hfti.
  { unfold HERReplayBuffer.future_t_of at 1.
    rewrite lookup_zip_with, Ht. simpl. by rewrite Hfo. }
  apply list_elem_of_lookup in Hi as [j Hj].
  destruct (gather_ok _ _ _ Hft) as [_ Hftj].
  destruct (Hftj j i Hj) as [Hftj' _]. rewrite Hfti in Hftj'.
  destruct (gather_ok _ _ _ Hhe) as [_ Hhej].
  destruct (Hhej j i Hj) as [Hhej' _]. rewrite He in Hhej'.
  destruct (gather2_ok _ _ _ _ Hfa) as [_ Hfaj].
  destruct (Hfaj j e _ Hhej' Hftj') as (ep & v & Hep & Hv & Hfav).
  destruct (setrows_lookup _ _ _ _ _ _ j i v Hg1 (np_where_NoDup _) Hj Hfav)
    as (goal & Hgoal & Hbg).
  destruct (setrows_lookup _ _ _ _ _ _ j i v Hg21 (np_where_NoDup _) Hj Hfav)
    as (goal_2 & Hgoal2 & Hbg2).
  exists e, t, off, ep, v, goal, goal_2.
  split; [done|]. split; [done|]. split; [done|]. split; [done|].
  split; [lia|]. split; [done|]. split.
  { unfold py_index in Hv.
    assert ((0 <=? Z.of_nat t + 1 + off)%Z = true) as Hnn
      by (apply Z.leb_le; lia).
    rewrite Hnn in Hv. rewrite <- Hv. f_equal. lia. }
  unfold relabelled. split; [|split; [|split; [done|split; [done|split]]]].
  - rewrite dict_get_set_ne, mark_q_get_ne, dict_get_set_ne, dict_get_set_eq
      by done.
    done.
  - rewrite dict_get_set_ne, mark_q_get_ne, dict_get_set_eq by done. done.
  - intros Hl. destruct (broadcast_axis_ok _ _ _ Hbg) as (_ & Heq & _).
    by apply Heq.
  - intros Hl. destruct (broadcast_axis_ok _ _ _ Hbg2) as (_ & Heq & _).
    by apply Heq.
Qed.
End FutureGoal.

(** *** A hindsight buffer of two episodes of two steps *)

Definition demo_replay : @ReplayBuffer.t Z :=
  ReplayBuffer.mk
    (ReplayBufferBase.mk
       [("o", [3; 1]); ("u", [2; 1]); ("ag", [3; 1]); ("g", [2; 1]); ("r", [2; 1])]
       2 2
       [("o", [[[0]; [1]; [2]]; [[3]; [4]; [5]]]%Z);
        ("u", [[[10]; [11]]; [[12]; [13]]]%Z);
        ("ag", [[[100]; [101]; [102]]; [[103]; [104]; [105]]]%Z);
        ("g", [[[7]; [7]]; [[8]; [8]]]%Z);
        ("r", [[[50]; [50]]; [[50]; [50]]]%Z)])
    2.

(** The sparse reward: [0] where the goal is achieved, [-1] elsewhere. *)
Definition sparse_reward : @HERReplayBuffer.reward_function Z :=
  fun ag_2 g_2 _ =>
    zip_with (fun a g => if decide (a = g) then 0%Z else (-1)%Z) ag_2 g_2.

(** The buffer with relabel ratio [k]. *)
Definition demo_her (k : Z) : @HERReplayBuffer.t Z :=
  HERReplayBuffer.mk demo_replay (HERReplayBuffer.future_p_of k) sparse_reward.

(** The buffers [sample] derives from [demo_replay]. *)
Definition demo_buffers : dict (list (list (list Z))) :=
  [("o", [[[0]; [1]; [2]]; [[3]; [4]; [5]]]%Z);
   ("u", [[[10]; [11]]; [[12]; [13]]]%Z);
   ("ag", [[[100]; [101]; [102]]; [[103]; [104]; [105]]]%Z);
   ("g", [[[7]; [7]]; [[8]; [8]]]%Z);
   ("r", [[[50]; [50]]; [[50]; [50]]]%Z);
   ("o_2", [[[1]; [2]]; [[4]; [5]]]%Z);
   ("ag_2", [[[101]; [102]]; [[104]; [105]]]%Z);
   ("g_2", [[[7]; [7]]; [[8]; [8]]]%Z)].

Lemma demo_buffers_derived :
  ReplayBuffer.derived_buffers demo_replay = Ok demo_buffers.
Proof. reflexivity. Qed.

(** A generator whose uniform numbers are about [1/3, 2/3, 0, 1/3, ...]. *)
Definition g1 : np_random :=
  mkRandom (fun i => (N.of_nat i + 1) * 3002399751580331)%N 0.

(** With [k = 1] and four records: the records 0, 1 and 3 are relabelled,
    with offsets 0, 1 and 0. *)
Definition demo_batch : dict (list (list Z)) :=
  [("o", [[4]; [0]; [4]; [0]]%Z);
   ("u", [[13]; [10]; [13]; [10]]%Z);
   ("ag", [[104]; [100]; [104]; [100]]%Z);
   ("g", [[105]; [102]; [8]; [101]]%Z);
   ("r", [[0]; [-1]; [-1]; [0]]%Z);
   ("o_2", [[5]; [1]; [5]; [1]]%Z);
   ("ag_2", [[105]; [101]; [105]; [101]]%Z);
   ("g_2", [[105]; [102]; [8]; [101]]%Z)].

Lemma demo_batch_sampled :
  HERReplayBuffer.sample_transitions (-100)%Z (demo_her 1) demo_buffers 4 g1
  = (Ok demo_batch, advance 4 (advance 4 (advance 4 (advance 4 g1)))).
Proof. vm_compute. reflexivity. Qed.

Lemma her_relabel_future_goal_witness :
  ∃ u ag,
    dict_get "u" demo_buffers = Some u ∧ dict_get "ag" demo_buffers = Some ag ∧
    let T := ReplayBuffer.T (HERReplayBuffer.replay (demo_her 1)) in
    let episode_idxs := randint_values 0 (length u) 4 g1 in
    let t_samples := randint_values 0 T 4 (advance 4 g1) in
    let coins := uniform_values 4 (advance 4 (advance 4 g1)) in
    let us := uniform_values 4 (advance 4 (advance 4 (advance 4 g1))) in
    ∀ i, i ∈ HERReplayBuffer.her_indexes_of
               (HERReplayBuffer.future_p (demo_her 1)) coins →
      ∃ e t off ep v goal goal_2,
        episode_idxs !! i = Some e ∧ t_samples !! i = Some t ∧
        HERReplayBuffer.future_offset_of T us t_samples !! i = Some off ∧
        (0 ≤ off < Z.of_nat T - Z.of_nat t)%Z ∧
        t < t + 1 + Z.to_nat off ≤ T ∧
        ag !! e = Some ep ∧ ep !! (t + 1 + Z.to_nat off) = Some v ∧
        dict_get "g" demo_batch ≫= (.!! i) = Some goal ∧
        dict_get "g_2" demo_batch ≫= (.!! i) = Some goal_2 ∧
        broadcast_axis (length goal) v = Ok goal ∧
        broadcast_axis (length goal_2) v = Ok goal_2 ∧
        (length goal = length v → goal = v) ∧
        (length goal_2 = length v → goal_2 = v).
Proof.
  apply (her_relabel_future_goal (-100)%Z (demo_her 1) demo_buffers 4 g1
           (advance 4 (advance 4 (advance 4 (advance 4 g1)))) demo_batch).
  vm_compute. reflexivity.
Defined.

(** ** The goal of the next step is the goal *)

Section SampleFacts.
Context {elem : Type} `{!Scalar elem}.

Lemma sample_eq
    (sample_transitions : dict (list (list (list elem))) → nat →
                          M np_random (dict (list (list elem))))
    (self : @ReplayBuffer.t elem) bs g :
  ReplayBuffer.sample sample_transitions self bs g =
  if 0 <? current_size (ReplayBuffer.ep_base self) then
    match ReplayBuffer.derived_buffers self with
    | Raise e => (Raise e, g)
    | Ok derived =>
        match sample_transitions derived bs g with
        | (Ok transitions, g') =>
            if forallb (fun key => dict_mem key transitions)
                 (dict_keys (buffers (ReplayBuffer.ep_base self)))
            then (Ok transitions, g')
            else (Raise AssertionError, g')
        | (Raise e, g') => (Raise e, g')
        end
    end
  else (Raise AssertionError, g).
Proof.
  unfold ReplayBuffer.sample. repeat (progress unfold_monad).
  destruct (0 <? _); [|done].
  destruct (ReplayBuffer.derived_buffers self) as [bufs|]; [|done].
  destruct (sample_transitions bufs bs g) as [[trs|e] g']; [|done].
  by destruct (forallb _ _).
Qed.

Lemma derived_buffers_g_2 (self : @ReplayBuffer.t elem) bufs gv :
  ReplayBuffer.derived_buffers self = Ok bufs →
  dict_get "g" bufs = Some gv → dict_get "g_2" bufs = Some gv.
Proof.
  unfold ReplayBuffer.derived_buffers.
  destruct (dict_get "o" _) as [o|]; [|done].
  match goal with
  | |- Ok (match dict_get "g" ?d with _ => _ end) = _ → _ => set (b2 := d)
  end.
  destruct (dict_get "g" b2) as [g|] eqn:Hg; intros [= <-].
  - rewrite dict_get_set_ne, Hg by done. intros [= <-].
    apply dict_get_set_eq.
  - by rewrite Hg.
Qed.
End SampleFacts.

Section GoalOfNextStep.
Context {elem : Type} `{!Scalar elem} (minus_100 : elem).

(** C9. In every batch the hindsight buffer returns from [sample], the
    field [g_2] is the field [g], record by record: both are gathered from
    the same array, and a relabelled record gets the same future goal in
    both. *)
Theorem her_sample_g_2_is_g (self : @HERReplayBuffer.t elem)
    (batch_size : nat) (g g' : np_random) (trs : dict (list (list elem))) :
  HERReplayBuffer.sample minus_100 self batch_size g = (Ok trs, g') →
  ∃ goals, dict_get "g" trs = Some goals ∧ dict_get "g_2" trs = Some goals.
Proof.
  unfold HERReplayBuffer.sample. rewrite sample_eq.
  destruct (0 <? _); [|done].
  destruct (ReplayBuffer.derived_buffers _) as [bufs|] eqn:Hd; [|done].
  rewrite her_sample_eq. cbv zeta.
  destruct (dict_get "u" bufs) as [u|] eqn:Hu; [|done].
  destruct (0 <? length u); [|done].
  destruct (0 <? ReplayBuffer.T _); [|done].
  destruct (picked _ bufs batch_size g) as [tr0|] eqn:Hpick; [|done].
  destruct (HERReplayBuffer.relabel _ _ _ _ _ _ _ _ _) as [trs'|] eqn:Hrel;
    [|done].
  destruct (forallb _ _); [|done]. intros [= <- _].
  apply relabel_inv in Hrel. cbv zeta in Hrel.
  destruct Hrel as (future_t & ag & her_episodes & future_ag & g0 & g20 & g1
                    & g21 & ag_2 & g_2 & _ & _ & _ & _ & Hg0 & Hg20 & Hg1
                    & Hg21 & _ & _ & -> & _).
  assert (g20 = g0) as ->.
  { unfold picked in Hpick. rewrite Hu in Hpick.
    pose proof (dict_traverse_get _ _ _ "g" Hpick) as Hg.
    pose proof (dict_traverse_get _ _ _ "g_2" Hpick) as Hg2.
    destruct (dict_get "g" bufs) as [gv|] eqn:Hgv; [|congruence].
    rewrite (derived_buffers_g_2 _ _ _ Hd Hgv) in Hg2.
    destruct Hg as (b & Hb & Hgb). destruct Hg2 as (b2 & Hb2 & Hgb2).
    congruence. }
  rewrite (setrows_same _ _ _ _ _ _ _ _ _ Hg21 Hg1).
  eexists. unfold relabelled. split.
  - by rewrite dict_get_set_ne, mark_q_get_ne, dict_get_set_ne, dict_get_set_eq.
  - by rewrite dict_get_set_ne, mark_q_get_ne, dict_get_set_eq.
Qed.
End GoalOfNextStep.

Lemma her_sample_g_2_is_g_witness :
  ∃ goals, dict_get "g" demo_batch = Some goals ∧
           dict_get "g_2" demo_batch = Some goals.
Proof.
  apply (her_sample_g_2_is_g (-100)%Z (demo_her 1) 4 g1
           (advance 4 (advance 4 (advance 4 (advance 4 g1)))) demo_batch).
  vm_compute. reflexivity.
Defined.

(** ** Relabel ratio zero *)

(** The probability of relabelling for the ratio [k = 0]. *)
Definition future_p_zero : Q := (1 - 1 / inject_Z (1 + 0))%Q.

Lemma where_from_none i (mask : list bool) :
  Forall (fun b => b = false) mask → where_from i mask = [].
Proof.
  intros H. revert i. induction H as [|b mask -> _ IH]; intros i; simpl; [done|].
  apply IH.
Qed.

Lemma her_indexes_zero n g :
  HERReplayBuffer.her_indexes_of future_p_zero (uniform_values n g) = [].
Proof.
  unfold HERReplayBuffer.her_indexes_of, np_where. apply where_from_none.
  apply Forall_forall. intros b (c & -> & Hc)%list_elem_of_fmap.
  unfold uniform_values in Hc.
  apply list_elem_of_fmap in Hc as (r & -> & _).
  unfold Qltb, unit_interval, future_p_zero. simpl.
  pose proof (Z.mod_pos_bound (Z.of_N r) (Zpos two53) ltac:(done)) as Hm.
  apply Z.ltb_ge. lia.
Qed.

(** C6, as stated, fails: with [k = 0] the hindsight sampler relabels
    nothing but still recomputes the reward, so its [r] is the reward
    function's, not the stored one the uniform sampler returns. *)
Lemma her_zero_differs_from_uniform :
  ¬ (∀ (self : @HERReplayBuffer.t Z) buffers batch_size g trs_her g_her
       trs_uniform g_uniform,
       HERReplayBuffer.future_p self = future_p_zero →
       HERReplayBuffer.sample_transitions (-100)%Z self buffers batch_size g
       = (Ok trs_her, g_her) →
       UniformReplayBuffer.sample_transitions (HERReplayBuffer.replay self)
         buffers batch_size g
       = (Ok trs_uniform, g_uniform) →
       trs_her = trs_uniform).
Proof.
  intros H.
  assert (HERReplayBuffer.sample_transitions (-100)%Z (demo_her 0)
            demo_buffers 4 g1
          = (Ok (dict_set "r" [[-1]; [-1]; [-1]; [-1]]%Z
                   [("o", [[4]; [0]; [4]; [0]]%Z);
                    ("u", [[13]; [10]; [13]; [10]]%Z);
                    ("ag", [[104]; [100]; [104]; [100]]%Z);
                    ("g", [[8]; [7]; [8]; [7]]%Z);
                    ("r", [[50]; [50]; [50]; [50]]%Z);
                    ("o_2", [[5]; [1]; [5]; [1]]%Z);
                    ("ag_2", [[105]; [101]; [105]; [101]]%Z);
                    ("g_2", [[8]; [7]; [8]; [7]]%Z)]),
             advance 4 (advance 4 (advance 4 (advance 4 g1))))) as Hher
    by (vm_compute; reflexivity).
  assert (UniformReplayBuffer.sample_transitions
            (HERReplayBuffer.replay (demo_her 0)) demo_buffers 4 g1
          = (Ok [("o", [[4]; [0]; [4]; [0]]%Z);
                 ("u", [[13]; [10]; [13]; [10]]%Z);
                 ("ag", [[104]; [100]; [104]; [100]]%Z);
                 ("g", [[8]; [7]; [8]; [7]]%Z);
                 ("r", [[50]; [50]; [50]; [50]]%Z);
                 ("o_2", [[5]; [1]; [5]; [1]]%Z);
                 ("ag_2", [[105]; [101]; [105]; [101]]%Z);
                 ("g_2", [[8]; [7]; [8]; [7]]%Z)],
             advance 4 (advance 4 g1))) as Huni
    by (vm_compute; reflexivity).
  pose proof (H (demo_her 0) _ _ _ _ _ _ _ eq_refl Hher Huni) as Heq.
  vm_compute in Heq. discriminate Heq.
Qed.

Section RatioZero.
Context {elem : Type} `{!Scalar elem} (minus_100 : elem).

(** C6, amended. With [k = 0] no record is relabelled, and a batch the
    hindsight sampler returns is the batch the uniform sampler returns on
    the same buffers and the same generator, with the field [r] replaced
    by the reward recomputed from its [ag_2], [g_2] and [info_] fields. *)
Theorem her_zero_is_uniform_with_reward (self : @HERReplayBuffer.t elem)
    (buffers : dict (list (list (list elem)))) (batch_size : nat)
    (g g' : np_random) (trs : dict (list (list elem))) :
  HERReplayBuffer.future_p self = future_p_zero →
  HERReplayBuffer.sample_transitions minus_100 self buffers batch_size g
  = (Ok trs, g') →
  HERReplayBuffer.her_indexes_of (HERReplayBuffer.future_p self)
    (uniform_values batch_size (advance batch_size (advance batch_size g)))
  = [] ∧
  ∃ uniform_trs ag_2 g_2,
    UniformReplayBuffer.sample_transitions (HERReplayBuffer.replay self)
      buffers batch_size g
    = (Ok uniform_trs, advance batch_size (advance batch_size g)) ∧
    dict_get "ag_2" uniform_trs = Some ag_2 ∧
    dict_get "g_2" uniform_trs = Some g_2 ∧
    trs = dict_set "r"
            (map (fun x => [x])
               (HERReplayBuffer.reward_fun self ag_2 g_2
                  (HERReplayBuffer.info_of uniform_trs)))
            uniform_trs.
Proof.
  intros Hp Hs. rewrite her_sample_eq in Hs. rewrite uniform_sample_eq.
  cbv zeta in Hs. rewrite Hp. split; [apply her_indexes_zero|].
  destruct (dict_get "u" buffers) as [u|] eqn:Hu; [|done].
  destruct (0 <? length u); [|done].
  destruct (0 <? ReplayBuffer.T _); [|done].
  destruct (picked _ buffers batch_size g) as [tr0|] eqn:Hpick; [|done].
  injection Hs as Hrel _.
  apply relabel_inv in Hrel. cbv zeta in Hrel.
  rewrite Hp, her_indexes_zero in Hrel.
  destruct Hrel as (future_t & ag & her_episodes & future_ag & g0 & g20 & g1
                    & g21 & ag_2 & g_2 & _ & _ & _ & _ & Hg0 & Hg20 & Hg1
                    & Hg21 & Hag2 & Hg2 & -> & _).
  apply setrows_nil in Hg1 as ->. apply setrows_nil in Hg21 as ->.
  assert (relabelled minus_100 [] g0 g20 tr0 = tr0) as Hsame.
  { unfold relabelled. rewrite mark_q_nil.
    rewrite (dict_set_same "g" g0 tr0 Hg0). by apply dict_set_same. }
  rewrite Hsame in *.
  exists tr0, ag_2, g_2. done.
Qed.
End RatioZero.

Lemma her_zero_is_uniform_with_reward_witness :
  HERReplayBuffer.her_indexes_of (HERReplayBuffer.future_p (demo_her 0))
    (uniform_values 4 (advance 4 (advance 4 g1)))
  = [] ∧
  ∃ uniform_trs ag_2 g_2,
    UniformReplayBuffer.sample_transitions
      (HERReplayBuffer.replay (demo_her 0)) demo_buffers 4 g1
    = (Ok uniform_trs, advance 4 (advance 4 g1)) ∧
    dict_get "ag_2" uniform_trs = Some ag_2 ∧
    dict_get "g_2" uniform_trs = Some g_2 ∧
    (HERReplayBuffer.sample_transitions (-100)%Z (demo_her 0) demo_buffers 4 g1).1
    = Ok (dict_set "r"
            (map (fun x => [x])
               (HERReplayBuffer.reward_fun (demo_her 0) ag_2 g_2
                  (HERReplayBuffer.info_of uniform_trs)))
            uniform_trs).
Proof.
  destruct (her_zero_is_uniform_with_reward (-100)%Z (demo_her 0) demo_buffers 4
              g1 (HERReplayBuffer.sample_transitions (-100)%Z (demo_her 0)
                    demo_buffers 4 g1).2
              (dict_set "r" [[-1]; [-1]; [-1]; [-1]]%Z
                 [("o", [[4]; [0]; [4]; [0]]%Z);
                  ("u", [[13]; [10]; [13]; [10]]%Z);
                  ("ag", [[104]; [100]; [104]; [100]]%Z);
                  ("g", [[8]; [7]; [8]; [7]]%Z);
                  ("r", [[50]; [50]; [50]; [50]]%Z);
                  ("o_2", [[5]; [1]; [5]; [1]]%Z);
                  ("ag_2", [[105]; [101]; [105]; [101]]%Z);
                  ("g_2", [[8]; [7]; [8]; [7]]%Z)]))
    as (Hnone & trs & ag_2 & g_2 & Huni & Hag & Hg & Htrs).
  - reflexivity.
  - vm_compute. reflexivity.
  - split; [exact Hnone|]. exists trs, ag_2, g_2.
    split; [exact Huni|]. split; [exact Hag|]. split; [exact Hg|].
    rewrite <- Htrs. vm_compute. reflexivity.
Defined.

(** ** The reward is recomputed *)

Section RewardRecomputed.
Context {elem : Type} `{!Scalar elem} (minus_100 : elem).

Lemma info_of_set_r (r : list (list elem)) (d : dict (list (list elem))) :
  HERReplayBuffer.info_of (dict_set "r" r d) = HERReplayBuffer.info_of d.
Proof.
  unfold HERReplayBuffer.info_of.
  generalize (@nil (string * list (list elem))).
  induction d as [|[k v] d IH]; intros acc; [done|].
  cbn [dict_set]. destruct (String.eqb "r" k) eqn:E; cbn [foldl].
  - apply String.eqb_eq in E. subst k. done.
  - apply IH.
Qed.

(** X21. The field [r] of a batch the hindsight sampler returns is never
    the stored reward: it is the reward function applied to the fields
    [ag_2] and [g_2] of that batch and to the [info] dictionary rebuilt
    from it, one row per record, for the relabelled records and for the
    others alike. *)
Lemma her_reward_recomputed (self : @HERReplayBuffer.t elem)
    (buffers : dict (list (list (list elem)))) (batch_size : nat)
    (g g' : np_random) (trs : dict (list (list elem))) :
  HERReplayBuffer.sample_transitions minus_100 self buffers batch_size g
  = (Ok trs, g') →
  ∃ ag_2 g_2 r,
    dict_get "ag_2" trs = Some ag_2 ∧ dict_get "g_2" trs = Some g_2 ∧
    dict_get "r" trs = Some r ∧
    r = map (fun x => [x])
          (HERReplayBuffer.reward_fun self ag_2 g_2 (HERReplayBuffer.info_of trs)) ∧
    length r = batch_size.
Proof.
  rewrite her_sample_eq. cbv zeta.
  destruct (dict_get "u" buffers) as [u|]; [|done].
  destruct (0 <? length u); [|done].
  destruct (0 <? ReplayBuffer.T _); [|done].
  destruct (picked _ buffers batch_size g) as [tr0|]; [|done].
  intros [= Hrel _]. apply relabel_inv in Hrel. cbv zeta in Hrel.
  destruct Hrel as (future_t & ag & her_episodes & future_ag & g0 & g20 & g1
                    & g21 & ag_2 & g_2 & _ & _ & _ & _ & _ & _ & _ & _
                    & Hag2 & Hg2 & -> & Hlen).
  eexists ag_2, g_2, _.
  rewrite !dict_get_set_ne by done. rewrite dict_get_set_eq, info_of_set_r.
  repeat split; try done.
  rewrite Forall_forall in Hlen.
  apply (Hlen ("r", _)). apply dict_get_elem, dict_get_set_eq.
Qed.
End RewardRecomputed.

(** ** The keys of the [info] dictionary *)

(** The [info] dictionary as the specification words it: the key of a
    field [info_...] is the field name without its prefix.  To be compared
    with [HERReplayBuffer.info_of], which follows the code. *)
Fixpoint drop_chars (n : nat) (s : string) : string :=
  match n, s with
  | S n', String _ s' => drop_chars n' s'
  | _, _ => s
  end.
Definition removeprefix (p s : string) : string :=
  if startswith p s then drop_chars (String.length p) s else s.
Definition info_prefix_stripped {elem} (transitions : dict (list (list elem)))
  : dict (list (list elem)) :=
  foldl (fun info kv =>
           if startswith "info_" kv.1
           then dict_set (removeprefix "info_" kv.1) kv.2 info
           else info)
        [] transitions.

(** A buffer with a field [info_info_x], that is, the entry [info_x] of the
    environment's [info]. *)
Definition info_replay : @ReplayBuffer.t Z :=
  ReplayBuffer.mk
    (ReplayBufferBase.mk
       [("o", [3; 1]); ("u", [2; 1]); ("ag", [3; 1]); ("g", [2; 1]);
        ("info_info_x", [2; 1])]
       2 2
       [("o", [[[0]; [1]; [2]]; [[3]; [4]; [5]]]%Z);
        ("u", [[[10]; [11]]; [[12]; [13]]]%Z);
        ("ag", [[[100]; [101]; [102]]; [[103]; [104]; [105]]]%Z);
        ("g", [[[7]; [7]]; [[8]; [8]]]%Z);
        ("info_info_x", [[[1]; [2]]; [[3]; [4]]]%Z)])
    2.

(** A reward that is the entry [info_x] of [info], and [-7] without it. *)
Definition info_reward : @HERReplayBuffer.reward_function Z :=
  fun ag_2 g_2 info =>
    match dict_get "info_x" info with
    | Some rows => map (hd 0%Z) rows
    | None => map (fun _ => (-7)%Z) ag_2
    end.

Definition info_her : @HERReplayBuffer.t Z :=
  HERReplayBuffer.mk info_replay future_p_zero info_reward.

Definition info_batch : dict (list (list Z)) :=
  [("o", [[4]; [0]]%Z); ("u", [[13]; [10]]%Z); ("ag", [[104]; [100]]%Z);
   ("g", [[8]; [7]]%Z); ("info_info_x", [[4]; [1]]%Z); ("o_2", [[5]; [1]]%Z);
   ("ag_2", [[105]; [101]]%Z); ("g_2", [[8]; [7]]%Z);
   ("r", [[-7]; [-7]]%Z)].

(** C2 at the field name [info_info_x].  [str.replace] on the key drops
    every occurrence of [info_], so the field reaches the reward function
    under the key [x], not under its name without the prefix, [info_x]:
    the returned [r] is not the reward of the returned fields with the
    prefix-stripped [info]. *)
Theorem her_info_key_not_prefix_stripped :
  (HERReplayBuffer.sample (-100)%Z info_her 2 g1).1 = Ok info_batch ∧
  HERReplayBuffer.info_of info_batch = [("x", [[4]; [1]]%Z)] ∧
  info_prefix_stripped info_batch = [("info_x", [[4]; [1]]%Z)] ∧
  dict_get "r" info_batch
  = Some (map (fun x => [x])
            (info_reward [[105]; [101]]%Z [[8]; [7]]%Z
               (HERReplayBuffer.info_of info_batch))) ∧
  dict_get "r" info_batch
  ≠ Some (map (fun x => [x])
            (info_reward [[105]; [101]]%Z [[8]; [7]]%Z
               (info_prefix_stripped info_batch))).
Proof.
  split; [vm_compute; reflexivity|].
  split; [reflexivity|]. split; [reflexivity|]. split; [reflexivity|].
  vm_compute. discriminate.
Qed.

(** [p] occurs in [s]. *)
Fixpoint contains (p s : string) : bool :=
  startswith p s ||
  match s with
  | EmptyString => false
  | String _ s' => contains p s'
  end.

Lemma remove_all_from_skip p n s :
  remove_all_from p n s = remove_all_from p 0 (drop_chars n s).
Proof.
  revert s. induction n as [|n IH]; intros s; [by destruct s|].
  destruct s as [|c s]; [done|]. simpl. apply IH.
Qed.

Lemma str_remove_absent p s : contains p s = false → str_remove p s = s.
Proof.
  unfold str_remove. induction s as [|c s IH]; [done|].
  cbn [contains remove_all_from].
  intros [Hs Hc]%orb_false_iff. rewrite Hs. f_equal. by apply IH.
Qed.

(** Where the rest of the name holds no further [p], dropping every
    occurrence of [p] is dropping the prefix. *)
Lemma str_remove_prefix p s :
  p ≠ EmptyString → startswith p s = true →
  contains p (removeprefix p s) = false →
  str_remove p s = removeprefix p s.
Proof.
  intros Hp Hs Hrest. unfold removeprefix in *. rewrite Hs in *.
  destruct p as [|a p]; [done|]. destruct s as [|c s]; [done|].
  unfold str_remove. cbn [remove_all_from]. rewrite Hs.
  rewrite remove_all_from_skip. cbn [String.length drop_chars] in *.
  replace (S (String.length p) - 1) with (String.length p) by lia.
  by apply str_remove_absent.
Qed.

(** X22. The [info] dictionary handed to the reward function has the
    [info_] fields of the batch under their names without the prefix, as
    long as no such name holds [info_] a second time: then dropping every
    occurrence, as the code does, is dropping the prefix. *)
Lemma info_of_prefix_stripped {elem} (trs : dict (list (list elem))) :
  (∀ key v, (key, v) ∈ trs → startswith "info_" key = true →
            contains "info_" (removeprefix "info_" key) = false) →
  HERReplayBuffer.info_of trs = info_prefix_stripped trs.
Proof.
  unfold HERReplayBuffer.info_of, info_prefix_stripped.
  generalize (@nil (string * list (list elem))).
  induction trs as [|[k v] trs IH]; intros acc Hkeys; [done|].
  cbn [foldl fst snd].
  rewrite IH by (intros key v' Hin; apply (Hkeys key v'); by right).
  destruct (startswith "info_" k) eqn:Hk; [|done].
  rewrite str_remove_prefix; [done|done|done|].
  apply (Hkeys k v); [left|done].
Qed.
(** * More of the buffers

    The properties below cover what the storage policies do with a batch
    slot by slot, what a store leaves intact whatever its outcome, the
    loaders on archives they reject or cut, the samplers of both buffers,
    [sample_all], [clear_buffer], the constructors, and the buffers the
    learner creates. *)

(** ** Where a store puts a batch *)

Lemma Forall_dict_set {V} (P : string * V → Prop) k v (d : dict V) :
  Forall P d → P (k, v) → Forall P (dict_set k v d).
Proof.
  intros Hd Hv. induction Hd as [|[k' v'] d Hkv Hd IH]; simpl.
  - by constructor.
  - destruct (String.eqb k k') eqn:E.
    + apply String.eqb_eq in E. subst k'. by constructor.
    + by constructor.
Qed.

Section WriteFieldsShape.
Context {item : Type} (assign : item → item → result item).
Implicit Types (bufs batch : dict (list item)) (keys : list string).

(** The loop never changes the number of slots of an array, however far it
    gets. *)
Lemma write_fields_lengths idxs batch keys bufs n :
  Forall (fun kv => length kv.2 = n) bufs →
  Forall (fun kv => length kv.2 = n) (write_fields assign idxs batch keys bufs).2.
Proof.
  revert bufs. induction keys as [|key keys IH]; intros bufs Hlen; simpl;
    [done|].
  destruct (dict_get key batch) as [v|]; [|done].
  destruct (dict_get key bufs) as [a|] eqn:Ha; [|done].
  destruct (setitem assign a idxs v) as [a'|] eqn:Hset; [|done].
  apply IH. apply Forall_dict_set; [done|]. simpl.
  rewrite (setitem_length _ _ _ _ _ Hset).
  rewrite Forall_forall in Hlen. apply (Hlen _ (dict_get_elem _ _ _ Ha)).
Qed.

(** With repeated slots, the last entry written to a slot stays. *)
Lemma scatter_lookup_last (a : list item) l v j i x :
  l !! j = Some i → v !! j = Some x → i < length a →
  (∀ j', j < j' → l !! j' ≠ Some i) →
  scatter a l v !! i = Some x.
Proof.
  revert a v j. induction l as [|i0 l IH]; intros a [|x0 v] j Hl Hv Hlen Hlast;
    try done.
  destruct j as [|j]; simpl in *.
  - injection Hl as ->. injection Hv as ->.
    rewrite scatter_lookup_notin.
    + by apply list_lookup_insert_eq.
    + intros [j' Hj']%list_elem_of_lookup.
      apply (Hlast (S j')); [lia|done].
  - apply (IH _ _ j); try done.
    + by rewrite length_insert.
    + intros j' Hj'. apply (Hlast (S j')). lia.
Qed.
End WriteFieldsShape.

Section StoreShape.
Context {item B : Type} `{!ReplayBufferBase.Subclass item B}
  `{!SubclassLaws B}.

(** A store keeps the fields, the capacity and the number of slots of
    every array, whatever its outcome. *)
Lemma store_episode_shape (batch : dict (list item)) (w : world B) :
  wf_buffers (base (self w)) →
  current_size (base (self w)) ≤ size (base (self w)) →
  wf_buffers (base (self (store_episode batch w).2)) ∧
  dict_keys (buffers (base (self (store_episode batch w).2)))
  = dict_keys (buffers (base (self w))) ∧
  buffer_shapes (base (self (store_episode batch w).2))
  = buffer_shapes (base (self w)) ∧
  size (base (self (store_episode batch w).2)) = size (base (self w)) ∧
  current_size (base (self (store_episode batch w).2))
  ≤ size (base (self (store_episode batch w).2)).
Proof.
  intros [Hnd Hlen] Hcs. rewrite store_episode_eq.
  destruct (head (batch_sizes batch)) as [bs|]; [|done].
  destruct (forallb _ _); [|done].
  pose proof (storage_idx_base bs w) as Hbase.
  destruct (_get_storage_idx bs w) as [[idxs|e] w1]; simpl in Hbase;
    [|simpl; by rewrite Hbase].
  cbv zeta. rewrite Hbase.
  pose proof (write_fields_keys assign idxs batch
                (dict_keys (buffers (base (self w)))) (buffers (base (self w))))
    as Hk.
  pose proof (write_fields_lengths assign idxs batch
                (dict_keys (buffers (base (self w)))) _ _ Hlen) as Hl.
  destruct (write_fields _ _ _ _ _) as [[[]|e] bufs]; simpl in *;
    rewrite base_with_base; simpl; unfold wf_buffers; simpl; rewrite Hk;
    repeat split; try done; lia.
Qed.

(** X1. Whatever a store does, it keeps the shape of the buffer: on a
    buffer with one array of [size] slots per field and a fill level within
    the capacity, after [store_episode] on any batch (also one that is
    rejected, or that raises half way through the fields) the buffer has
    the same fields in the same order, the same capacity, every array still
    has [size] slots, and the fill level is still within the capacity. *)
Theorem store_episode_keeps_shape (batch : dict (list item)) (w w' : world B)
    (r : result unit) :
  wf_buffers (base (self w)) →
  current_size (base (self w)) ≤ size (base (self w)) →
  store_episode batch w = (r, w') →
  wf_buffers (base (self w')) ∧
  dict_keys (buffers (base (self w'))) = dict_keys (buffers (base (self w))) ∧
  buffer_shapes (base (self w')) = buffer_shapes (base (self w)) ∧
  size (base (self w')) = size (base (self w)) ∧
  current_size (base (self w')) ≤ size (base (self w')).
Proof.
  intros Hwf Hcs Hst.
  pose proof (store_episode_shape batch w Hwf Hcs) as Hshape.
  by rewrite Hst in Hshape.
Qed.
End StoreShape.

Lemma store_episode_keeps_shape_witness :
  store_episode [("u", [[5%Z]])] (mkWorld ring3 g0)
  = (Raise KeyError, after (store_episode [("u", [[5%Z]])]) (mkWorld ring3 g0)) ∧
  wf_buffers
    (base (self (after (store_episode [("u", [[5%Z]])]) (mkWorld ring3 g0)))).
Proof.
  split; [reflexivity|].
  apply (store_episode_keeps_shape [("u", [[5%Z]])] (mkWorld ring3 g0)
           (after (store_episode [("u", [[5%Z]])]) (mkWorld ring3 g0))
           (Raise KeyError)).
  - split; simpl.
    + apply NoDup_cons. split; [|apply NoDup_singleton].
      intros Hin%list_elem_of_singleton. discriminate Hin.
    + repeat constructor.
  - simpl. lia.
  - reflexivity.
Defined.

(** *** The ring policy *)

Lemma mod_wrap C n : 0 < C → C ≤ n < C + C → n mod C = n - C.
Proof.
  intros HC Hn. replace n with ((n - C) + 1 * C) at 1 by lia.
  rewrite Nat.Div0.mod_add. apply Nat.mod_small. lia.
Qed.

Lemma lookup_fmap_seq {A} (f : nat → A) n j :
  j < n → (f <$> seq 0 n) !! j = Some (f j).
Proof. intros Hj. by rewrite list_lookup_fmap, lookup_seq_lt. Qed.

Lemma ring_slots_NoDup C p n :
  n ≤ C → NoDup ((fun j => (p + j) mod C) <$> seq 0 n).
Proof.
  intros Hn. apply NoDup_fmap_2_strong; [|apply NoDup_seq].
  intros x y Hx%elem_of_seq Hy%elem_of_seq Heq.
  destruct (decide (x = y)) as [|Hne]; [done|]. exfalso.
  destruct (decide (x < y)).
  - apply (mod_distinct C (p + x) (p + y)); [lia|lia|done].
  - apply (mod_distinct C (p + y) (p + x)); [lia|lia|done].
Qed.

Section RingSlots.
Context {elem : Type} `{!Scalar elem}.
Implicit Types (w : world (@RingReplayBuffer.t elem)).

(** The slots the ring policy hands out: the [inc] slots from the pointer
    on, wrapping around at the capacity. *)
Lemma ring_storage_slots inc w idxs w1 :
  RingReplayBuffer.pointer (self w) ≤ size (RingReplayBuffer.ring_base (self w)) →
  RingReplayBuffer._get_storage_idx inc w = (Ok idxs, w1) →
  index_slots idxs
  = (fun j => (RingReplayBuffer.pointer (self w) + j)
                mod size (RingReplayBuffer.ring_base (self w))) <$> seq 0 inc ∧
  RingReplayBuffer.pointer (self w1)
  = (if RingReplayBuffer.pointer (self w) + inc
        <=? size (RingReplayBuffer.ring_base (self w))
     then RingReplayBuffer.pointer (self w) + inc
     else RingReplayBuffer.pointer (self w) + inc
          - size (RingReplayBuffer.ring_base (self w))) ∧
  np w1 = np w.
Proof.
  rewrite ring_storage_idx_eq. cbv zeta.
  set (C := size (RingReplayBuffer.ring_base (self w))).
  set (p := RingReplayBuffer.pointer (self w)).
  intros Hp. destruct (_ && _) eqn:E; [|done].
  apply andb_prop in E as [E1%Nat.leb_le E2%Nat.ltb_lt].
  destruct (p + inc <=? C) eqn:E3; intros [= <- <-]; simpl;
    (split; [|done]).
  - apply Nat.leb_le in E3.
    assert (seq p inc = (fun j => (p + j) mod C) <$> seq 0 inc) as Hseq.
    { apply list_eq. intros j. destruct (decide (j < inc)).
      - rewrite lookup_fmap_seq, lookup_seq_lt by done.
        f_equal. symmetry. apply Nat.mod_small. lia.
      - rewrite list_lookup_fmap, !lookup_seq_ge by lia. done. }
    destruct (inc =? 1) eqn:E4; [|done].
    apply Nat.eqb_eq in E4. subst inc. rewrite <- Hseq. done.
  - apply Nat.leb_gt in E3.
    assert (seq p (C - p) ++ seq 0 (p + inc - C)
            = (fun j => (p + j) mod C) <$> seq 0 inc) as Hseq.
    { apply list_eq. intros j. destruct (decide (j < inc)).
      - rewrite lookup_fmap_seq by done.
        destruct (decide (j < C - p)).
        + rewrite lookup_app_l by (rewrite length_seq; lia).
          rewrite lookup_seq_lt by done. f_equal. symmetry.
          apply Nat.mod_small. lia.
        + rewrite lookup_app_r by (rewrite length_seq; lia).
          rewrite length_seq, lookup_seq_lt by lia. f_equal.
          rewrite mod_wrap by lia. lia.
      - rewrite list_lookup_fmap, lookup_seq_ge by lia.
        apply lookup_ge_None. rewrite length_app, !length_seq. simpl. lia. }
    destruct (inc =? 1) eqn:E4; [|done].
    apply Nat.eqb_eq in E4. subst inc. simpl.
    assert (p = C) as Hpc by lia.
    assert ((p <? C) = false) as -> by (apply Nat.ltb_ge; lia).
    rewrite Hpc, Nat.add_0_r, Nat.Div0.mod_same. done.
Qed.

(** X2. A store into the ring buffer writes record [j] of the batch, cast
    to the element type of the arrays, to slot [(pointer + j) mod size] of
    every field, for a batch of up to [size] records that carries every
    field of the buffer with rows as long as those of the field: the
    records go in order from the pointer on and wrap around at the
    capacity.  All other slots keep their entry, the pointer moves on by
    the number of records (minus the capacity once it would pass it; it
    may rest on [size] itself), and no random number is drawn. *)
Theorem ring_store_wraps (batch : dict (list (list elem))) w bs :
  RingReplayBuffer.pointer (self w) ≤ size (RingReplayBuffer.ring_base (self w)) →
  wf_buffers (RingReplayBuffer.ring_base (self w)) →
  conforms row_shape batch (buffers (RingReplayBuffer.ring_base (self w))) →
  head (batch_sizes batch) = Some bs →
  Forall (fun kv => length kv.2 = bs) batch →
  0 < bs ≤ size (RingReplayBuffer.ring_base (self w)) →
  ∃ w',
    store_episode batch w = (Ok tt, w') ∧
    np w' = np w ∧
    RingReplayBuffer.pointer (self w')
    = (if RingReplayBuffer.pointer (self w) + bs
          <=? size (RingReplayBuffer.ring_base (self w))
       then RingReplayBuffer.pointer (self w) + bs
       else RingReplayBuffer.pointer (self w) + bs
            - size (RingReplayBuffer.ring_base (self w))) ∧
    ∀ key a v,
      dict_get key (buffers (RingReplayBuffer.ring_base (self w))) = Some a →
      dict_get key batch = Some v →
      ∃ a',
        dict_get key (buffers (RingReplayBuffer.ring_base (self w'))) = Some a' ∧
        (∀ j x, v !! j = Some x →
           a' !! ((RingReplayBuffer.pointer (self w) + j)
                    mod size (RingReplayBuffer.ring_base (self w)))
           = Some (map float32 x)) ∧
        (∀ i, (∀ j, j < bs →
                 i ≠ (RingReplayBuffer.pointer (self w) + j)
                       mod size (RingReplayBuffer.ring_base (self w))) →
           a' !! i = a !! i).
Proof.
  intros Hp Hwf Hconf Hhd Hall Hbs.
  assert (sub_inv (self w)) as Hsub by (simpl; lia).
  destruct (store_episode_casts (map float32) batch w bs Hsub Hwf
              (ring_conforms_casts _ _ Hconf) Hhd Hall Hbs)
    as (idxs & w1 & bufs & Hidx & Hst & Hkb & Hper).
  change (ReplayBufferBase._get_storage_idx bs w)
    with (RingReplayBuffer._get_storage_idx bs w) in Hidx.
  destruct (ring_storage_slots bs w idxs w1 Hp Hidx) as (Hslots & Hp1 & Hnp).
  eexists. split; [exact Hst|]. simpl. split; [done|]. split; [done|].
  intros key a v Ha Hv.
  destruct (Hper key a Ha) as (v' & Hv' & Hlv & Hb).
  simpl in Hv'. rewrite Hv in Hv'. injection Hv' as <-.
  eexists. split; [exact Hb|].
  assert (length a = size (RingReplayBuffer.ring_base (self w))) as Hla.
  { destruct Hwf as [_ Hlen]. rewrite Forall_forall in Hlen.
    apply (Hlen _ (dict_get_elem _ _ _ Ha)). }
  rewrite Hslots. split.
  - intros j x Hx.
    assert (j < bs) as Hj by (apply lookup_lt_Some in Hx; lia).
    apply (scatter_lookup _ _ _ j).
    + apply ring_slots_NoDup. simpl in Hbs. lia.
    + rewrite list_lookup_fmap, lookup_seq_lt by done. done.
    + by rewrite list_lookup_fmap, Hx.
    + rewrite Hla. apply Nat.mod_upper_bound. simpl in Hbs. lia.
  - intros i Hi. apply scatter_lookup_notin.
    intros (j & -> & Hj%elem_of_seq)%list_elem_of_fmap.
    apply (Hi j); [lia|done].
Qed.
End RingSlots.

Lemma ring_store_wraps_witness :
  ∃ w',
    store_episode [("u", [[7]; [8]]%Z); ("done", [[0]; [1]]%Z)]
      (mkWorld ring3_closed g0) = (Ok tt, w') ∧
    RingReplayBuffer.pointer (self w') = 1 ∧
    dict_get "u" (buffers (RingReplayBuffer.ring_base (self w')))
    = Some [[8]; [2]; [7]]%Z.
Proof.
  destruct (ring_store_wraps [("u", [[7]; [8]]%Z); ("done", [[0]; [1]]%Z)]
              (mkWorld ring3_closed g0) 2)
    as (w' & Hst & _ & Hp & _).
  - vm_compute. lia.
  - split; simpl.
    + apply NoDup_cons. split; [|apply NoDup_singleton].
      intros Hin%list_elem_of_singleton. discriminate Hin.
    + repeat constructor.
  - repeat (apply Forall_cons; split); try apply Forall_nil_2;
      (eexists; split; [reflexivity|]); by repeat constructor.
  - reflexivity.
  - repeat constructor.
  - vm_compute. lia.
  - exists w'. split; [exact Hst|]. split; [exact Hp|].
    assert (w' = (store_episode [("u", [[7]; [8]]%Z); ("done", [[0]; [1]]%Z)]
                    (mkWorld ring3_closed g0)).2) as -> by (by rewrite Hst).
    vm_compute. reflexivity.
Defined.

(** *** The episode policy *)

Section EpisodeSlots.
Context {elem : Type} `{!Scalar elem}.
Implicit Types (w : world (@ReplayBuffer.t elem)).

(** X3. While the batch fits in the free slots of the episode buffer
    ([current_size + batch_size <= size]), a store appends: episode [j] of
    the batch, cast to the element type of the arrays, goes to slot
    [current_size + j] of every field, for a batch that carries every
    field of the buffer with episodes of the shape of those of the field.
    The fill level grows by the size of the batch, and no random number is
    drawn. *)
Theorem episode_store_appends (batch : dict (list (list (list elem)))) w bs :
  wf_buffers (ReplayBuffer.ep_base (self w)) →
  conforms episode_shape batch (buffers (ReplayBuffer.ep_base (self w))) →
  head (batch_sizes batch) = Some bs →
  Forall (fun kv => length kv.2 = bs) batch →
  0 < bs →
  current_size (ReplayBuffer.ep_base (self w)) + bs
  ≤ size (ReplayBuffer.ep_base (self w)) →
  ∃ w',
    store_episode batch w = (Ok tt, w') ∧
    np w' = np w ∧
    current_size (ReplayBuffer.ep_base (self w'))
    = current_size (ReplayBuffer.ep_base (self w)) + bs ∧
    ∀ key a v,
      dict_get key (buffers (ReplayBuffer.ep_base (self w))) = Some a →
      dict_get key batch = Some v →
      ∃ a',
        dict_get key (buffers (ReplayBuffer.ep_base (self w'))) = Some a' ∧
        ∀ j x, v !! j = Some x →
          a' !! (current_size (ReplayBuffer.ep_base (self w)) + j)
          = Some (map (map float32) x).
Proof.
  intros Hwf Hconf Hhd Hall Hbs Hfit.
  destruct (episode_store_at_fill batch w bs Hwf Hconf Hhd Hall Hbs Hfit)
    as (w' & Hst & Hnp & _ & Hcs & _ & _ & Hper).
  exists w'. split; [done|]. split; [done|]. split; [done|].
  intros key a v Ha Hv.
  destruct (Hper key a Ha) as (v' & Hv' & Hlv & Hb).
  rewrite Hv in Hv'. injection Hv' as <-.
  eexists. split; [exact Hb|].
  assert (length a = size (ReplayBuffer.ep_base (self w))) as Hla.
  { destruct Hwf as [_ Hlen]. rewrite Forall_forall in Hlen.
    apply (Hlen _ (dict_get_elem _ _ _ Ha)). }
  destruct (scatter_seq_lookup a (map (map (map float32)) v)
              (current_size (ReplayBuffer.ep_base (self w)))) as [Hin _].
  { rewrite length_map. lia. }
  rewrite length_map, Hlv in Hin.
  intros j x Hx. apply Hin. by rewrite list_lookup_fmap, Hx.
Qed.

(** X4. A store into a full episode buffer evicts at random: it draws one
    slot per episode of the batch among all slots, with repetition, and
    writes episode [j], cast to the element type of the arrays, to the
    [j]-th slot drawn, for a batch that carries every field of the buffer
    with episodes of the shape of those of the field.  Where a slot is
    drawn more than once, the episode written last stays and the earlier
    ones of the same batch are lost; a slot that is not drawn keeps its
    episode; the buffer stays full and [batch_size] random numbers are
    consumed. *)
Theorem episode_store_evicts (batch : dict (list (list (list elem)))) w bs :
  wf_buffers (ReplayBuffer.ep_base (self w)) →
  conforms episode_shape batch (buffers (ReplayBuffer.ep_base (self w))) →
  head (batch_sizes batch) = Some bs →
  Forall (fun kv => length kv.2 = bs) batch →
  0 < bs ≤ size (ReplayBuffer.ep_base (self w)) →
  current_size (ReplayBuffer.ep_base (self w))
  = size (ReplayBuffer.ep_base (self w)) →
  ∃ w',
    store_episode batch w = (Ok tt, w') ∧
    np w' = advance bs (np w) ∧
    current_size (ReplayBuffer.ep_base (self w'))
    = size (ReplayBuffer.ep_base (self w')) ∧
    ∀ key a v,
      dict_get key (buffers (ReplayBuffer.ep_base (self w))) = Some a →
      dict_get key batch = Some v →
      ∃ a',
        dict_get key (buffers (ReplayBuffer.ep_base (self w'))) = Some a' ∧
        (∀ j i x,
           randint_values 0 (size (ReplayBuffer.ep_base (self w))) bs (np w) !! j
           = Some i →
           v !! j = Some x →
           (∀ j', j < j' →
              randint_values 0 (size (ReplayBuffer.ep_base (self w))) bs (np w)
                !! j' ≠ Some i) →
           a' !! i = Some (map (map float32) x)) ∧
        (∀ i,
           i ∉ randint_values 0 (size (ReplayBuffer.ep_base (self w))) bs (np w) →
           a' !! i = a !! i).
Proof.
  intros Hwf Hconf Hhd Hall Hbs Hfull.
  assert (sub_inv (self w)) as Hsub by done.
  destruct (store_episode_casts (map (map float32)) batch w bs Hsub Hwf
              (episode_conforms_casts _ _ Hconf) Hhd Hall Hbs)
    as (idxs & w1 & bufs & Hidx & Hst & Hkb & Hper).
  change (ReplayBufferBase._get_storage_idx bs w)
    with (ReplayBuffer._get_storage_idx bs w) in Hidx.
  rewrite episode_storage_idx_eq in Hidx. cbv zeta in Hidx.
  assert (((bs <=? size (ReplayBuffer.ep_base (self w))) && (0 <? bs)) = true)
    as Hchk.
  { apply andb_true_intro. split; [apply Nat.leb_le|apply Nat.ltb_lt]; lia. }
  rewrite Hchk, Hfull in Hidx.
  assert ((size (ReplayBuffer.ep_base (self w)) + bs
           <=? size (ReplayBuffer.ep_base (self w))) = false) as Hover
    by (apply Nat.leb_gt; lia).
  rewrite Hover, Nat.ltb_irrefl in Hidx.
  injection Hidx as <- <-.
  pose proof (randint_values_range 0 (size (ReplayBuffer.ep_base (self w))) bs
                (np w) ltac:(lia)) as Hrange.
  set (slots := randint_values 0 (size (ReplayBuffer.ep_base (self w))) bs
                  (np w)) in *.
  assert (index_slots (if bs =? 1 then IScalar (hd 0 slots) else IArray slots)
          = slots) as Hslots.
  { destruct (bs =? 1) eqn:E; [|done]. apply Nat.eqb_eq in E.
    pose proof (length_randint_values 0 (size (ReplayBuffer.ep_base (self w)))
                  bs (np w)) as Hl.
    fold slots in Hl. rewrite E in Hl.
    destruct slots as [|i [|]]; try done. }
  rewrite Hslots in Hper.
  eexists. split; [exact Hst|]. simpl. split; [done|]. split; [lia|].
  intros key a v Ha Hv.
  destruct (Hper key a Ha) as (v' & Hv' & Hlv & Hb).
  simpl in Hv'. rewrite Hv in Hv'. injection Hv' as <-.
  eexists. split; [exact Hb|].
  assert (length a = size (ReplayBuffer.ep_base (self w))) as Hla.
  { destruct Hwf as [_ Hlen]. rewrite Forall_forall in Hlen.
    apply (Hlen _ (dict_get_elem _ _ _ Ha)). }
  split.
  - intros j i x Hj Hx Hlast.
    apply (scatter_lookup_last _ _ _ j); try done.
    + by rewrite list_lookup_fmap, Hx.
    + rewrite Hla. rewrite Forall_forall in Hrange.
      destruct (Hrange i) as [_ Hi]; [by eapply list_elem_of_lookup_2|]. lia.
  - intros i Hi. by apply scatter_lookup_notin.
Qed.
End EpisodeSlots.

Lemma episode_store_appends_witness :
  ∃ w',
    store_episode (episodes_of [1%Z; 2%Z]) (mkWorld episodes2 g0) = (Ok tt, w') ∧
    current_size (ReplayBuffer.ep_base (self w')) = 2.
Proof.
  destruct (episode_store_appends (episodes_of [1%Z; 2%Z])
              (mkWorld episodes2 g0) 2)
    as (w' & Hst & _ & Hcs & _).
  - split; simpl; [apply NoDup_singleton|repeat constructor].
  - repeat (apply Forall_cons; split); try apply Forall_nil_2;
      (eexists; split; [reflexivity|]); by repeat constructor.
  - reflexivity.
  - repeat constructor.
  - lia.
  - simpl. lia.
  - exists w'. split; [exact Hst|exact Hcs].
Defined.

(** The buffer [episodes2] with both slots taken. *)
Definition episodes2_full : @ReplayBuffer.t Z :=
  self (after (store_episode (episodes_of [1%Z; 2%Z])) (mkWorld episodes2 g0)).

Lemma episode_store_evicts_witness :
  ∃ w',
    store_episode (episodes_of [3%Z; 4%Z]) (mkWorld episodes2_full g0)
    = (Ok tt, w') ∧
    np w' = advance 2 g0 ∧
    current_size (ReplayBuffer.ep_base (self w'))
    = size (ReplayBuffer.ep_base (self w')).
Proof.
  destruct (episode_store_evicts (episodes_of [3%Z; 4%Z])
              (mkWorld episodes2_full g0) 2)
    as (w' & Hst & Hnp & Hcs & _).
  - split; vm_compute; [apply NoDup_singleton|repeat constructor].
  - change (conforms episode_shape (episodes_of [3%Z; 4%Z])
              [("u", [[[1%Z]]; [[2%Z]]])]).
    repeat (apply Forall_cons; split); try apply Forall_nil_2;
      (eexists; split; [reflexivity|]); by repeat constructor.
  - reflexivity.
  - repeat constructor.
  - vm_compute. lia.
  - reflexivity.
  - exists w'. split; [exact Hst|]. split; [exact Hnp|exact Hcs].
Defined.

(** ** Loading: what is refused, and where an archive is cut *)

Lemma py_index_nil {A} (i : Z) : py_index (@nil A) i = None.
Proof.
  unfold py_index. destruct (0 <=? i)%Z eqn:E; [apply lookup_nil|].
  apply Z.leb_gt in E. cbn [length].
  destruct (0 <=? Z.of_nat 0 + i)%Z eqn:E'; [|done]. apply Z.leb_le in E'. lia.
Qed.

Section RingLoadEdges.
Context {elem : Type} `{!Scalar elem} (is_nonzero : elem → bool).
Implicit Types (w : world (@RingReplayBuffer.t elem))
  (file : npz (list elem)) (flags : list (list elem)).

Lemma nonzero_rows_none i flags :
  Forall (fun r => existsb is_nonzero r = false) flags →
  RingReplayBuffer.nonzero_rows is_nonzero i flags = [].
Proof.
  intros H. revert i. induction H as [|r flags Hr _ IH]; intros i; simpl;
    [done|].
  rewrite IH, app_nil_r.
  destruct (length (filter (fun x => is_nonzero x = true) r)) eqn:E; [done|].
  assert (existsb is_nonzero r = true) as Hnz
    by (apply nonzero_count_pos; lia).
  congruence.
Qed.

(** X5. The ring buffer refuses an archive in which no episode ends, and
    stores nothing of it.  Without a [done] field the load fails its first
    assertion.  With a [done] field that is zero in every row, the index of
    the last episode end is looked up in an empty array: an [IndexError]
    for [num_demo = None] and for [num_demo <= 0], while a positive
    [num_demo] fails the assertion before.  The buffer, its pointer and the
    generator are as they were. *)
Theorem ring_load_rejects file num_demo w :
  match dict_get "done" file with
  | None => True
  | Some flags => Forall (fun r => existsb is_nonzero r = false) flags
  end →
  RingReplayBuffer.load_from_file is_nonzero file num_demo w
  = (Raise (match dict_get "done" file, num_demo with
            | None, _ => AssertionError
            | Some _, Some n => if (0 <? n)%Z then AssertionError else IndexError
            | Some _, None => IndexError
            end), w).
Proof.
  rewrite ring_load_eq.
  destruct (dict_get "done" file) as [flags|]; [|done].
  intros Hzero. cbv zeta. rewrite (nonzero_rows_none 0 flags Hzero).
  rewrite py_index_nil. cbn [length]. change (Z.of_nat 0) with 0%Z.
  destruct num_demo as [n|]; [|done].
  destruct (0 <? n)%Z eqn:E.
  - apply Z.ltb_lt in E.
    assert ((n <=? 0)%Z = false) as -> by (apply Z.leb_gt; lia). done.
  - apply Z.ltb_ge in E.
    assert ((n <=? 0)%Z = true) as -> by (apply Z.leb_le; lia). done.
Qed.


End RingLoadEdges.

Lemma ring_load_rejects_witness :
  RingReplayBuffer.load_from_file Z_nonzero
    (mk_npz [("u", [[5]; [6]]%Z); ("done", [[0]; [0]]%Z)] (fun _ => 2))
    None (mkWorld ring3 g0)
  = (Raise IndexError, mkWorld ring3 g0).
Proof.
  apply (ring_load_rejects Z_nonzero
           (mk_npz [("u", [[5]; [6]]%Z); ("done", [[0]; [0]]%Z)] (fun _ => 2))
           None (mkWorld ring3 g0)).
  simpl. repeat constructor.
Defined.



(** ** Loading into the episode buffer *)

Section EpisodeLoadEdges.
Context {elem : Type} `{!Scalar elem}.
Implicit Types (w : world (@ReplayBuffer.t elem))
  (file : npz (list (list elem))).


(** X8. The episode buffer refuses [num_demo = 0], unlike the ring
    buffer, and it refuses a [num_demo] above the number of episodes of
    some field of the archive: in both cases the call raises an
    [AssertionError] and the buffer and the generator are as they were.
    (For [num_demo = 0] the arrays are cut to no episode at all, and a
    batch of size zero fails the check of the allocation policy.) *)
Theorem episode_load_rejects file (n : Z) w :
  arrays file ≠ [] →
  n = 0%Z ∨ Exists (fun kv => (Z.of_nat (length kv.2) < n)%Z) file →
  ReplayBuffer.load_from_file file (Some n) w = (Raise AssertionError, w).
Proof.
  intros Hne Hn.
  destruct (forallb (fun kv : string * list (list (list elem)) =>
                       (ndim file kv.1 =? 3)
                       && (n <=? Z.of_nat (length kv.2))%Z) file) eqn:Hall.
  - destruct Hn as [->|Hex].
    2:{ apply Exists_exists in Hex as (kv & Hin & Hlt).
        rewrite forallb_forall in Hall.
        specialize (Hall kv ltac:(by apply list_elem_of_In)).
        apply andb_prop in Hall as [_ Hall].
        apply Z.leb_le in Hall. lia. }
    rewrite (episode_load_eq file 0 (Some 0%Z) w).
    2:{ split; [done|]. apply Forall_forall. intros; lia. }
    destruct (forallb _ (dict_keys file)); [|done].
    unfold mbind, M_bind, bind. rewrite store_episode_eq.
    destruct (arrays file) as [|[k v] d]; [done|].
    cbn [map head batch_sizes fst snd].
    rewrite take_0. cbn [length].
    assert (forallb (fun m => m =? 0)
              (0 :: map (fun kv : string * list (list (list elem)) => length kv.2)
                     (map (fun kv => (kv.1, take 0 kv.2)) d)) = true) as ->.
    { apply forallb_forall. intros m [<-|Hm]; [done|].
      apply in_map_iff in Hm as (kv & <- & Hkv).
      apply in_map_iff in Hkv as (kv' & <- & _). done. }
    change (ReplayBufferBase._get_storage_idx 0 w)
      with (ReplayBuffer._get_storage_idx 0 w).
    rewrite episode_storage_idx_eq. cbv zeta.
    by rewrite Nat.ltb_irrefl, andb_false_r.
  - unfold ReplayBuffer.load_from_file. unfold_monad. by rewrite Hall.
Qed.
End EpisodeLoadEdges.

(** An archive of the episodes [us] for the buffer [episodes2]. *)
Definition episodes_archive (us : list Z) : npz (list (list Z)) :=
  mk_npz (episodes_of us) (fun _ => 3).


Lemma episode_load_rejects_witness :
  ReplayBuffer.load_from_file (episodes_archive [1%Z; 2%Z]) (Some 0%Z)
    (mkWorld episodes2 g0)
  = (Raise AssertionError, mkWorld episodes2 g0).
Proof.
  apply (episode_load_rejects (episodes_archive [1%Z; 2%Z]) 0
           (mkWorld episodes2 g0)).
  - discriminate.
  - left. reflexivity.
Defined.

(** ** Sampling from the ring buffer *)

Section TraverseTotal.
Context {V W : Type}.

Lemma dict_traverse_succeeds (f : V → result W) (d : dict V) :
  Forall (fun kv => ∃ b, f kv.2 = Ok b) d → ∃ d', dict_traverse f d = Ok d'.
Proof.
  induction 1 as [|[k v] d [b Hb] _ [d' IH]]; simpl; [eauto|].
  simpl in Hb. rewrite Hb, IH. eauto.
Qed.
End TraverseTotal.

Lemma gather_succeeds {A} (a : list A) l :
  Forall (fun i => i < length a) l → ∃ xs, gather a l = Ok xs.
Proof.
  induction 1 as [|i l Hi _ [xs IH]]; simpl; [eauto|].
  destruct (lookup_lt_is_Some_2 a i Hi) as [x ->]. rewrite IH. eauto.
Qed.

Lemma reshape_all_id {A} n (d : dict (list A)) :
  Forall (fun kv => length kv.2 = n) d →
  dict_traverse (reshape_batch n) d = Ok d.
Proof.
  induction 1 as [|[k v] d Hv _ IH]; simpl; [done|].
  simpl in Hv. unfold reshape_batch at 1.
  apply Nat.eqb_eq in Hv. by rewrite Hv, IH.
Qed.

Lemma lengths_forallb {A} n (d : dict (list A)) :
  Forall (fun kv => length kv.2 = n) d →
  forallb (fun kv => length kv.2 =? n) d = true.
Proof.
  intros H. apply forallb_forall. intros kv Hkv%list_elem_of_In.
  rewrite Forall_forall in H. apply Nat.eqb_eq. by apply H.
Qed.

Section RingSampling.
Context {elem : Type} `{!Scalar elem}.
Implicit Types (self : @RingReplayBuffer.t elem) (g : np_random).

(** [sample_all] on a buffer that holds something: the valid prefix of
    every array. *)
Lemma ring_sample_all_ok self :
  0 < current_size (RingReplayBuffer.ring_base self) →
  Forall (fun kv => current_size (RingReplayBuffer.ring_base self) ≤ length kv.2)
         (buffers (RingReplayBuffer.ring_base self)) →
  is_Some (dict_get "u" (buffers (RingReplayBuffer.ring_base self))) →
  RingReplayBuffer.sample_all self
  = Ok (map (fun kv => (kv.1, take (current_size (RingReplayBuffer.ring_base self))
                                kv.2))
            (buffers (RingReplayBuffer.ring_base self))).
Proof.
  set (b := RingReplayBuffer.ring_base self).
  intros Hcs Hlen [u Hu].
  unfold RingReplayBuffer.sample_all. fold b.
  assert ((0 <? current_size b) = true) as -> by (apply Nat.ltb_lt; lia).
  cbv zeta.
  set (trs := map (fun kv : string * list (list elem) =>
                     (kv.1, take (current_size b) kv.2)) (buffers b)).
  assert (Forall (fun kv => length kv.2 = current_size b) trs) as Hl.
  { apply Forall_forall. intros kv (kv' & -> & Hin)%list_elem_of_fmap. simpl.
    rewrite Forall_forall in Hlen. specialize (Hlen _ Hin).
    rewrite length_take. lia. }
  assert (dict_get "u" trs = Some (take (current_size b) u)) as Hu'.
  { unfold trs. by rewrite (dict_get_map (take (current_size b))), Hu. }
  rewrite Hu'.
  destruct trs as [|kv trs'] eqn:Et; [done|]. rewrite <- Et in *.
  rewrite lengths_forallb; [done|].
  rewrite Forall_forall in Hl.
  pose proof (Hl _ (dict_get_elem _ _ _ Hu')) as Hlu. simpl in Hlu.
  rewrite Hlu. by apply Forall_forall.
Qed.

(** X9. On a ring buffer that holds something and has the field [u],
    [sample_all] returns the valid prefix of every field: the fields of the
    buffer in their order, [current_size] transitions each, transition [i]
    being slot [i].  It is the dictionary [dump_to_file] archives. *)
Theorem ring_sample_all_valid_prefix self :
  wf_buffers (RingReplayBuffer.ring_base self) →
  0 < current_size (RingReplayBuffer.ring_base self)
    ≤ size (RingReplayBuffer.ring_base self) →
  is_Some (dict_get "u" (buffers (RingReplayBuffer.ring_base self))) →
  ∃ trs,
    RingReplayBuffer.sample_all self = Ok trs ∧
    dump_to_file (RingReplayBuffer.ring_base self) = Some trs ∧
    dict_keys trs = dict_keys (buffers (RingReplayBuffer.ring_base self)) ∧
    Forall (fun kv => length kv.2
                      = current_size (RingReplayBuffer.ring_base self)) trs ∧
    ∀ key a i,
      dict_get key (buffers (RingReplayBuffer.ring_base self)) = Some a →
      i < current_size (RingReplayBuffer.ring_base self) →
      dict_get key trs ≫= (.!! i) = a !! i.
Proof.
  intros [Hnd Hlen] Hcs Hu.
  assert (Forall (fun kv : string * list (list elem) =>
                    current_size (RingReplayBuffer.ring_base self)
                    ≤ length kv.2)
                 (buffers (RingReplayBuffer.ring_base self))) as Hlen'.
  { eapply Forall_impl; [exact Hlen|]. intros kv Hkv. simpl in Hkv.
    rewrite Hkv. apply Hcs. }
  eexists. split; [apply ring_sample_all_ok; [apply Hcs|done|done]|].
  split; [|split; [|split]].
  - unfold dump_to_file.
    assert ((current_size (RingReplayBuffer.ring_base self) =? 0) = false)
      as -> by (apply Nat.eqb_neq; lia).
    done.
  - apply (dict_keys_map
             (fun _ v => take (current_size (RingReplayBuffer.ring_base self)) v)).
  - apply Forall_forall. intros kv (kv' & -> & Hin)%list_elem_of_fmap. simpl.
    rewrite Forall_forall in Hlen. rewrite length_take, (Hlen _ Hin). lia.
  - intros key a i Ha Hi.
    rewrite (dict_get_map
               (take (current_size (RingReplayBuffer.ring_base self)))), Ha.
    simpl. by apply lookup_take_lt.
Qed.

(** X10. [sample] on a ring buffer that holds something draws
    [batch_size] slots among the valid ones, with repetition, and returns
    for every field the entries of these slots: record [i] of the batch is
    one stored transition, the same slot in every field.  The call
    consumes [batch_size] random numbers and does not fail. *)
Theorem ring_sample_draws_slots self (batch_size : nat) g :
  wf_buffers (RingReplayBuffer.ring_base self) →
  0 < current_size (RingReplayBuffer.ring_base self)
    ≤ size (RingReplayBuffer.ring_base self) →
  ∃ trs,
    RingReplayBuffer.sample self batch_size g = (Ok trs, advance batch_size g) ∧
    dict_keys trs = dict_keys (buffers (RingReplayBuffer.ring_base self)) ∧
    Forall (fun kv => length kv.2 = batch_size) trs ∧
    ∀ i, i < batch_size →
      ∃ slot,
        randint_values 0 (current_size (RingReplayBuffer.ring_base self))
          batch_size g !! i = Some slot ∧
        slot < current_size (RingReplayBuffer.ring_base self) ∧
        ∀ key a,
          dict_get key (buffers (RingReplayBuffer.ring_base self)) = Some a →
          dict_get key trs ≫= (.!! i) = a !! slot.
Proof.
  set (b := RingReplayBuffer.ring_base self).
  intros [Hnd Hlen] Hcs.
  set (idxs := randint_values 0 (current_size b) batch_size g).
  assert (Forall (fun i => i < current_size b) idxs) as Hrange.
  { eapply Forall_impl; [apply randint_values_range; lia|].
    simpl. intros; lia. }
  assert (length idxs = batch_size) as Hli by apply length_randint_values.
  destruct (dict_traverse_succeeds (fun a => gather a idxs) (buffers b))
    as [trs Htrs].
  { apply Forall_forall. intros kv Hkv. apply gather_succeeds.
    rewrite Forall_forall in Hlen. rewrite (Hlen _ Hkv).
    eapply Forall_impl; [exact Hrange|]. simpl. intros; lia. }
  assert (Forall (fun kv => length kv.2 = batch_size) trs) as Hl.
  { apply Forall_forall. intros [k xs] Hin.
    assert (k ∈ dict_keys trs) as Hk
      by (apply list_elem_of_fmap; by exists (k, xs)).
    assert (dict_get k trs = Some xs) as Hxs.
    { apply dict_get_of_elem; [|done].
      by rewrite (dict_traverse_keys _ _ _ Htrs). }
    pose proof (dict_traverse_get _ _ _ k Htrs) as Hget.
    destruct (dict_get k (buffers b)) as [a|]; [|congruence].
    destruct Hget as (xs' & Hg & Hxs'). rewrite Hxs in Hxs'.
    injection Hxs' as <-. simpl. apply gather_ok in Hg as [-> _]. done. }
  exists trs. split; [|split; [by eapply dict_traverse_keys|split; [done|]]].
  - unfold RingReplayBuffer.sample. fold b.
    repeat (progress unfold_monad). unfold randint.
    assert ((0 <? current_size b) = true) as -> by (apply Nat.ltb_lt; lia).
    fold idxs. rewrite Htrs, (reshape_all_id _ _ Hl), (lengths_forallb _ _ Hl).
    done.
  - intros i Hi.
    destruct (lookup_lt_is_Some_2 idxs i) as [slot Hslot]; [lia|].
    exists slot. split; [done|]. split.
    { rewrite Forall_forall in Hrange. apply Hrange.
      by eapply list_elem_of_lookup_2. }
    intros key a Ha.
    pose proof (dict_traverse_get _ _ _ key Htrs) as Hget. rewrite Ha in Hget.
    destruct Hget as (xs & Hg & ->). simpl.
    apply gather_ok in Hg as [_ Hg]. by destruct (Hg i slot Hslot).
Qed.
End RingSampling.

Lemma ring_sample_all_valid_prefix_witness :
  RingReplayBuffer.sample_all ring3_closed
  = Ok [("u", [[1]; [2]]%Z); ("done", [[0]; [1]]%Z)].
Proof.
  destruct (ring_sample_all_valid_prefix ring3_closed)
    as (trs & Hs & Hd & _).
  - split; vm_compute.
    + apply NoDup_cons. split; [|apply NoDup_singleton].
      intros Hin%list_elem_of_singleton. discriminate Hin.
    + repeat constructor.
  - vm_compute. lia.
  - vm_compute. eauto.
  - rewrite Hs. f_equal.
    assert (Some trs = Some [("u", [[1]; [2]]%Z); ("done", [[0]; [1]]%Z)])
      as Heq by (rewrite <- Hd; vm_compute; reflexivity).
    by injection Heq.
Defined.

Lemma ring_sample_draws_slots_witness :
  ∃ trs,
    RingReplayBuffer.sample ring3_closed 4 g0 = (Ok trs, advance 4 g0) ∧
    Forall (fun kv => length kv.2 = 4) trs.
Proof.
  destruct (ring_sample_draws_slots ring3_closed 4 g0)
    as (trs & Hs & _ & Hl & _).
  - split; vm_compute.
    + apply NoDup_cons. split; [|apply NoDup_singleton].
      intros Hin%list_elem_of_singleton. discriminate Hin.
    + repeat constructor.
  - vm_compute. lia.
  - exists trs. split; [exact Hs|exact Hl].
Defined.

(** ** Sampling from the episode buffer *)

(** The fields that hold one step more than the horizon: the observations
    and the achieved goals, which include the state after the last action. *)
Definition has_next_step (key : string) : bool :=
  String.eqb key "o" || String.eqb key "ag".


Lemma py_index_nat {A} (l : list A) (t : nat) : py_index l (Z.of_nat t) = l !! t.
Proof.
  unfold py_index.
  assert ((0 <=? Z.of_nat t)%Z = true) as -> by (apply Z.leb_le; lia).
  by rewrite Nat2Z.id.
Qed.


Lemma dict_get_set_is_Some {V} k k' (v : V) d :
  is_Some (dict_get k d) → is_Some (dict_get k (dict_set k' v d)).
Proof.
  intros H. destruct (decide (k' = k)) as [->|Hne].
  - rewrite dict_get_set_eq. eauto.
  - by rewrite dict_get_set_ne.
Qed.

Section EpisodeSampling.
Context {elem : Type} `{!Scalar elem}.
Implicit Types (self : @ReplayBuffer.t elem) (g : np_random).

(** The arrays [sample] hands to [sample_transitions], field by field. *)
Lemma derived_buffers_get self bufs :
  ReplayBuffer.derived_buffers self = Ok bufs →
  let b := ReplayBuffer.ep_base self in
  (∀ key, key ∉ ["o_2"; "ag_2"; "g_2"] →
     dict_get key bufs = take (current_size b) <$> dict_get key (buffers b)) ∧
  (∃ o, dict_get "o" (buffers b) = Some o ∧
        dict_get "o_2" bufs = Some (map (drop 1) (take (current_size b) o))) ∧
  (∀ ag, dict_get "ag" (buffers b) = Some ag →
         dict_get "ag_2" bufs = Some (map (drop 1) (take (current_size b) ag))).
Proof.
  unfold ReplayBuffer.derived_buffers. cbv zeta.
  set (b := ReplayBuffer.ep_base self).
  set (b0 := map (fun kv : string * list (list (list elem)) =>
                    (kv.1, take (current_size b) kv.2)) (buffers b)).
  assert (∀ key, dict_get key b0
                 = take (current_size b) <$> dict_get key (buffers b)) as Hb0.
  { intros key. apply dict_get_map. }
  destruct (dict_get "o" b0) as [o0|] eqn:Ho0; [|done].
  rewrite Hb0 in Ho0.
  destruct (dict_get "o" (buffers b)) as [o|] eqn:Ho; [|done].
  injection Ho0 as <-.
  set (b1 := dict_set "o_2" (map (drop 1) (take (current_size b) o)) b0).
  assert (dict_get "ag" b1 = take (current_size b) <$> dict_get "ag" (buffers b))
    as Hag1.
  { unfold b1. rewrite dict_get_set_ne by done. apply Hb0. }
  rewrite Hag1.
  set (b2 := match take (current_size b) <$> dict_get "ag" (buffers b) with
             | Some ag => dict_set "ag_2" (map (drop 1) ag) b1
             | None => b1
             end).
  assert (∀ key, key ≠ "ag_2" → dict_get key b2 = dict_get key b1) as Hb2.
  { intros key Hk. unfold b2.
    destruct (take (current_size b) <$> dict_get "ag" (buffers b)); [|done].
    by rewrite dict_get_set_ne. }
  assert (∀ key, key ≠ "g_2" →
            dict_get key (match dict_get "g" b2 with
                          | Some gv => dict_set "g_2" gv b2
                          | None => b2
                          end) = dict_get key b2) as Hb3.
  { intros key Hk. destruct (dict_get "g" b2); [|done].
    by rewrite dict_get_set_ne. }
  intros [= <-]. split; [|split].
  - intros key Hk.
    assert (key ≠ "o_2" ∧ key ≠ "ag_2" ∧ key ≠ "g_2") as (H1 & H2 & H3).
    { repeat split; intros ->; apply Hk; repeat constructor. }
    rewrite Hb3, Hb2 by done. unfold b1.
    rewrite dict_get_set_ne by done. apply Hb0.
  - exists o. split; [done|].
    rewrite Hb3, Hb2 by done. unfold b1. apply dict_get_set_eq.
  - intros ag Hag.
    rewrite Hb3 by done.
    unfold b2. rewrite Hag. simpl. apply dict_get_set_eq.
Qed.




(** X12. Every record of a batch the uniform sampler returns is one
    stored transition: record [i] is taken at the [i]-th episode and the
    [i]-th time step drawn, an episode below [current_size] and a step
    below [T], the same pair for every field.  A field of the buffer gives
    its entry at that step, and [o_2] and [ag_2] give the observation and
    the achieved goal one step later. *)
Theorem uniform_sample_is_stored self (batch_size : nat) g g' trs :
  UniformReplayBuffer.sample self batch_size g = (Ok trs, g') →
  ∃ u,
    dict_get "u" (buffers (ReplayBuffer.ep_base self)) = Some u ∧
    g' = advance batch_size (advance batch_size g) ∧
    ∀ i, i < batch_size →
      ∃ e t,
        randint_values 0
          (Nat.min (current_size (ReplayBuffer.ep_base self)) (length u))
          batch_size g !! i = Some e ∧
        randint_values 0 (ReplayBuffer.T self) batch_size
          (advance batch_size g) !! i = Some t ∧
        e < current_size (ReplayBuffer.ep_base self) ∧
        t < ReplayBuffer.T self ∧
        (∀ key a,
           key ∉ ["o_2"; "ag_2"; "g_2"] →
           dict_get key (buffers (ReplayBuffer.ep_base self)) = Some a →
           is_Some (dict_get key trs ≫= (.!! i)) ∧
           dict_get key trs ≫= (.!! i) = a !! e ≫= (.!! t)) ∧
        (∀ o,
           dict_get "o" (buffers (ReplayBuffer.ep_base self)) = Some o →
           is_Some (dict_get "o_2" trs ≫= (.!! i)) ∧
           dict_get "o_2" trs ≫= (.!! i) = o !! e ≫= (.!! (t + 1))) ∧
        (∀ ag,
           dict_get "ag" (buffers (ReplayBuffer.ep_base self)) = Some ag →
           is_Some (dict_get "ag_2" trs ≫= (.!! i)) ∧
           dict_get "ag_2" trs ≫= (.!! i) = ag !! e ≫= (.!! (t + 1))).
Proof.
  unfold UniformReplayBuffer.sample. rewrite sample_eq.
  set (b := ReplayBuffer.ep_base self).
  destruct (0 <? current_size b) eqn:Hcs; [|done].
  destruct (ReplayBuffer.derived_buffers self) as [bufs|] eqn:Hd; [|done].
  destruct (derived_buffers_get self bufs Hd) as (Hget & (o & Ho & Ho2) & Hag2).
  fold b in Hget, Ho, Ho2, Hag2.
  rewrite uniform_sample_eq.
  destruct (dict_get "u" bufs) as [u'|] eqn:Hu'; [|done].
  assert (∃ u, dict_get "u" (buffers b) = Some u ∧ u' = take (current_size b) u)
    as (u & Hu & ->).
  { rewrite Hget in Hu'.
    - destruct (dict_get "u" (buffers b)) as [u|]; [|done].
      injection Hu' as <-. eauto.
    - intros Hin. repeat (apply elem_of_cons in Hin as [Hin|Hin]; [done|]).
      inversion Hin. }
  rewrite length_take.
  set (n := Nat.min (current_size b) (length u)).
  destruct (0 <? n) eqn:Hn; [|done].
  destruct (0 <? ReplayBuffer.T self) eqn:HT; [|done].
  apply Nat.ltb_lt in Hn, HT.
  destruct (picked _ bufs batch_size g) as [tr0|] eqn:Hpick; [|done].
  destruct (forallb _ _); [|done]. intros [= <- <-].
  exists u. split; [done|]. split; [done|].
  unfold picked in Hpick. rewrite Hu', length_take in Hpick. fold n in Hpick.
  set (es := randint_values 0 n batch_size g) in *.
  set (ts := randint_values 0 (ReplayBuffer.T self) batch_size
               (advance batch_size g)) in *.
  intros i Hi.
  destruct (lookup_lt_is_Some_2 es i) as [e He];
    [unfold es; by rewrite length_randint_values|].
  destruct (lookup_lt_is_Some_2 ts i) as [t Ht];
    [unfold ts; by rewrite length_randint_values|].
  assert (e < n) as Hen.
  { pose proof (randint_values_range 0 n batch_size g Hn) as Hr.
    rewrite Forall_forall in Hr. apply (Hr e).
    by eapply list_elem_of_lookup_2. }
  assert (t < ReplayBuffer.T self) as HtT.
  { pose proof (randint_values_range 0 (ReplayBuffer.T self) batch_size
                  (advance batch_size g) HT) as Hr.
    rewrite Forall_forall in Hr. apply (Hr t).
    by eapply list_elem_of_lookup_2. }
  assert (map Z.of_nat ts !! i = Some (Z.of_nat t)) as Hti
    by (by rewrite list_lookup_fmap, Ht).
  exists e, t. split; [done|]. split; [done|]. split; [lia|]. split; [done|].
  assert (∀ key a', dict_get key bufs = Some a' →
            ∃ ep x, a' !! e = Some ep ∧ ep !! t = Some x ∧
                    dict_get key tr0 ≫= (.!! i) = Some x) as Hrec.
  { intros key a' Ha'.
    pose proof (dict_traverse_get _ _ _ key Hpick) as Hg. rewrite Ha' in Hg.
    destruct Hg as (xs & Hg & Hxs).
    destruct (gather2_ok _ _ _ _ Hg) as [_ Hrow].
    destruct (Hrow i e _ He Hti) as (ep & x & Hep & Hx & Hxi).
    rewrite py_index_nat in Hx.
    exists ep, x. rewrite Hxs. done. }
  assert (∀ k2 a,
            dict_get k2 bufs = Some (map (drop 1) (take (current_size b) a)) →
            is_Some (dict_get k2 tr0 ≫= (.!! i)) ∧
            dict_get k2 tr0 ≫= (.!! i) = a !! e ≫= (.!! (t + 1))) as Hnext.
  { intros k2 a Hk2.
    destruct (Hrec _ _ Hk2) as (ep' & x & Hep & Hx & ->).
    rewrite list_lookup_fmap, lookup_take_lt in Hep by lia.
    destruct (a !! e) as [ep|]; [|done]. injection Hep as <-.
    rewrite lookup_drop in Hx. simpl.
    replace (t + 1) with (1 + t) by lia. split; [eauto|done]. }
  split; [|split].
  - intros key a Hk Ha.
    destruct (Hrec key (take (current_size b) a)) as (ep & x & Hep & Hx & ->).
    { by rewrite Hget, Ha. }
    rewrite lookup_take_lt in Hep by lia. rewrite Hep. simpl.
    split; [eauto|done].
  - intros o' Ho'. apply Hnext. rewrite Ho in Ho'. by injection Ho' as <-.
  - intros ag Hag. by apply Hnext, Hag2.
Qed.
End EpisodeSampling.



Lemma uniform_sample_is_stored_witness :
  ∃ u, dict_get "u" (buffers (ReplayBuffer.ep_base demo_replay)) = Some u.
Proof.
  destruct (uniform_sample_is_stored demo_replay 4 g1
              (advance 4 (advance 4 g1))
              [("o", [[4]; [0]; [4]; [0]]%Z);
               ("u", [[13]; [10]; [13]; [10]]%Z);
               ("ag", [[104]; [100]; [104]; [100]]%Z);
               ("g", [[8]; [7]; [8]; [7]]%Z);
               ("r", [[50]; [50]; [50]; [50]]%Z);
               ("o_2", [[5]; [1]; [5]; [1]]%Z);
               ("ag_2", [[105]; [101]; [105]; [101]]%Z);
               ("g_2", [[8]; [7]; [8]; [7]]%Z)])
    as (u & Hu & _).
  - vm_compute. reflexivity.
  - exists u. exact Hu.
Defined.

(** ** All the transitions of the episode buffer *)




Section DictSetFacts.
Context {V : Type}.
Implicit Types (d : dict V) (k : string) (v : V).

Lemma dict_keys_set k v d :
  dict_keys (dict_set k v d)
  = if dict_mem k d then dict_keys d else dict_keys d ++ [k].
Proof.
  unfold dict_mem. induction d as [|[k' v'] d IH]; simpl; [done|].
  destruct (String.eqb k k') eqn:E; simpl; [done|].
  rewrite IH. by destruct (dict_get k d).
Qed.

Lemma dict_set_NoDup k v d :
  NoDup (dict_keys d) → NoDup (dict_keys (dict_set k v d)).
Proof.
  intros Hnd. rewrite dict_keys_set. unfold dict_mem.
  destruct (dict_get k d) eqn:E; [done|].
  apply NoDup_app. split; [done|]. split; [|apply NoDup_singleton].
  intros x Hx ->%list_elem_of_singleton.
  apply dict_keys_get in Hx as [? Hx]. congruence.
Qed.

End DictSetFacts.


Section EpisodeSampleAll.
Context {elem : Type} `{!Scalar elem}.
Implicit Types (self : @ReplayBuffer.t elem).

End EpisodeSampleAll.


(** ** What hindsight relabelling leaves alone *)

Section HerUntouched.
Context {elem : Type} `{!Scalar elem} (minus_100 : elem).
Implicit Types (self : @HERReplayBuffer.t elem)
  (buffers : dict (list (list (list elem)))) (g : np_random).

Lemma mark_q_lookup_notin hidx (tr : dict (list (list elem))) i k :
  i ∉ hidx →
  dict_get k (HERReplayBuffer.mark_q minus_100 hidx tr) ≫= (.!! i)
  = dict_get k tr ≫= (.!! i).
Proof.
  intros Hi. unfold HERReplayBuffer.mark_q.
  destruct (dict_get "q" tr) as [q|] eqn:Hq; [|done].
  destruct (gather q hidx) as [qs|]; [|done].
  destruct (decide (k = "q")) as [->|Hne].
  - rewrite dict_get_set_eq, Hq. simpl. by apply scatter_lookup_notin.
  - by rewrite dict_get_set_ne.
Qed.

(** The batch of the hindsight sampler, from the batch the uniform sampler
    returns on the same buffers and the same generator. *)
Lemma her_sample_from_uniform self buffers bs g g' trs :
  HERReplayBuffer.sample_transitions minus_100 self buffers bs g = (Ok trs, g') →
  ∃ tr0 future_ag goals goals2 goals' goals2' r,
    UniformReplayBuffer.sample_transitions (HERReplayBuffer.replay self)
      buffers bs g
    = (Ok tr0, advance bs (advance bs g)) ∧
    g' = advance bs (advance bs (advance bs (advance bs g))) ∧
    Forall (fun kv => length kv.2 = bs) tr0 ∧
    dict_get "g" tr0 = Some goals ∧ dict_get "g_2" tr0 = Some goals2 ∧
    HERReplayBuffer.setrows (last_axis "g" buffers) (last_axis "ag" buffers)
      goals
      (HERReplayBuffer.her_indexes_of (HERReplayBuffer.future_p self)
         (uniform_values bs (advance bs (advance bs g))))
      future_ag = Ok goals' ∧
    HERReplayBuffer.setrows (last_axis "g_2" buffers) (last_axis "ag" buffers)
      goals2
      (HERReplayBuffer.her_indexes_of (HERReplayBuffer.future_p self)
         (uniform_values bs (advance bs (advance bs g))))
      future_ag = Ok goals2' ∧
    trs = dict_set "r" r
            (relabelled minus_100
               (HERReplayBuffer.her_indexes_of (HERReplayBuffer.future_p self)
                  (uniform_values bs (advance bs (advance bs g))))
               goals' goals2' tr0).
Proof.
  rewrite her_sample_eq, uniform_sample_eq. cbv zeta.
  destruct (dict_get "u" buffers) as [u|]; [|done].
  destruct (0 <? length u); [|done].
  destruct (0 <? ReplayBuffer.T _); [|done].
  destruct (picked _ buffers bs g) as [tr0|] eqn:Hpick; [|done].
  intros [= Hrel <-]. apply relabel_inv in Hrel. cbv zeta in Hrel.
  destruct Hrel as (future_t & ag & her_episodes & future_ag & goals & goals2
                    & goals' & goals2' & ag_2 & g_2 & _ & _ & _ & _ & Hg0
                    & Hg20 & Hg1 & Hg21 & _ & _ & -> & _).
  exists tr0, future_ag, goals, goals2, goals', goals2'. eexists.
  split; [done|]. split; [done|]. split; [by eapply picked_lengths|]. done.
Qed.

(** X14. Hindsight relabelling touches the goals of the chosen records
    and nothing else but the reward.  A batch of the hindsight sampler
    agrees with the batch the uniform sampler returns on the same buffers
    and the same generator in every field other than [g], [g_2], [q] and
    [r]; and in every field other than [r] it agrees on every record that
    was not chosen for relabelling, so these records keep the goal that is
    stored with them. *)
Theorem her_relabel_touches_goals_only self buffers (batch_size : nat) g g' trs :
  HERReplayBuffer.sample_transitions minus_100 self buffers batch_size g
  = (Ok trs, g') →
  ∃ tr0,
    UniformReplayBuffer.sample_transitions (HERReplayBuffer.replay self)
      buffers batch_size g
    = (Ok tr0, advance batch_size (advance batch_size g)) ∧
    g' = advance batch_size
           (advance batch_size (advance batch_size (advance batch_size g))) ∧
    (∀ key, key ∉ ["g"; "g_2"; "q"; "r"] →
       dict_get key trs = dict_get key tr0) ∧
    (∀ key i,
       key ≠ "r" →
       i ∉ HERReplayBuffer.her_indexes_of (HERReplayBuffer.future_p self)
             (uniform_values batch_size
                (advance batch_size (advance batch_size g))) →
       dict_get key trs ≫= (.!! i) = dict_get key tr0 ≫= (.!! i)).
Proof.
  intros Hs.
  destruct (her_sample_from_uniform _ _ _ _ _ _ Hs)
    as (tr0 & future_ag & goals & goals2 & goals' & goals2' & r & Hu & Hg' & _
        & Hg0 & Hg20 & Hg1 & Hg21 & ->).
  exists tr0. split; [done|]. split; [done|]. unfold relabelled. split.
  - intros key Hk.
    assert (key ≠ "g" ∧ key ≠ "g_2" ∧ key ≠ "q" ∧ key ≠ "r")
      as (H1 & H2 & H3 & H4).
    { repeat split; intros ->; apply Hk; repeat constructor. }
    rewrite dict_get_set_ne, mark_q_get_ne by done.
    by rewrite !dict_get_set_ne.
  - intros key i Hk Hi.
    rewrite dict_get_set_ne by done.
    rewrite mark_q_lookup_notin by done.
    destruct (decide (key = "g_2")) as [->|H2].
    { rewrite dict_get_set_eq, Hg20. simpl.
      by eapply setrows_lookup_notin. }
    rewrite dict_get_set_ne by done.
    destruct (decide (key = "g")) as [->|H1].
    { rewrite dict_get_set_eq, Hg0. simpl. by eapply setrows_lookup_notin. }
    by rewrite dict_get_set_ne.
Qed.

(** X15. Where the buffers have a field [q], every record chosen for
    relabelling has its [q] overwritten by [-100] in every component; the
    row keeps its width. *)
Theorem her_relabel_marks_q self buffers (batch_size : nat) g g' trs :
  HERReplayBuffer.sample_transitions minus_100 self buffers batch_size g
  = (Ok trs, g') →
  ∃ tr0,
    UniformReplayBuffer.sample_transitions (HERReplayBuffer.replay self)
      buffers batch_size g
    = (Ok tr0, advance batch_size (advance batch_size g)) ∧
    ∀ q0 i,
      dict_get "q" tr0 = Some q0 →
      i ∈ HERReplayBuffer.her_indexes_of (HERReplayBuffer.future_p self)
            (uniform_values batch_size
               (advance batch_size (advance batch_size g))) →
      ∃ row,
        q0 !! i = Some row ∧
        dict_get "q" trs ≫= (.!! i) = Some (map (fun _ => minus_100) row).
Proof.
  intros Hs.
  destruct (her_sample_from_uniform _ _ _ _ _ _ Hs)
    as (tr0 & future_ag & goals & goals2 & goals' & goals2' & r & Hu & Hg'
        & Hlen & Hg0 & Hg20 & _ & _ & ->).
  exists tr0. split; [done|]. intros q0 i Hq0 Hi.
  set (hidx := HERReplayBuffer.her_indexes_of (HERReplayBuffer.future_p self)
                 (uniform_values batch_size
                    (advance batch_size (advance batch_size g)))) in *.
  assert (length q0 = batch_size) as Hlq.
  { rewrite Forall_forall in Hlen. apply (Hlen _ (dict_get_elem _ _ _ Hq0)). }
  assert (i < batch_size) as Hib.
  { apply her_indexes_lt in Hi. by rewrite length_uniform_values in Hi. }
  destruct (lookup_lt_is_Some_2 q0 i) as [row Hrow]; [lia|].
  exists row. split; [done|].
  rewrite dict_get_set_ne by done. unfold relabelled, HERReplayBuffer.mark_q.
  rewrite !dict_get_set_ne, Hq0 by done.
  destruct (gather_succeeds q0 hidx) as [qs Hqs].
  { apply Forall_forall. intros j Hj. apply her_indexes_lt in Hj.
    rewrite length_uniform_values in Hj. lia. }
  rewrite Hqs, dict_get_set_eq. simpl.
  apply list_elem_of_lookup in Hi as [j Hj].
  apply (scatter_lookup _ _ _ j); [apply np_where_NoDup|done| |lia].
  destruct (gather_ok _ _ _ Hqs) as [_ Hget].
  destruct (Hget j i Hj) as [Hqj _].
  by rewrite list_lookup_fmap, Hqj, Hrow.
Qed.
End HerUntouched.

Lemma her_relabel_touches_goals_only_witness :
  ∃ tr0,
    UniformReplayBuffer.sample_transitions
      (HERReplayBuffer.replay (demo_her 1)) demo_buffers 4 g1
    = (Ok tr0, advance 4 (advance 4 g1)) ∧
    dict_get "u" demo_batch = dict_get "u" tr0.
Proof.
  destruct (her_relabel_touches_goals_only (-100)%Z (demo_her 1) demo_buffers 4
              g1 (advance 4 (advance 4 (advance 4 (advance 4 g1)))) demo_batch)
    as (tr0 & Hu & _ & Hsame & _).
  - vm_compute. reflexivity.
  - exists tr0. split; [exact Hu|]. apply Hsame.
    intros Hin. repeat (apply elem_of_cons in Hin as [Hin|Hin]; [done|]).
    inversion Hin.
Defined.

(** The buffers of [demo_buffers] with a field [q]. *)
Definition demo_buffers_q : dict (list (list (list Z))) :=
  demo_buffers ++ [("q", [[[1]; [2]]; [[3]; [4]]]%Z)].

Lemma her_relabel_marks_q_witness :
  ∃ tr0,
    UniformReplayBuffer.sample_transitions
      (HERReplayBuffer.replay (demo_her 1)) demo_buffers_q 4 g1
    = (Ok tr0, advance 4 (advance 4 g1)) ∧
    dict_get "q" tr0 = Some [[4]; [1]; [4]; [1]]%Z ∧
    dict_get "q" (demo_batch ++ [("q", [[-100]; [-100]; [4]; [-100]]%Z)])
      ≫= (.!! 0)
    = Some [(-100)%Z].
Proof.
  destruct (her_relabel_marks_q (-100)%Z (demo_her 1) demo_buffers_q 4
              g1 (advance 4 (advance 4 (advance 4 (advance 4 g1))))
              (demo_batch ++ [("q", [[-100]; [-100]; [4]; [-100]]%Z)]))
    as (tr0 & Hu & Hq).
  - vm_compute. reflexivity.
  - assert (Ok tr0 = (UniformReplayBuffer.sample_transitions
                        (HERReplayBuffer.replay (demo_her 1))
                        demo_buffers_q 4 g1).1) as Htr0
      by (by rewrite Hu).
    vm_compute in Htr0. injection Htr0 as ->.
    eexists. split; [exact Hu|]. split; [reflexivity|].
    destruct (Hq [[4]; [1]; [4]; [1]]%Z 0) as (row & Hrow & Hmark).
    + reflexivity.
    + vm_compute. left.
    + injection Hrow as <-. exact Hmark.
Defined.

(** ** The constructors *)

Section Constructors.
Context {elem : Type} `{!Scalar elem}.

(** X16. The hindsight buffer turns the ratio [k] of relabelled to
    regular records into the probability [future_p = 1 - (1.0 / (1 + k))],
    computed in doubles: the integer [1 + k] is converted, the quotient and
    the difference are rounded.  For a horizon [T > 0] the constructor
    raises a [ZeroDivisionError] for [k = -1], an [OverflowError] for a
    [k] so large that [1 + k] has no double, and goes through for every
    other [k], with that [future_p], the horizon [T], the reward function
    and the capacity of [size_in_transitions // T] episodes.  [future_p]
    is [0] for [k = 0] and a number of [[0, 1]] for [k >= 0]. *)
Theorem her_init_future_p (uninit : string → nat → nat → nat → elem)
    (buffer_shapes : dict (list nat)) (size_in_transitions T : nat) (k : Z)
    (reward_fun : @HERReplayBuffer.reward_function elem) :
  0 < T →
  match HERReplayBuffer.__init__ uninit buffer_shapes size_in_transitions T k
          reward_fun with
  | Ok b =>
      k ≠ (-1)%Z ∧ (Z.abs (1 + k) < 2 ^ 1024 - 2 ^ 970)%Z ∧
      HERReplayBuffer.future_p b = HERReplayBuffer.future_p_of k ∧
      (k = 0%Z → HERReplayBuffer.future_p b = 0%Q) ∧
      ((0 ≤ k)%Z →
       (0 <= HERReplayBuffer.future_p b)%Q ∧
       (HERReplayBuffer.future_p b <= 1)%Q) ∧
      HERReplayBuffer.reward_fun b = reward_fun ∧
      ReplayBuffer.T (HERReplayBuffer.replay b) = T ∧
      size (ReplayBuffer.ep_base (HERReplayBuffer.replay b))
      = size_in_transitions / T
  | Raise e =>
      (k = (-1)%Z ∧ e = ZeroDivisionError) ∨
      ((2 ^ 1024 - 2 ^ 970 ≤ Z.abs (1 + k))%Z ∧ e = OverflowError)
  end.
Proof.
  intros HT. unfold HERReplayBuffer.__init__, ReplayBuffer.__init__.
  assert ((T =? 0) = false) as -> by (apply Nat.eqb_neq; lia).
  unfold HERReplayBuffer.converts_to_double.
  destruct (Z.abs (1 + k) <? 2 ^ 1024 - 2 ^ 970)%Z eqn:Hc; simpl.
  2:{ apply Z.ltb_ge in Hc. by right. }
  apply Z.ltb_lt in Hc.
  destruct (1 + k =? 0)%Z eqn:E.
  - apply Z.eqb_eq in E. left. split; [lia|done].
  - apply Z.eqb_neq in E.
    cbn [HERReplayBuffer.future_p HERReplayBuffer.replay ReplayBuffer.T
         HERReplayBuffer.reward_fun
         ReplayBuffer.ep_base ReplayBufferBase.__init__ size].
    split; [lia|]. split; [done|]. split; [done|]. split; [by intros ->|].
    split; [apply future_p_of_range|done].
Qed.

(** X17. The capacity of the episode buffer is the requested number of
    transitions divided by the horizon, rounded down: the buffer never
    holds more than [size_in_transitions] transitions, and up to [T - 1]
    of them are given away.  A request below one episode
    ([size_in_transitions < T]) gives a buffer of capacity zero, which
    refuses every store and is left as it was. *)
Theorem episode_capacity_rounds_down
    (uninit : string → nat → nat → nat → elem)
    (buffer_shapes : dict (list nat)) (size_in_transitions T : nat) :
  0 < T →
  ∃ b,
    ReplayBuffer.__init__ uninit buffer_shapes size_in_transitions T = Ok b ∧
    ReplayBuffer.T b = T ∧
    ReplayBuffer.get_current_size_transiton b = 0 ∧
    size (ReplayBuffer.ep_base b) * T ≤ size_in_transitions
      < (size (ReplayBuffer.ep_base b) + 1) * T ∧
    (size_in_transitions < T →
     ∀ batch g, ∃ e,
       store_episode batch (mkWorld b g) = (Raise e, mkWorld b g)).
Proof.
  intros HT. unfold ReplayBuffer.__init__.
  assert ((T =? 0) = false) as -> by (apply Nat.eqb_neq; lia).
  eexists. split; [done|]. cbn [ReplayBuffer.T]. split; [done|].
  split; [done|]. simpl. split.
  - pose proof (Nat.div_mod_eq size_in_transitions T) as Hdm.
    pose proof (Nat.mod_upper_bound size_in_transitions T ltac:(lia)) as Hm.
    revert Hdm Hm. generalize (size_in_transitions / T).
    generalize (size_in_transitions mod T). intros m q Hdm Hm. nia.
  - intros Hsmall batch g. rewrite store_episode_eq.
    destruct (head (batch_sizes batch)) as [bs|]; [|eauto].
    destruct (forallb _ _); [|eauto].
    change (ReplayBufferBase._get_storage_idx bs ?w)
      with (ReplayBuffer._get_storage_idx bs w).
    rewrite episode_storage_idx_eq. cbv zeta. simpl.
    rewrite (Nat.div_small _ _ Hsmall).
    destruct bs as [|bs]; simpl; eauto.
Qed.
End Constructors.

Lemma her_init_future_p_witness :
  ∃ b,
    HERReplayBuffer.__init__ (fun _ _ _ _ => 0%Z) [("u", [1; 1])] 10 2 4
      sparse_reward = Ok b ∧
    (HERReplayBuffer.future_p b == 3602879701896397 # 4503599627370496)%Q.
Proof.
  pose proof (her_init_future_p (fun _ _ _ _ => 0%Z) [("u", [1; 1])] 10 2 4
                sparse_reward ltac:(lia)) as Hinit.
  destruct (HERReplayBuffer.__init__ (fun _ _ _ _ => 0%Z) [("u", [1; 1])] 10 2
              4 sparse_reward) as [b|e].
  - exists b. split; [reflexivity|].
    destruct Hinit as (_ & _ & -> & _). vm_compute. reflexivity.
  - exfalso. destruct Hinit as [[Hk _]|[Hk _]]; [discriminate Hk|].
    vm_compute in Hk. by apply Hk.
Defined.

Lemma episode_capacity_rounds_down_witness :
  ∃ b,
    ReplayBuffer.__init__ (fun _ _ _ _ => 0%Z) [("u", [1; 1])] 7 3 = Ok b ∧
    size (ReplayBuffer.ep_base b) = 2.
Proof.
  destruct (episode_capacity_rounds_down (fun _ _ _ _ => 0%Z) [("u", [1; 1])]
              7 3 ltac:(lia))
    as (b & Hb & _ & _ & Hsize & _).
  exists b. split; [exact Hb|]. lia.
Defined.

(** ** Clearing a buffer *)

(** [a[0 : n] = v], then [a[: n]]. *)
Lemma take_scatter_seq {A} (a v : list A) :
  length v ≤ length a → take (length v) (scatter a (seq 0 (length v)) v) = v.
Proof.
  intros Hlen. destruct (scatter_seq_lookup a v 0 Hlen) as [Hin _].
  apply list_eq. intros i. destruct (decide (i < length v)) as [Hi|Hi].
  - rewrite lookup_take_lt by done.
    destruct (lookup_lt_is_Some_2 v i Hi) as [x Hx]. rewrite Hx.
    apply (Hin i x Hx).
  - rewrite lookup_take_ge by lia. symmetry. apply lookup_ge_None. lia.
Qed.

Lemma head_batch_sizes {item} (batch : dict (list item)) bs :
  batch ≠ [] → Forall (fun kv => length kv.2 = bs) batch →
  head (batch_sizes batch) = Some bs.
Proof.
  intros Hne Hlen. destruct batch as [|[k v] batch]; [done|]. simpl. f_equal.
  by inversion Hlen.
Qed.

Section Clearing.
Context {elem : Type} `{!Scalar elem}.

(** X18. [clear_buffer] on the ring buffer forgets without erasing: the
    fill level and the pointer go back to zero and the arrays stay as they
    are.  The buffer then behaves as a new one: the next batch, of the
    fields of the buffer and with rows as long as those of the buffer,
    goes to the first slots, and it is all that is valid, so what
    [sample_all] returns afterwards is that batch, field by field, cast to
    the element type of the arrays. *)
Theorem ring_clear_then_store (batch : dict (list (list elem)))
    (w : world (@RingReplayBuffer.t elem)) (bs : nat) :
  wf_buffers (RingReplayBuffer.ring_base (self w)) →
  dict_keys batch = dict_keys (buffers (RingReplayBuffer.ring_base (self w))) →
  conforms row_shape batch (buffers (RingReplayBuffer.ring_base (self w))) →
  is_Some (dict_get "u" batch) →
  Forall (fun kv => length kv.2 = bs) batch →
  0 < bs ≤ size (RingReplayBuffer.ring_base (self w)) →
  ∃ w1 w2 trs,
    RingReplayBuffer.clear_buffer w = (Ok tt, w1) ∧
    buffers (RingReplayBuffer.ring_base (self w1))
    = buffers (RingReplayBuffer.ring_base (self w)) ∧
    current_size (RingReplayBuffer.ring_base (self w1)) = 0 ∧
    RingReplayBuffer.pointer (self w1) = 0 ∧
    store_episode batch w1 = (Ok tt, w2) ∧
    current_size (RingReplayBuffer.ring_base (self w2)) = bs ∧
    RingReplayBuffer.sample_all (self w2) = Ok trs ∧
    dict_keys trs = dict_keys batch ∧
    ∀ key, dict_get key trs = map (map float32) <$> dict_get key batch.
Proof.
  intros Hwf Hkeys Hconf [u Hu] Hlen Hbs.
  set (w1 := mkWorld
               (RingReplayBuffer.mk
                  (set_current_size 0 (RingReplayBuffer.ring_base (self w))) 0)
               (np w)).
  assert (RingReplayBuffer.clear_buffer w = (Ok tt, w1)) as Hclear by done.
  assert (wf_buffers (RingReplayBuffer.ring_base (self w1))) as Hwf1
    by exact Hwf.
  assert (batch ≠ []) as Hne by (intros ->; discriminate Hu).
  destruct (ring_store_at_pointer batch w1 bs Hwf1 Hconf
              (head_batch_sizes _ _ Hne Hlen) Hlen ltac:(lia)
              ltac:(simpl; lia))
    as (w2 & Hst & _ & Hsize2 & Hcs2 & _ & Hk2 & Hper).
  simpl in Hsize2, Hcs2, Hk2, Hper.
  assert (current_size (RingReplayBuffer.ring_base (self w2)) = bs) as Hcs2'
    by lia.
  assert (∀ key, take bs <$> dict_get key
                   (buffers (RingReplayBuffer.ring_base (self w2)))
                 = map (map float32) <$> dict_get key batch) as Hget.
  { intros key.
    destruct (dict_get key (buffers (RingReplayBuffer.ring_base (self w))))
      as [a|] eqn:Ha.
    - destruct (Hper key a Ha) as (v & Hv & Hlv & Ha').
      rewrite Ha', Hv. simpl. f_equal.
      assert (length a = size (RingReplayBuffer.ring_base (self w))) as Hla.
      { destruct Hwf as [_ Hl]. rewrite Forall_forall in Hl.
        apply (Hl _ (dict_get_elem _ _ _ Ha)). }
      rewrite <- Hlv, <- (length_map (map float32) v).
      apply take_scatter_seq. rewrite length_map. lia.
    - destruct (dict_get key (buffers (RingReplayBuffer.ring_base (self w2))))
        as [a'|] eqn:Ha'.
      { apply dict_get_Some_keys in Ha'. rewrite Hk2 in Ha'.
        apply dict_keys_get in Ha' as [? ?]. congruence. }
      destruct (dict_get key batch) as [v|] eqn:Hv; [|done].
      apply dict_get_Some_keys in Hv. rewrite Hkeys in Hv.
      apply dict_keys_get in Hv as [? ?]. congruence. }
  assert (Forall (fun kv => length kv.2
                            = size (RingReplayBuffer.ring_base (self w)))
            (buffers (RingReplayBuffer.ring_base (self w2)))) as Hlen2.
  { pose proof (store_episode_shape batch w1 Hwf1 ltac:(simpl; lia))
      as ([_ Hl2] & _). rewrite Hst in Hl2. simpl in Hl2.
    by rewrite Hsize2 in Hl2. }
  exists w1, w2. eexists. split; [done|]. split; [done|]. split; [done|].
  split; [done|]. split; [done|]. split; [done|]. split; [|split].
  - apply ring_sample_all_ok.
    + lia.
    + eapply Forall_impl; [exact Hlen2|]. intros kv Hkv. simpl in Hkv. lia.
    + specialize (Hget "u"). rewrite Hu in Hget.
      destruct (dict_get "u" (buffers (RingReplayBuffer.ring_base (self w2))));
        [eauto|done].
  - rewrite (dict_keys_map (fun _ v => take _ v)). by rewrite Hk2, Hkeys.
  - intros key. rewrite (dict_get_map (take _)), Hcs2'. apply Hget.
Qed.

(** X19. [clear_buffer] on the episode buffer sets the fill level to zero
    and leaves the arrays and the generator alone.  A batch stored next,
    of the fields of the buffer and with episodes of the shape of those of
    the buffer, goes to the first slots, cast to the element type of the
    arrays, also on a buffer that was full before: it is appended, and no
    stored episode is evicted at random. *)
Theorem episode_clear_then_store (batch : dict (list (list (list elem))))
    (w : world (@ReplayBuffer.t elem)) (bs : nat) :
  wf_buffers (ReplayBuffer.ep_base (self w)) →
  dict_keys batch = dict_keys (buffers (ReplayBuffer.ep_base (self w))) →
  conforms episode_shape batch (buffers (ReplayBuffer.ep_base (self w))) →
  batch ≠ [] →
  Forall (fun kv => length kv.2 = bs) batch →
  0 < bs ≤ size (ReplayBuffer.ep_base (self w)) →
  ∃ w1 w2,
    ReplayBuffer.clear_buffer w = (Ok tt, w1) ∧
    buffers (ReplayBuffer.ep_base (self w1))
    = buffers (ReplayBuffer.ep_base (self w)) ∧
    current_size (ReplayBuffer.ep_base (self w1)) = 0 ∧
    np w1 = np w ∧
    store_episode batch w1 = (Ok tt, w2) ∧
    np w2 = np w ∧
    current_size (ReplayBuffer.ep_base (self w2)) = bs ∧
    ∀ key, take bs <$> dict_get key (buffers (ReplayBuffer.ep_base (self w2)))
           = map (map (map float32)) <$> dict_get key batch.
Proof.
  intros Hwf Hkeys Hconf Hne Hlen Hbs.
  set (w1 := mkWorld
               (ReplayBuffer.mk
                  (set_current_size 0 (ReplayBuffer.ep_base (self w)))
                  (ReplayBuffer.T (self w)))
               (np w)).
  assert (ReplayBuffer.clear_buffer w = (Ok tt, w1)) as Hclear by done.
  assert (wf_buffers (ReplayBuffer.ep_base (self w1))) as Hwf1 by exact Hwf.
  destruct (episode_store_at_fill batch w1 bs Hwf1 Hconf
              (head_batch_sizes _ _ Hne Hlen) Hlen ltac:(lia)
              ltac:(simpl; lia))
    as (w2 & Hst & Hnp2 & _ & Hcs2 & _ & Hk2 & Hper).
  simpl in Hcs2, Hk2, Hper, Hnp2.
  exists w1, w2. repeat (split; [done|]).
  intros key.
  destruct (dict_get key (buffers (ReplayBuffer.ep_base (self w))))
    as [a|] eqn:Ha.
  - destruct (Hper key a Ha) as (v & Hv & Hlv & Ha').
    rewrite Ha', Hv. simpl. f_equal.
    assert (length a = size (ReplayBuffer.ep_base (self w))) as Hla.
    { destruct Hwf as [_ Hl]. rewrite Forall_forall in Hl.
      apply (Hl _ (dict_get_elem _ _ _ Ha)). }
    rewrite <- Hlv, <- (length_map (map (map float32)) v).
    apply take_scatter_seq. rewrite length_map. lia.
  - destruct (dict_get key (buffers (ReplayBuffer.ep_base (self w2))))
      as [a'|] eqn:Ha'.
    { apply dict_get_Some_keys in Ha'. rewrite Hk2 in Ha'.
      apply dict_keys_get in Ha' as [? ?]. congruence. }
    destruct (dict_get key batch) as [v|] eqn:Hv; [|done].
    apply dict_get_Some_keys in Hv. rewrite Hkeys in Hv.
    apply dict_keys_get in Hv as [? ?]. congruence.
Qed.
End Clearing.

Lemma ring_clear_then_store_witness :
  ∃ w1 w2,
    RingReplayBuffer.clear_buffer (mkWorld ring3_closed g0) = (Ok tt, w1) ∧
    store_episode (transition 9 1) w1 = (Ok tt, w2) ∧
    RingReplayBuffer.sample_all (self w2) = Ok (transition 9 1).
Proof.
  destruct (ring_clear_then_store (transition 9 1) (mkWorld ring3_closed g0) 1)
    as (w1 & w2 & trs & Hclear & _ & _ & _ & Hst & _ & Hs & _).
  - split; vm_compute.
    + apply NoDup_cons. split; [|apply NoDup_singleton].
      intros Hin%list_elem_of_singleton. discriminate Hin.
    + repeat constructor.
  - reflexivity.
  - change (conforms row_shape (transition 9 1)
              [("u", [[1%Z]; [2%Z]; [0%Z]]); ("done", [[0%Z]; [1%Z]; [0%Z]])]).
    repeat (apply Forall_cons; split); try apply Forall_nil_2;
      (eexists; split; [reflexivity|]); by repeat constructor.
  - simpl. eauto.
  - repeat constructor.
  - vm_compute. lia.
  - exists w1, w2. split; [exact Hclear|]. split; [exact Hst|].
    assert (w1 = (RingReplayBuffer.clear_buffer (mkWorld ring3_closed g0)).2)
      as -> by (by rewrite Hclear).
    assert (w2 = (store_episode (transition 9 1)
                    (RingReplayBuffer.clear_buffer
                       (mkWorld ring3_closed g0)).2).2)
      as -> by (by rewrite Hst).
    vm_compute. reflexivity.
Defined.

Lemma episode_clear_then_store_witness :
  ∃ w1 w2,
    ReplayBuffer.clear_buffer (mkWorld episodes2_full g0) = (Ok tt, w1) ∧
    store_episode (episodes_of [5%Z]) w1 = (Ok tt, w2) ∧
    current_size (ReplayBuffer.ep_base (self w2)) = 1.
Proof.
  destruct (episode_clear_then_store (episodes_of [5%Z])
              (mkWorld episodes2_full g0) 1)
    as (w1 & w2 & Hclear & _ & _ & _ & Hst & _ & Hcs & _).
  - split; vm_compute; [apply NoDup_singleton|repeat constructor].
  - reflexivity.
  - change (conforms episode_shape (episodes_of [5%Z])
              [("u", [[[1%Z]]; [[2%Z]]])]).
    repeat (apply Forall_cons; split); try apply Forall_nil_2;
      (eexists; split; [reflexivity|]); by repeat constructor.
  - discriminate.
  - repeat constructor.
  - vm_compute. lia.
  - exists w1, w2. split; [exact Hclear|]. split; [exact Hst|exact Hcs].
Defined.

(** ** Sampling from an empty buffer *)

(** X20. The two buffers fail differently when nothing is stored.  The
    ring buffer has no check in [sample]: asked for at least one record it
    raises the [ValueError] of [np.random.randint] on the empty range.
    The episode buffer asserts [current_size > 0] before anything else, so
    [sample] raises an [AssertionError] whatever the sampler of the
    subclass is, and no random number is drawn.  [sample_all] raises an
    [AssertionError] on both. *)
Theorem sample_from_empty_buffer {elem : Type}
    (rb : @RingReplayBuffer.t elem) (eb : @ReplayBuffer.t elem)
    (sample_transitions : dict (list (list (list elem))) → nat →
                          M np_random (dict (list (list elem))))
    (batch_size : nat) (g : np_random) :
  current_size (RingReplayBuffer.ring_base rb) = 0 →
  current_size (ReplayBuffer.ep_base eb) = 0 →
  0 < batch_size →
  RingReplayBuffer.sample rb batch_size g = (Raise ValueError, g) ∧
  RingReplayBuffer.sample_all rb = Raise AssertionError ∧
  ReplayBuffer.sample sample_transitions eb batch_size g
  = (Raise AssertionError, g) ∧
  ReplayBuffer.sample_all eb = Raise AssertionError.
Proof.
  intros Hr He _. split; [|split; [|split]].
  - unfold RingReplayBuffer.sample. rewrite Hr. done.
  - unfold RingReplayBuffer.sample_all. by rewrite Hr.
  - rewrite sample_eq, He. done.
  - unfold ReplayBuffer.sample_all. by rewrite He.
Qed.

Lemma sample_from_empty_buffer_witness :
  RingReplayBuffer.sample ring3 2 g0 = (Raise ValueError, g0) ∧
  UniformReplayBuffer.sample episodes2 2 g0 = (Raise AssertionError, g0).
Proof.
  destruct (sample_from_empty_buffer ring3 episodes2
              (UniformReplayBuffer.sample_transitions episodes2) 2 g0)
    as (Hr & _ & He & _).
  - reflexivity.
  - reflexivity.
  - lia.
  - split; [exact Hr|exact He].
Defined.

(** ** The recomputed reward, on examples *)

Lemma her_reward_recomputed_witness :
  ∃ ag_2 g_2 r,
    dict_get "ag_2" demo_batch = Some ag_2 ∧
    dict_get "g_2" demo_batch = Some g_2 ∧
    dict_get "r" demo_batch = Some r ∧
    r = map (fun x => [x])
          (HERReplayBuffer.reward_fun (demo_her 1) ag_2 g_2
             (HERReplayBuffer.info_of demo_batch)) ∧
    length r = 4.
Proof.
  apply (her_reward_recomputed (-100)%Z (demo_her 1) demo_buffers 4 g1
           (advance 4 (advance 4 (advance 4 (advance 4 g1)))) demo_batch).
  vm_compute. reflexivity.
Defined.

Lemma info_of_prefix_stripped_witness :
  HERReplayBuffer.info_of
    [("u", [[1%Z]]); ("info_is_success", [[1%Z]])]
  = info_prefix_stripped [("u", [[1%Z]]); ("info_is_success", [[1%Z]])].
Proof.
  apply (info_of_prefix_stripped
           [("u", [[1%Z]]); ("info_is_success", [[1%Z]])]).
  intros key v Hin _.
  apply elem_of_cons in Hin as [Hin|Hin]; [injection Hin as -> _; reflexivity|].
  apply elem_of_cons in Hin as [Hin|Hin]; [injection Hin as -> _; reflexivity|].
  inversion Hin.
Defined.

(** ** The hindsight sampler does not fail *)







Section HerTotal.
Context {elem : Type} `{!Scalar elem} (minus_100 : elem).
Implicit Types (self : @HERReplayBuffer.t elem) (tr : dict (list (list elem))).




End HerTotal.

Section HerSampleTotal.
Context {elem : Type} `{!Scalar elem} (minus_100 : elem).

End HerSampleTotal.


Section HerNeedsGoals.
Context {elem : Type} `{!Scalar elem} (minus_100 : elem).

End HerNeedsGoals.



(** ** The buffers [DDPG] creates *)

(** The loop over the [info] dimensions adds fields whose names start with
    [info] and leaves the others as they are. *)
Lemma info_shapes_spec lead (dims : dict nat) (s : dict (list nat)) :
  NoDup (dict_keys s) →
  NoDup (dict_keys (DDPG.info_shapes lead dims s)) ∧
  (∀ key, startswith "info" key = false →
          dict_get key (DDPG.info_shapes lead dims s) = dict_get key s) ∧
  (∀ key shape,
     dict_get key (DDPG.info_shapes lead dims s) = Some shape →
     dict_get key s = Some shape ∨
     (startswith "info" key = true ∧
      ∃ val, shape = lead ++ if 0 <? val then [val] else [])) ∧
  (∀ key, is_Some (dict_get key s) →
          is_Some (dict_get key (DDPG.info_shapes lead dims s))).
Proof.
  unfold DDPG.info_shapes. revert s.
  induction dims as [|[k val] dims IH]; intros s Hnd; cbn [foldl fst snd].
  { split; [done|]. split; [done|]. split; [by left|done]. }
  destruct (startswith "info" k) eqn:Hk; [|by apply IH].
  destruct (IH (dict_set k (lead ++ (if 0 <? val then [val] else [])) s))
    as (Hnd' & Hsame & Hfrom & Hkeep); [by apply dict_set_NoDup|].
  split; [done|]. split; [|split].
  - intros key Hkey. rewrite Hsame by done.
    apply dict_get_set_ne. congruence.
  - intros key shape Hget.
    destruct (Hfrom key shape Hget) as [Hs|Hinfo]; [|by right].
    destruct (decide (key = k)) as [->|Hne].
    + rewrite dict_get_set_eq in Hs. injection Hs as <-. right. eauto.
    + rewrite dict_get_set_ne in Hs by done. by left.
  - intros key Hkey. by apply Hkeep, dict_get_set_is_Some.
Qed.

Lemma ddpg_shapes_NoDup {elem} (self : @DDPG.t elem) :
  NoDup (dict_keys (DDPG.buffer_shapes self)).
Proof.
  unfold DDPG.buffer_shapes.
  destruct (DDPG.fix_T self); cbv zeta; [|apply dict_set_NoDup];
    apply info_shapes_spec; destruct (DDPG.dimg self =? 0);
    apply (bool_decide_unpack _); vm_compute; exact I.
Qed.

Section DdpgSchema.
Context {elem : Type} `{!Scalar elem}.
Implicit Types (self : @DDPG.t elem).

(** X25. The schema of the episode buffers ([fix_T]) is the one the
    episode buffer and its samplers work with.  No field is declared
    twice; the fields [o], [u] and [r] are always there; the goal fields
    [ag] and [g] are there together, exactly when [dimg] is not [0]; the
    fields [o_2], [ag_2] and [g_2], which [sample] derives, and [done] are
    never stored; and the leading dimension of every field, also of the
    [info] fields, is the number of steps of an episode: [T + 1] for [o]
    and [ag], [T] for the others. *)
Theorem ddpg_episode_schema self :
  DDPG.fix_T self = true →
  NoDup (dict_keys (DDPG.buffer_shapes self)) ∧
  Forall (fun key => is_Some (dict_get key (DDPG.buffer_shapes self)))
         ["o"; "u"; "r"] ∧
  (is_Some (dict_get "ag" (DDPG.buffer_shapes self)) ↔ DDPG.dimg self ≠ 0) ∧
  (is_Some (dict_get "g" (DDPG.buffer_shapes self)) ↔ DDPG.dimg self ≠ 0) ∧
  Forall (fun key => dict_get key (DDPG.buffer_shapes self) = None)
         ["o_2"; "ag_2"; "g_2"; "done"] ∧
  ∀ key shape,
    dict_get key (DDPG.buffer_shapes self) = Some shape →
    head shape = Some (if has_next_step key then DDPG.T self + 1
                       else DDPG.T self).
Proof.
  intros Hfix. unfold DDPG.buffer_shapes. rewrite Hfix. cbv zeta.
  match goal with
  | |- context [DDPG.info_shapes _ _ ?d] => set (s0 := d)
  end.
  destruct (info_shapes_spec [DDPG.T self] (DDPG.input_dims self) s0)
    as (Hnd & Hsame & Hfrom & Hkeep).
  { unfold s0. destruct (DDPG.dimg self =? 0);
      apply (bool_decide_unpack _); vm_compute; exact I. }
  split; [done|]. split; [|split; [|split; [|split]]].
  - repeat constructor; apply Hkeep; unfold s0;
      destruct (DDPG.dimg self =? 0); simpl; eauto.
  - rewrite Hsame by done. unfold s0.
    destruct (DDPG.dimg self =? 0) eqn:E; simpl.
    + apply Nat.eqb_eq in E. split; [by intros [? ?]|done].
    + apply Nat.eqb_neq in E. split; [done|eauto].
  - rewrite Hsame by done. unfold s0.
    destruct (DDPG.dimg self =? 0) eqn:E; simpl.
    + apply Nat.eqb_eq in E. split; [by intros [? ?]|done].
    + apply Nat.eqb_neq in E. split; [done|eauto].
  - repeat constructor; rewrite Hsame by done; unfold s0;
      by destruct (DDPG.dimg self =? 0).
  - intros key shape Hget.
    destruct (Hfrom key shape Hget) as [Hs|[Hinfo [val ->]]].
    + revert Hs. unfold s0, has_next_step.
      destruct (DDPG.dimg self =? 0); simpl;
        repeat match goal with
               | |- context [String.eqb key ?k] =>
                   destruct (String.eqb_spec key k) as [->|?];
                   [simpl; intros ?; by simplify_eq|]
               end; done.
    + assert (has_next_step key = false) as ->; [|done].
      unfold has_next_step.
      destruct (String.eqb_spec key "o") as [->|?]; [done|].
      destruct (String.eqb_spec key "ag") as [->|?]; done.
Qed.

(** X26. The schema of the transition buffer (not [fix_T]) stores the
    next step with every transition: no field is declared twice; [o],
    [o_2], [u], [r] and the episode marker [done] are always there; and
    the four goal fields [ag], [g], [ag_2] and [g_2] are there together,
    exactly when [dimg] is not [0]. *)
Theorem ddpg_transition_schema self :
  DDPG.fix_T self = false →
  NoDup (dict_keys (DDPG.buffer_shapes self)) ∧
  Forall (fun key => is_Some (dict_get key (DDPG.buffer_shapes self)))
         ["o"; "o_2"; "u"; "r"; "done"] ∧
  Forall (fun key => is_Some (dict_get key (DDPG.buffer_shapes self))
                     ↔ DDPG.dimg self ≠ 0)
         ["ag"; "g"; "ag_2"; "g_2"].
Proof.
  intros Hfix. unfold DDPG.buffer_shapes. rewrite Hfix. cbv zeta.
  match goal with
  | |- context [DDPG.info_shapes _ _ ?d] => set (s0 := d)
  end.
  destruct (info_shapes_spec [] (DDPG.input_dims self) s0)
    as (Hnd & Hsame & Hfrom & Hkeep).
  { unfold s0. destruct (DDPG.dimg self =? 0);
      apply (bool_decide_unpack _); vm_compute; exact I. }
  split; [by apply dict_set_NoDup|]. split.
  - repeat constructor; try (by rewrite dict_get_set_eq);
      apply dict_get_set_is_Some, Hkeep; unfold s0;
      destruct (DDPG.dimg self =? 0); simpl; eauto.
  - repeat (apply Forall_cons; split); [..|by apply Forall_nil_2];
      rewrite dict_get_set_ne, Hsame by done; unfold s0;
      destruct (DDPG.dimg self =? 0) eqn:E; simpl;
      first [ apply Nat.eqb_eq in E; split; [by intros [? ?]|done]
            | apply Nat.eqb_neq in E; split; [done|eauto] ].
Qed.
End DdpgSchema.

(** A learner on an environment with goals and one [info] field, with
    hindsight replay. *)
Definition demo_ddpg (fix_T : bool) : @DDPG.t Z :=
  DDPG.mk [("o", 3); ("g", 2); ("u", 1); ("info_is_success", 1)]
    3 2 1 2 fix_T 5 "none" false
    (Some (if fix_T then DDPG.Her 4 sparse_reward else DDPG.NoRelabelling)).

Lemma ddpg_episode_schema_witness :
  dict_get "info_is_success" (DDPG.buffer_shapes (demo_ddpg true))
  = Some [2; 1] ∧
  head [2; 1] = Some 2.
Proof.
  split; [reflexivity|].
  destruct (ddpg_episode_schema (demo_ddpg true)) as (_ & _ & _ & _ & _ & Hsteps).
  - reflexivity.
  - apply (Hsteps "info_is_success" [2; 1]). reflexivity.
Defined.

Lemma ddpg_transition_schema_witness :
  NoDup (dict_keys (DDPG.buffer_shapes (demo_ddpg false))).
Proof.
  destruct (ddpg_transition_schema (demo_ddpg false)) as (Hnd & _).
  - reflexivity.
  - exact Hnd.
Defined.

Section DdpgCreates.
Context {elem : Type} `{!Scalar elem}.
Implicit Types (self : @DDPG.t elem).

(** A buffer as its constructor leaves it: empty, with one array of [n]
    slots for each field of the schema. *)
Definition fresh_base {item} (shapes : dict (list nat)) (n : nat)
    (b : ReplayBufferBase.t item) : Prop :=
  wf_buffers b ∧ buffer_shapes b = shapes ∧
  dict_keys (buffers b) = dict_keys shapes ∧
  size b = n ∧ current_size b = 0.

(** A fresh buffer of the learner [self]: an episode buffer of
    [buffer_size // T] episodes where the horizon is fixed, a ring of
    [buffer_size] transitions where it is not. *)
Definition fresh_for self (c : @DDPG.created elem) : Prop :=
  match c with
  | DDPG.Hindsight h =>
      DDPG.fix_T self = true ∧ 0 < DDPG.T self ∧
      ReplayBuffer.T (HERReplayBuffer.replay h) = DDPG.T self ∧
      fresh_base (DDPG.buffer_shapes self)
        (DDPG.buffer_size self / DDPG.T self)
        (ReplayBuffer.ep_base (HERReplayBuffer.replay h))
  | DDPG.Uniform u =>
      DDPG.fix_T self = true ∧ 0 < DDPG.T self ∧
      ReplayBuffer.T u = DDPG.T self ∧
      fresh_base (DDPG.buffer_shapes self)
        (DDPG.buffer_size self / DDPG.T self) (ReplayBuffer.ep_base u)
  | DDPG.Ring r =>
      DDPG.fix_T self = false ∧ RingReplayBuffer.pointer r = 0 ∧
      fresh_base (DDPG.buffer_shapes self) (DDPG.buffer_size self)
        (RingReplayBuffer.ring_base r)
  end.

Lemma fresh_base_init {item} (entry : list nat → string → nat → item)
    shapes n :
  NoDup (dict_keys shapes) →
  fresh_base shapes n (ReplayBufferBase.__init__ shapes n (np_empty entry n shapes)).
Proof.
  intros Hnd. split; [by apply fresh_wf|]. split; [done|].
  split; [apply dict_keys_np_empty|done].
Qed.

(** X27. Every buffer [_create_replay_buffer] creates is empty and well
    formed, with the schema of the learner: one array for each field of
    [buffer_shapes], each with as many slots as the buffer has capacity,
    [buffer_size // T] episodes for an episode buffer (created only where
    the horizon is fixed, and [T] is not [0]) and [buffer_size] transitions
    for a ring (created only where it is not).  The demonstration buffer
    is created, in the same way, exactly when [demo_strategy] is not
    ["none"] or [sample_demo_buffer] is set. *)
Theorem ddpg_creates_fresh_buffers uninit_episode uninit_row self rb demo :
  DDPG._create_replay_buffer uninit_episode uninit_row self
  = Ok (Some rb, demo) →
  fresh_for self rb ∧
  match demo with
  | Some d =>
      fresh_for self d ∧
      (DDPG.demo_strategy self ≠ "none" ∨ DDPG.sample_demo_buffer self = true)
  | None =>
      DDPG.demo_strategy self = "none" ∧ DDPG.sample_demo_buffer self = false
  end.
Proof.
  pose proof (ddpg_shapes_NoDup self) as Hnd.
  assert (∀ b : bool,
            negb (String.eqb (DDPG.demo_strategy self) "none")
            || DDPG.sample_demo_buffer self = b →
            if b
            then DDPG.demo_strategy self ≠ "none"
                 ∨ DDPG.sample_demo_buffer self = true
            else DDPG.demo_strategy self = "none"
                 ∧ DDPG.sample_demo_buffer self = false) as Hdemo.
  { intros b <-.
    destruct (String.eqb_spec (DDPG.demo_strategy self) "none") as [->|Hne];
      simpl; [|by left].
    destruct (DDPG.sample_demo_buffer self); [by right|done]. }
  unfold DDPG._create_replay_buffer. cbv zeta.
  specialize (Hdemo _ eq_refl).
  destruct (negb _ || _);
    (destruct (DDPG.replay_strategy self) as [[k rf| |name]|]; [| | |done];
     [| |done]);
    (destruct (DDPG.fix_T self) eqn:Hfix; try done);
    unfold HERReplayBuffer.__init__, ReplayBuffer.__init__;
    unfold mbind, result_bind;
    try (destruct (DDPG.T self =? 0) eqn:HT; [done|];
         apply Nat.eqb_neq in HT);
    try (destruct (negb (HERReplayBuffer.converts_to_double (1 + k)));
         [done|]);
    try (destruct (1 + k =? 0)%Z; [done|]);
    intros [= <- <-]; simpl;
    repeat split; try done; try lia; try (by apply fresh_base_init);
    by destruct Hdemo.
Qed.
End DdpgCreates.

Lemma ddpg_creates_fresh_buffers_witness :
  ∃ rb,
    DDPG._create_replay_buffer (fun _ _ _ _ => 0%Z) (fun _ _ _ => 0%Z)
      (demo_ddpg true)
    = Ok (Some rb, None) ∧
    fresh_for (demo_ddpg true) rb.
Proof.
  eexists. split; [vm_compute; reflexivity|].
  eapply proj1, (ddpg_creates_fresh_buffers (fun _ _ _ _ => 0%Z)
                   (fun _ _ _ => 0%Z)).
  vm_compute. reflexivity.
Defined.
